(** * gpr: a G-code lexer, parser and printer

    A shallow embedding of [src/gcode_program.h], [src/gcode_program.cpp]
    and [src/parser.cpp], and the properties of the specification that
    are settled against it.

    Conventions of the embedding.
    - A [char] is an [ascii]; a [std::string] is a [list ascii].
    - An [int] is a [Z] kept inside [INT_MIN .. INT_MAX]; an arithmetic
      step that would leave the range is undefined behaviour and is the
      failure [Undefined].
    - A [double] is an IEEE 754 binary64 value, a [spec_float] at
      precision 53 and maximal exponent 1024.
    - [assert(false)], a failed [assert], a thrown exception and a read
      past the end of a vector all end the parse: a fallible function
      returns a [result], whose failure names what happened.
    - A [parse_stream] is its unconsumed part, [remaining() .. end()]:
      [next()] is the head, [s++] drops it, [chars_left()] is
      non-emptiness.  The cursor of the source only moves forward
      ([operator--] has no caller) and is only advanced after a
      successful [next()]. *)

From Stdlib Require Import String Ascii ZArith List Bool Lia.
From Stdlib Require Import Floats.SpecFloat.
From Stdlib Require DecimalZ DecimalN DecimalPos DecimalFacts.
Import ListNotations.

(** ** Failures *)

Inductive error : Type :=
| LexError              (* [assert(false)] on a stray ')' or ']' in [lex_token] *)
| UnknownAddressLetter  (* [assert(false)] in the default case of [parse_address] *)
| NumericFormat         (* [std::stoi] / [std::stod] throw *)
| ContractViolation     (* a failed [assert] on a precondition or a type tag *)
| OutOfBounds           (* a read past the end of a stream *)
| Undefined             (* signed overflow, read of the inactive union member *)
| OutOfRange            (* [std::string::substr] throws *)
| OutOfFuel.            (* never produced: see [lex_gprog_total] *)

Inductive result (A : Type) : Type :=
| OK (a : A)
| Err (e : error).

Arguments OK {A} a.
Arguments Err {A} e.

Definition bind {A B : Type} (r : result A) (k : A -> result B) : result B :=
  match r with
  | OK a => k a
  | Err e => Err e
  end.

Notation "x <- r ;; k" := (bind r (fun x => k))
  (at level 61, r at next level, right associativity).
Notation "' p <- r ;; k" := (bind r (fun x => let p := x in k))
  (at level 61, p pattern, r at next level, right associativity).

Definition is_ok {A : Type} (r : result A) : bool :=
  match r with OK _ => true | Err _ => false end.

(** ** Characters and strings *)

Definition str : Type := list ascii.

Definition chars (s : string) : str := list_ascii_of_string s.

Definition code (c : ascii) : N := N_of_ascii c.

(** [isdigit] and [isspace] of the "C" locale. *)
Definition isdigit (c : ascii) : bool :=
  (48 <=? code c)%N && (code c <=? 57)%N.

Definition isspace (c : ascii) : bool :=
  (code c =? 32)%N || ((9 <=? code c)%N && (code c <=? 13)%N).

Fixpoint eqb_str (a b : str) : bool :=
  match a, b with
  | [], [] => true
  | x :: a', y :: b' => Ascii.eqb x y && eqb_str a' b'
  | _, _ => false
  end.

(** [s[0]] of a [std::string]: the terminating null when [s] is empty. *)
Definition front (s : str) : ascii := hd zero s.

(** [s.substr(pos, n)]: [n] is a [size_t], the count is clipped to what is
    left after [pos]; throws [std::out_of_range] when [pos > s.size()]. *)
Definition SIZE_MAX : Z := 2 ^ 64 - 1.

Definition substr (s : str) (pos n : Z) : result str :=
  let size := Z.of_nat (length s) in
  if (size <? pos)%Z then Err OutOfRange
  else OK (firstn (Z.to_nat (Z.min n (size - pos))) (skipn (Z.to_nat pos) s)).

(** ** The numeric library functions the parser and printer call *)

Definition INT_MAX : Z := 2147483647.
Definition INT_MIN : Z := -2147483648.

Definition in_int_range (z : Z) : bool :=
  (INT_MIN <=? z)%Z && (z <=? INT_MAX)%Z.

Definition double : Type := spec_float.

Definition digit_value (c : ascii) : Z := Z.of_N (code c) - 48.

(** The value of a run of decimal digits read from the left, and what
    follows the run.  [acc] is the value read so far, [n] the number of
    digits read so far. *)
Fixpoint read_digits (s : str) (acc : Z) (n : nat) : Z * nat * str :=
  match s with
  | c :: s' =>
      if isdigit c then read_digits s' (10 * acc + digit_value c)%Z (S n)
      else (acc, n, s)
  | [] => (acc, n, s)
  end.

Fixpoint skip_space (s : str) : str :=
  match s with
  | c :: s' => if isspace c then skip_space s' else s
  | [] => []
  end.

Definition read_sign (s : str) : bool * str :=
  match s with
  | c :: s' =>
      if Ascii.eqb c "-" then (true, s')
      else if Ascii.eqb c "+" then (false, s')
      else (false, s)
  | [] => (false, s)
  end.

(** [std::stoi(s)], base 10: leading white space, an optional sign, then
    the longest run of digits; what follows the run is ignored.  Throws
    [std::invalid_argument] when there is no digit and [std::out_of_range]
    when the value is not an [int]. *)
Definition stoi (s : str) : result Z :=
  let '(neg, s1) := read_sign (skip_space s) in
  let '(v, n, _) := read_digits s1 0%Z 0 in
  match n with
  | O => Err NumericFormat
  | S _ =>
      let z := if neg then (- v)%Z else v in
      if in_int_range z then OK z else Err NumericFormat
  end.

(** The binary64 nearest to [num / den] (ties to even), for positive
    [num] and [den]. *)
Definition round_quotient (neg : bool) (num den : positive) : double :=
  let '(mz, ez, lz) := SFdiv_core_binary 53 1024 (Zpos num) 0 (Zpos den) 0 in
  binary_round_aux 53 1024 neg mz ez lz.

Definition is_finite (d : double) : bool :=
  match d with
  | S754_zero _ | S754_finite _ _ _ => true
  | _ => false
  end.

(** [std::stod(s)] on the decimal spellings: leading white space, an
    optional sign, digits with at most one '.', at least one digit in
    all; what follows is ignored.  The value is the nearest binary64.
    Throws [std::invalid_argument] when there is no digit and
    [std::out_of_range] when the value overflows; whether a value below
    the normal range also throws is left to the C library, and the
    model returns the rounded value there.  Every string the
    lexer hands to [stod] is a run of digits, '.' and '-', so the
    exponent, hexadecimal, "inf" and "nan" spellings of [strtod], which
    need a letter, are left out of the model. *)
Definition stod (s : str) : result double :=
  let '(neg, s1) := read_sign (skip_space s) in
  let '(ip, n1, s2) := read_digits s1 0%Z 0 in
  let '(m, n2) :=
    match s2 with
    | c :: s3 =>
        if Ascii.eqb c "." then
          let '(v, n, _) := read_digits s3 ip 0 in (v, n)
        else (ip, O)
    | [] => (ip, O)
    end in
  match (n1 + n2)%nat with
  | O => Err NumericFormat
  | S _ =>
      match m with
      | Zpos p =>
          let d := round_quotient neg p (Z.to_pos (10 ^ Z.of_nat n2)) in
          if is_finite d then OK d else Err NumericFormat
      | _ => OK (S754_zero neg)
      end
  end.


(** [out << i] for an [int]: the decimal digits, '-' first when negative. *)
Fixpoint uint_chars (u : Decimal.uint) : str :=
  match u with
  | Decimal.Nil => []
  | Decimal.D0 u' => "0"%char :: uint_chars u'
  | Decimal.D1 u' => "1"%char :: uint_chars u'
  | Decimal.D2 u' => "2"%char :: uint_chars u'
  | Decimal.D3 u' => "3"%char :: uint_chars u'
  | Decimal.D4 u' => "4"%char :: uint_chars u'
  | Decimal.D5 u' => "5"%char :: uint_chars u'
  | Decimal.D6 u' => "6"%char :: uint_chars u'
  | Decimal.D7 u' => "7"%char :: uint_chars u'
  | Decimal.D8 u' => "8"%char :: uint_chars u'
  | Decimal.D9 u' => "9"%char :: uint_chars u'
  end.

Definition print_int (z : Z) : str :=
  match Z.to_int z with
  | Decimal.Pos u => uint_chars u
  | Decimal.Neg u => "-"%char :: uint_chars u
  end.

(** [out << d] for a [double] on a stream in its default state: the
    conversion [%g] at precision 6.  The value is rounded to six
    significant decimal digits (ties to even); with [X] the decimal
    exponent of the rounded value, the fixed notation is used when
    [-4 <= X < 6] and the exponent notation otherwise; trailing zeros of
    the fraction, and a '.' left without a fraction, are removed. *)
Section PrintDouble.

(** The value printed is [num / den], both positive. *)
Variables num den : Z.

(** [10 ^ x <= num / den]. *)
Definition pow10_le (x : Z) : bool :=
  if (0 <=? x)%Z then (den * 10 ^ x <=? num)%Z
  else (den <=? num * 10 ^ (- x))%Z.

(** The largest [x] at or below the start with [10 ^ x <= num / den]. *)
Fixpoint decimal_exponent (fuel : nat) (x : Z) : Z :=
  match fuel with
  | O => x
  | S fuel' => if pow10_le x then x else decimal_exponent fuel' (x - 1)%Z
  end.

(** [num / den * 10 ^ k] rounded to an integer, ties to even. *)
Definition round_scaled (k : Z) : Z :=
  let a := if (0 <=? k)%Z then (num * 10 ^ k)%Z else num in
  let b := if (0 <=? k)%Z then den else (den * 10 ^ (- k))%Z in
  let q := (a / b)%Z in
  let r := (a mod b)%Z in
  match (2 * r ?= b)%Z with
  | Gt => (q + 1)%Z
  | Eq => if Z.even q then q else (q + 1)%Z
  | Lt => q
  end.

End PrintDouble.

Fixpoint drop_zeros (s : str) : str :=
  match s with
  | c :: s' => if Ascii.eqb c "0" then drop_zeros s' else s
  | [] => []
  end.

Definition strip_trailing_zeros (s : str) : str := rev (drop_zeros (rev s)).

Definition with_fraction (ip frac : str) : str :=
  match strip_trailing_zeros frac with
  | [] => ip
  | f => ip ++ "."%char :: f
  end.

Definition print_exponent (x : Z) : str :=
  let a := print_int (Z.abs x) in
  let a := if (Z.abs x <? 10)%Z then "0"%char :: a else a in
  (if (x <? 0)%Z then "-"%char else "+"%char) :: a.

Definition print_g (num den : Z) : str :=
  let x0 := decimal_exponent num den 700 320 in
  let d0 := round_scaled num den (5 - x0) in
  let '(d, x) := if (d0 =? 1000000)%Z then (100000%Z, (x0 + 1)%Z) else (d0, x0) in
  let ds := print_int d in
  if ((x <? -4) || (6 <=? x))%Z then
    with_fraction (firstn 1 ds) (skipn 1 ds) ++ "e"%char :: print_exponent x
  else if (0 <=? x)%Z then
    with_fraction (firstn (Z.to_nat (x + 1)) ds) (skipn (Z.to_nat (x + 1)) ds)
  else
    with_fraction ["0"%char] (repeat "0"%char (Z.to_nat (- x - 1)) ++ ds).

Definition print_sign (s : bool) : str := if s then ["-"%char] else [].

Definition print_double (d : double) : str :=
  match d with
  | S754_nan => chars "nan"
  | S754_infinity s => print_sign s ++ chars "inf"
  | S754_zero s => print_sign s ++ chars "0"
  | S754_finite s m e =>
      print_sign s ++
      (if (0 <=? e)%Z then print_g (Zpos m * 2 ^ e) 1
       else print_g (Zpos m) (2 ^ (- e)))
  end.

(** ** The data model ([gcode_program.h], [gcode_program.cpp]) *)

Inductive address_type : Type :=
| ADDRESS_TYPE_INTEGER
| ADDRESS_TYPE_DOUBLE.

Definition address_type_eqb (a b : address_type) : bool :=
  match a, b with
  | ADDRESS_TYPE_INTEGER, ADDRESS_TYPE_INTEGER => true
  | ADDRESS_TYPE_DOUBLE, ADDRESS_TYPE_DOUBLE => true
  | _, _ => false
  end.

(** [union addr_value]: the member that was last written. *)
Inductive addr_value : Type :=
| dbl_val (d : double)
| int_val (i : Z).

(** [class addr]: the tag and the union, as the constructor stores them. *)
Record addr : Type := mk_addr {
  ad_type : address_type;
  val : addr_value
}.

Definition tp (a : addr) : address_type := ad_type a.

(** [assert(tp() == ADDRESS_TYPE_DOUBLE); return val.dbl_val;] *)
Definition double_value (a : addr) : result double :=
  match tp a with
  | ADDRESS_TYPE_DOUBLE =>
      match val a with
      | dbl_val d => OK d
      | int_val _ => Err Undefined
      end
  | ADDRESS_TYPE_INTEGER => Err ContractViolation
  end.

(** [assert(tp() == ADDRESS_TYPE_INTEGER); return val.int_val;] *)
Definition int_value (a : addr) : result Z :=
  match tp a with
  | ADDRESS_TYPE_INTEGER =>
      match val a with
      | int_val i => OK i
      | dbl_val _ => Err Undefined
      end
  | ADDRESS_TYPE_DOUBLE => Err ContractViolation
  end.

Definition make_int_address (i : Z) : addr :=
  mk_addr ADDRESS_TYPE_INTEGER (int_val i).

Definition make_double_address (d : double) : addr :=
  mk_addr ADDRESS_TYPE_DOUBLE (dbl_val d).

(** [==] on [double]. *)
Definition double_eqb (x y : double) : bool := SFeqb x y.

Definition addr_equals (a other : addr) : result bool :=
  if negb (address_type_eqb (tp other) (tp a)) then OK false
  else
    match tp other with
    | ADDRESS_TYPE_DOUBLE =>
        x <- double_value other ;; y <- double_value a ;; OK (double_eqb x y)
    | ADDRESS_TYPE_INTEGER =>
        x <- int_value other ;; y <- int_value a ;; OK (Z.eqb x y)
    end.

Definition addr_print (a : addr) : result str :=
  match tp a with
  | ADDRESS_TYPE_DOUBLE => d <- double_value a ;; OK (print_double d)
  | ADDRESS_TYPE_INTEGER => i <- int_value a ;; OK (print_int i)
  end.

Inductive chunk_type : Type :=
| CHUNK_TYPE_COMMENT
| CHUNK_TYPE_WORD_ADDRESS
| CHUNK_TYPE_PERCENT
| CHUNK_TYPE_WORD.

(** [class chunk]: the type tag with the fields that the constructor of
    that tag fills in.
    - [Comment l r text] is [chunk(l, r, text)],
    - [WordAddress wd adr] is [chunk(wd, adr)],
    - [Percent] is [chunk()],
    - [Word c] is [chunk(c)]. *)
Inductive chunk : Type :=
| Comment (left_delim right_delim : ascii) (comment_text : str)
| WordAddress (wd : ascii) (adr : addr)
| Percent
| Word (single_word : ascii).

Definition chunk_tp (c : chunk) : chunk_type :=
  match c with
  | Comment _ _ _ => CHUNK_TYPE_COMMENT
  | WordAddress _ _ => CHUNK_TYPE_WORD_ADDRESS
  | Percent => CHUNK_TYPE_PERCENT
  | Word _ => CHUNK_TYPE_WORD
  end.

Definition get_left_delim (c : chunk) : result ascii :=
  match c with Comment l _ _ => OK l | _ => Err ContractViolation end.

Definition get_right_delim (c : chunk) : result ascii :=
  match c with Comment _ r _ => OK r | _ => Err ContractViolation end.

Definition get_comment_text (c : chunk) : result str :=
  match c with Comment _ _ t => OK t | _ => Err ContractViolation end.

Definition get_word (c : chunk) : result ascii :=
  match c with WordAddress w _ => OK w | _ => Err ContractViolation end.

Definition get_address (c : chunk) : result addr :=
  match c with WordAddress _ a => OK a | _ => Err ContractViolation end.

Definition get_single_word (c : chunk) : result ascii :=
  match c with Word w => OK w | _ => Err ContractViolation end.

Definition make_comment (start_delim end_delim : ascii) (comment_text : str) : chunk :=
  Comment start_delim end_delim comment_text.

Definition make_isolated_word (c : ascii) : chunk := Word c.

Definition make_word_int (c : ascii) (i : Z) : chunk :=
  WordAddress c (make_int_address i).

Definition make_word_double (c : ascii) (d : double) : chunk :=
  WordAddress c (make_double_address d).

Definition make_percent_chunk : chunk := Percent.

Definition equals_word_address (c other : chunk) : result bool :=
  w1 <- get_word c ;; w2 <- get_word other ;;
  if Ascii.eqb w1 w2 then
    a1 <- get_address c ;; a2 <- get_address other ;; addr_equals a1 a2
  else OK false.

Definition equals_comment (c other : chunk) : result bool :=
  t1 <- get_comment_text c ;; t2 <- get_comment_text other ;;
  l1 <- get_left_delim c ;; l2 <- get_left_delim other ;;
  r1 <- get_right_delim c ;; r2 <- get_right_delim other ;;
  OK (eqb_str t1 t2 && Ascii.eqb l1 l2 && Ascii.eqb r1 r2).

Definition chunk_equals (c other : chunk) : result bool :=
  match chunk_tp other, chunk_tp c with
  | CHUNK_TYPE_WORD_ADDRESS, CHUNK_TYPE_WORD_ADDRESS => equals_word_address c other
  | CHUNK_TYPE_COMMENT, CHUNK_TYPE_COMMENT => equals_comment c other
  | CHUNK_TYPE_PERCENT, CHUNK_TYPE_PERCENT => OK true
  | CHUNK_TYPE_WORD, CHUNK_TYPE_WORD =>
      w1 <- get_single_word c ;; w2 <- get_single_word other ;;
      OK (Ascii.eqb w1 w2)
  | _, _ => OK false
  end.

Definition chunk_print (c : chunk) : result str :=
  match c with
  | Comment l r t => OK (l :: t ++ [r])
  | WordAddress w a => t <- addr_print a ;; OK (w :: t)
  | Percent => OK (chars "%")
  | Word w => OK [w]
  end.

(** [class block].  [debug_text] is empty until [set_debug_text]. *)
Record block : Type := mk_block {
  has_line_no : bool;
  line_no : Z;
  slashed_out : bool;
  chunks : list chunk;
  debug_text : str
}.

(** [block(p_line_no, p_slashed_out, p_chunks)] *)
Definition block_numbered (p_line_no : Z) (p_slashed_out : bool)
    (p_chunks : list chunk) : block :=
  mk_block true p_line_no p_slashed_out p_chunks [].

(** [block(p_slashed_out, p_chunks)] *)
Definition block_plain (p_slashed_out : bool) (p_chunks : list chunk) : block :=
  mk_block false (-1) p_slashed_out p_chunks [].

Definition is_deleted (b : block) : bool := slashed_out b.
Definition has_line_number (b : block) : bool := has_line_no b.

Definition line_number (b : block) : result Z :=
  if has_line_number b then OK (line_no b) else Err ContractViolation.

Definition get_chunk (b : block) (i : nat) : result chunk :=
  match nth_error (chunks b) i with
  | Some c => OK c
  | None => Err ContractViolation
  end.

(** [for (auto i : *this) stream << i << " ";] *)
Fixpoint print_chunks (cs : list chunk) : result str :=
  match cs with
  | [] => OK []
  | c :: cs' =>
      t <- chunk_print c ;; rest <- print_chunks cs' ;;
      OK (t ++ " "%char :: rest)
  end.

Definition block_print (b : block) : result str :=
  prefix <-
    (if has_line_number b then
       n <- line_number b ;; OK ("N"%char :: print_int n ++ [" "%char])
     else OK []) ;;
  body <- print_chunks (chunks b) ;;
  OK (prefix ++ body).

Definition to_string (b : block) : result str := block_print b.

Definition set_debug_text (b : block) : result block :=
  t <- to_string b ;;
  OK (mk_block (has_line_no b) (line_no b) (slashed_out b) (chunks b) t).

Record gcode_program : Type := mk_program { blocks : list block }.

Definition num_blocks (p : gcode_program) : nat := length (blocks p).

Definition newline : ascii := "010"%char.

(** [for (auto b : program) stream << b << endl;] *)
Fixpoint print_blocks (bs : list block) : result str :=
  match bs with
  | [] => OK []
  | b :: bs' =>
      t <- block_print b ;; rest <- print_blocks bs' ;;
      OK (t ++ newline :: rest)
  end.

Definition program_print (p : gcode_program) : result str :=
  print_blocks (blocks p).

(** ** The character lexer ([parser.cpp]) *)

(** [parse_stream<char>], by its unconsumed part. *)
Definition parse_state : Type := str.

Definition chars_left {T : Type} (s : list T) : bool :=
  match s with [] => false | _ :: _ => true end.

Definition next {T : Type} (s : list T) : result T :=
  match s with [] => Err OutOfBounds | x :: _ => OK x end.

Definition is_num_char (c : ascii) : bool :=
  isdigit c || Ascii.eqb c "." || Ascii.eqb c "-".

Fixpoint ignore_whitespace (s : parse_state) : parse_state :=
  match s with
  | c :: s' =>
      if isspace c || Ascii.eqb c "013" then ignore_whitespace s' else s
  | [] => []
  end.

(** [digit_string]: the text read and the stream left. *)
Fixpoint digit_string (s : parse_state) : str * parse_state :=
  match s with
  | c :: s' =>
      if is_num_char c then
        let '(num_str, rest) := digit_string s' in (c :: num_str, rest)
      else ([], s)
  | [] => ([], [])
  end.

(** [depth++] and [depth--] on an [int]. *)
Definition int_succ (z : Z) : result Z :=
  if (z <? INT_MAX)%Z then OK (z + 1)%Z else Err Undefined.

Definition int_pred (z : Z) : result Z :=
  if (INT_MIN <? z)%Z then OK (z - 1)%Z else Err Undefined.

(** The [do ... while (s.chars_left() && depth > 0)] loop of
    [parse_comment_with_delimiters(char, char, parse_state&)], entered
    with the depth and the text reached so far. *)
Fixpoint comment_loop (sc ec : ascii) (depth : Z) (text : str)
    (s : parse_state) : result (str * parse_state) :=
  match s with
  | [] => Err OutOfBounds
  | c :: s' =>
      depth' <-
        (if Ascii.eqb c sc then int_succ depth
         else if Ascii.eqb c ec then int_pred depth
         else OK depth) ;;
      let text' := text ++ [c] in
      if chars_left s' && (0 <? depth')%Z
      then comment_loop sc ec depth' text' s'
      else OK (text', s')
  end.

Definition parse_comment_with_delimiters (sc ec : ascii) (s : parse_state)
    : result (str * parse_state) :=
  comment_loop sc ec 0 [] s.

Definition lex_token (s : parse_state) : result (str * parse_state) :=
  match s with
  | [] => Err ContractViolation
  | c :: s' =>
      if is_num_char c then OK (digit_string s)
      else if Ascii.eqb c "(" then parse_comment_with_delimiters "(" ")" s
      else if Ascii.eqb c "[" then parse_comment_with_delimiters "[" "]" s
      else if Ascii.eqb c ")" then Err LexError
      else if Ascii.eqb c "]" then Err LexError
      else OK ([c], s')
  end.

(** The [while (s.chars_left())] loop of [lex_block].  Every turn that
    does not leave the loop consumes a character, so a fuel of the
    number of characters is never used up. *)
Fixpoint lex_block_loop (fuel : nat) (s : parse_state) (tokens : list str)
    : result (list str) :=
  match s with
  | [] => OK tokens
  | _ :: _ =>
      match fuel with
      | O => Err OutOfFuel
      | S fuel' =>
          let s1 := ignore_whitespace s in
          if chars_left s1 then
            '(token, s2) <- lex_token s1 ;;
            lex_block_loop fuel' s2 (tokens ++ [token])
          else lex_block_loop fuel' s1 tokens
      end
  end.

Definition lex_block (block_text : str) : result (list str) :=
  lex_block_loop (length block_text) (ignore_whitespace block_text) [].

(** ** The token parser ([parser.cpp]) *)

(** [parse_stream<string>], by its unconsumed part. *)
Definition token_stream : Type := list str.

Definition parse_double (s : token_stream) : result (double * token_stream) :=
  match s with
  | [] => Err OutOfBounds
  | t :: s' => v <- stod t ;; OK (v, s')
  end.

Definition parse_int (s : token_stream) : result (Z * token_stream) :=
  match s with
  | [] => Err OutOfBounds
  | t :: s' => i <- stoi t ;; OK (i, s')
  end.

Definition parse_address (c : ascii) (s : token_stream)
    : result (addr * token_stream) :=
  match c with
  | "X" | "Y" | "Z"
  | "A" | "B" | "C"
  | "U" | "V" | "W"
  | "I" | "J" | "K"
  | "F" | "R" | "Q"
  | "S"
  | "x" | "y" | "z"
  | "a" | "b" | "c"
  | "u" | "v" | "w"
  | "i" | "j" | "k"
  | "f" | "r" | "s"
  | "q"
  | "E" =>
      '(d, s') <- parse_double s ;; OK (make_double_address d, s')
  | "G" | "H" | "M"
  | "N" | "O" | "T"
  | "P" | "D" | "L"
  | "g" | "h" | "m"
  | "n" | "o" | "t"
  | "p" | "d" | "l" =>
      '(i, s') <- parse_int s ;; OK (make_int_address i, s')
  | _ => Err UnknownAddressLetter
  end%char.

(** [parse_line_comment_with_delimiter]: all remaining tokens, joined. *)
Fixpoint parse_line_comment_with_delimiter (sc : str) (s : token_stream)
    : str * token_stream :=
  match s with
  | [] => ([], [])
  | t :: s' =>
      let '(text, rest) := parse_line_comment_with_delimiter sc s' in
      (t ++ text, rest)
  end.

Definition parse_isolated_word (s : token_stream) : result (chunk * token_stream) :=
  match s with
  | [] => Err ContractViolation
  | t :: s' =>
      if (length t =? 1)%nat then OK (make_isolated_word (front t), s')
      else Err ContractViolation
  end.

Definition parse_word_address (s : token_stream) : result (chunk * token_stream) :=
  match s with
  | [] => Err ContractViolation
  | t :: s' =>
      if (length t =? 1)%nat then
        let c := front t in
        '(a, s'') <- parse_address c s' ;; OK (WordAddress c a, s'')
      else Err ContractViolation
  end.

(** [cs.substr(1, cs.size() - 2)]: the count is computed in [size_t]. *)
Definition strip_delimiters (cs : str) : result str :=
  substr cs 1 ((Z.of_nat (length cs) - 2) mod (SIZE_MAX + 1)).

Definition parse_chunk (s : token_stream) : result (chunk * token_stream) :=
  match s with
  | [] => Err ContractViolation
  | t :: s' =>
      if Ascii.eqb (front t) "[" then
        text <- strip_delimiters t ;; OK (Comment "[" "]" text, s')
      else if Ascii.eqb (front t) "(" then
        text <- strip_delimiters t ;; OK (Comment "(" ")" text, s')
      else if eqb_str t (chars "%") then
        OK (make_percent_chunk, s')
      else if eqb_str t (chars ";") then
        let '(cs, rest) := parse_line_comment_with_delimiter (chars ";") s' in
        OK (Comment ";" ";" cs, rest)
      else
        (* [string next_next = *(s.remaining() + 1);] *)
        next_next <- next s' ;;
        if negb (is_num_char (front next_next)) then parse_isolated_word s
        else parse_word_address s
  end.

Definition is_slash (s : str) : bool :=
  if negb (length s =? 1)%nat then false else Ascii.eqb (front s) "/".

Definition parse_slash (s : token_stream) : result (bool * token_stream) :=
  t <- next s ;;
  if is_slash t then OK (true, tl s) else OK (false, s).

Definition parse_line_number (s : token_stream)
    : result ((bool * Z) * token_stream) :=
  t <- next s ;;
  if eqb_str t (chars "N") then
    '(ln, s') <- parse_int (tl s) ;; OK ((true, ln), s')
  else OK ((false, (-1)%Z), s).

(** The [while (s.chars_left())] loop of [parse_tokens].  [parse_chunk]
    consumes a token whenever it returns, so a fuel of the number of
    tokens is never used up. *)
Fixpoint parse_chunks (fuel : nat) (s : token_stream) (chunks : list chunk)
    : result (list chunk) :=
  match s with
  | [] => OK chunks
  | _ :: _ =>
      match fuel with
      | O => Err OutOfFuel
      | S fuel' =>
          '(ch, s') <- parse_chunk s ;;
          parse_chunks fuel' s' (chunks ++ [ch])
      end
  end.

Definition parse_tokens (tokens : list str) : result block :=
  match tokens with
  | [] => OK (block_plain false [])
  | _ :: _ =>
      '(is_slashed, s1) <- parse_slash tokens ;;
      '(line_no, s2) <- parse_line_number s1 ;;
      chunks <- parse_chunks (length s2) s2 [] ;;
      if fst line_no then OK (block_numbered (snd line_no) is_slashed chunks)
      else OK (block_plain is_slashed chunks)
  end.

(** ** The program assembler ([parser.cpp]) *)

(** [find(line_start, str.end(), '\n')]: the text up to the first
    newline, or all of it. *)
Fixpoint line_at (s : str) : str :=
  match s with
  | [] => []
  | c :: s' => if Ascii.eqb c newline then [] else c :: line_at s'
  end.

(** The [while (line_start < str.end())] loop of [lex_gprog]; [s] is the
    text from [line_start] on.  Every turn moves [line_start] forward by
    at least one character. *)
Fixpoint lex_gprog_loop (fuel : nat) (s : str) (blocks : list block)
    : result (list block) :=
  match s with
  | [] => OK blocks
  | _ :: _ =>
      match fuel with
      | O => Err OutOfFuel
      | S fuel' =>
          let line := line_at s in
          let s' := skipn (length line + 1) s in
          if (0 <? length line)%nat then
            line_tokens <- lex_block line ;;
            b <- parse_tokens line_tokens ;;
            lex_gprog_loop fuel' s' (blocks ++ [b])
          else lex_gprog_loop fuel' s' blocks
      end
  end.

Definition lex_gprog (text : str) : result (list block) :=
  lex_gprog_loop (length text) text [].

Definition parse_gcode (program_text : str) : result gcode_program :=
  blocks <- lex_gprog program_text ;; OK (mk_program blocks).

(** ** Definitions used to state the properties *)

(** The [double] an integer converts to. *)
Definition double_of_Z (z : Z) : double := binary_normalize 53 1024 z 0 false.

(** The address classifier of [parse_address] as a table. *)
Definition double_letters : str := chars "XYZABCUVWIJKFRQSxyzabcuvwijkfrsqE".
Definition integer_letters : str := chars "GHMNOTPDLghmnotpdl".

Definition mem_char (c : ascii) (l : str) : bool := existsb (Ascii.eqb c) l.

Definition classify (c : ascii) : option address_type :=
  if mem_char c double_letters then Some ADDRESS_TYPE_DOUBLE
  else if mem_char c integer_letters then Some ADDRESS_TYPE_INTEGER
  else None.

(** The tokens that reach the last branch of [parse_chunk]. *)
Definition default_branch (t : str) : bool :=
  negb (Ascii.eqb (front t) "[") && negb (Ascii.eqb (front t) "(") &&
  negb (eqb_str t (chars "%")) && negb (eqb_str t (chars ";")).

(** Space, tab and carriage return. *)
Definition is_blank (c : ascii) : bool :=
  Ascii.eqb c " " || Ascii.eqb c "009" || Ascii.eqb c "013".

(** The nesting depth that a piece of text adds: the number of opening
    delimiters in it minus the number of closing ones. *)
Definition delta (sc ec c : ascii) : Z :=
  if Ascii.eqb c sc then 1 else if Ascii.eqb c ec then (-1) else 0.

Fixpoint nesting (sc ec : ascii) (p : str) : Z :=
  match p with
  | [] => 0
  | c :: p' => delta sc ec c + nesting sc ec p'
  end.

(** The program assembler as the specification words it: the text is
    split on the newline into raw lines, the lines of length 0 are
    dropped, and each line left is lexed and parsed, in order, the first
    failure ending the parse. *)
Fixpoint split_lines (s : str) : list str :=
  match s with
  | [] => [[]]
  | c :: s' =>
      if Ascii.eqb c newline then [] :: split_lines s'
      else
        match split_lines s' with
        | l :: ls => (c :: l) :: ls
        | [] => [[c]]
        end
  end.

Definition nonblank (line : str) : bool := (0 <? length line)%nat.
Definition blank (line : str) : bool := (length line =? 0)%nat.

Definition parse_line (line : str) : result block :=
  line_tokens <- lex_block line ;; parse_tokens line_tokens.

Fixpoint traverse {A B : Type} (f : A -> result B) (l : list A)
    : result (list B) :=
  match l with
  | [] => OK []
  | x :: l' => y <- f x ;; ys <- traverse f l' ;; OK (y :: ys)
  end.

(** The text "G1", an empty line, "X2" and a final newline. *)
Definition two_lines_two_blanks : str :=
  chars "G1" ++ [newline; newline] ++ chars "X2" ++ [newline].

(** Bit-for-bit equality of two [double]s. *)
Definition double_identical (x y : double) : bool :=
  match x, y with
  | S754_zero s, S754_zero s' => Bool.eqb s s'
  | S754_infinity s, S754_infinity s' => Bool.eqb s s'
  | S754_nan, S754_nan => true
  | S754_finite s m e, S754_finite s' m' e' =>
      Bool.eqb s s' && Pos.eqb m m' && Z.eqb e e'
  | _, _ => false
  end.

(** A [double] whose rendering is a numeric token of the lexer (digits,
    '.' and '-' only) that converts back to the same [double]. *)
Definition double_rereads (d : double) : bool :=
  forallb is_num_char (print_double d) &&
  match stod (print_double d) with
  | OK d' => double_identical d' d
  | Err _ => false
  end.

(** A comment text that, rendered between its delimiters and followed
    by the space that [block::print] writes, is read back by the lexer
    as that one token: the delimiters inside the text are balanced. *)
Definition comment_rereads (l r : ascii) (text : str) : bool :=
  match parse_comment_with_delimiters l r (l :: text ++ [r; " "%char]) with
  | OK (tok, rest) => eqb_str tok (l :: text ++ [r]) && eqb_str rest [" "%char]
  | Err _ => false
  end.

Definition chunk_rereads (c : chunk) : bool :=
  match c with
  | Comment l r text =>
      negb (Ascii.eqb l ";") && comment_rereads l r text
  | WordAddress _ a =>
      match tp a, val a with
      | ADDRESS_TYPE_DOUBLE, dbl_val d => double_rereads d
      | _, _ => true
      end
  | Percent => true
  | Word _ => true
  end.

(** A block that is not deleted, renders to a line of nonzero length
    and has only chunks that are read back. *)
Definition block_rereads (b : block) : bool :=
  negb (is_deleted b) &&
  (has_line_number b || chars_left (chunks b)) &&
  forallb chunk_rereads (chunks b).

(** The text has no ';'. *)
Definition no_line_comment (text : str) : bool :=
  forallb (fun c => negb (Ascii.eqb c ";")) text.

(** The value of a decimal numeral read from the left, after [acc]. *)
Fixpoint uint_value (u : Decimal.uint) (acc : Z) : Z :=
  match u with
  | Decimal.Nil => acc
  | Decimal.D0 u' => uint_value u' (10 * acc + 0)
  | Decimal.D1 u' => uint_value u' (10 * acc + 1)
  | Decimal.D2 u' => uint_value u' (10 * acc + 2)
  | Decimal.D3 u' => uint_value u' (10 * acc + 3)
  | Decimal.D4 u' => uint_value u' (10 * acc + 4)
  | Decimal.D5 u' => uint_value u' (10 * acc + 5)
  | Decimal.D6 u' => uint_value u' (10 * acc + 6)
  | Decimal.D7 u' => uint_value u' (10 * acc + 7)
  | Decimal.D8 u' => uint_value u' (10 * acc + 8)
  | Decimal.D9 u' => uint_value u' (10 * acc + 9)
  end.

(** The loops of [lex_block] and [parse_tokens] with the fuel their
    callers give them. *)
Definition lex_all (s : parse_state) (tokens : list str) : result (list str) :=
  lex_block_loop (length s) s tokens.

Definition parse_all (s : token_stream) (chunks : list chunk)
    : result (list chunk) :=
  parse_chunks (length s) s chunks.

Definition is_white (c : ascii) : bool := isspace c || Ascii.eqb c "013".

Definition no_newline (s : str) : bool :=
  forallb (fun c => negb (Ascii.eqb c newline)) s.

(** What [lex_token] promises of the token it returns: a run of
    numeric characters, a comment token, or one character that is
    neither white space nor a closing delimiter. *)
Definition lexed_token (t : str) : bool :=
  match t with
  | [] => false
  | c :: t' =>
      if is_num_char c then forallb is_num_char t'
      else if Ascii.eqb c "(" || Ascii.eqb c "[" then true
      else negb (Ascii.eqb c ")") && negb (Ascii.eqb c "]") &&
           negb (is_white c) && negb (chars_left t')
  end.

(** The first character of the rendering of a chunk. *)
Definition head_char (c : chunk) : ascii :=
  match c with
  | Comment l _ _ => l
  | WordAddress w _ => w
  | Percent => "%"
  | Word w => w
  end.

(** What the parser promises of the chunks it returns. *)
Definition word_char (c : ascii) : bool :=
  negb (is_white c) && negb (mem_char c (chars "([)]%;")).

Definition wf_addr (w : ascii) (a : addr) : bool :=
  match classify w, a with
  | Some ADDRESS_TYPE_INTEGER, mk_addr ADDRESS_TYPE_INTEGER (int_val i) =>
      in_int_range i
  | Some ADDRESS_TYPE_DOUBLE, mk_addr ADDRESS_TYPE_DOUBLE (dbl_val _) => true
  | _, _ => false
  end.

Definition wf_chunk (c : chunk) : bool :=
  match c with
  | Comment l r text =>
      no_newline text &&
      ((Ascii.eqb l "(" && Ascii.eqb r ")" &&
        (Z.of_nat (length text) <=? SIZE_MAX)%Z) ||
       (Ascii.eqb l "[" && Ascii.eqb r "]" &&
        (Z.of_nat (length text) <=? SIZE_MAX)%Z) ||
       (Ascii.eqb l ";" && Ascii.eqb r ";"))
  | WordAddress w a => wf_addr w a
  | Percent => true
  | Word c => word_char c
  end.

(** An isolated word is followed by a chunk that does not start with a
    numeric character. *)
Definition follows_word (cs : list chunk) : bool :=
  match cs with
  | [] => false
  | c :: _ => negb (is_num_char (head_char c))
  end.

Fixpoint wf_chunks (cs : list chunk) : bool :=
  match cs with
  | [] => true
  | c :: cs' =>
      wf_chunk c &&
      match c with Word _ => follows_word cs' | _ => true end &&
      wf_chunks cs'
  end.

Definition plain_head (cs : list chunk) : bool :=
  match cs with
  | [] => true
  | c :: _ =>
      negb (Ascii.eqb (head_char c) "/") && negb (Ascii.eqb (head_char c) "N")
  end.

Definition wf_block (b : block) : bool :=
  eqb_str (debug_text b) [] &&
  (if has_line_no b then in_int_range (line_no b)
   else (line_no b =? -1)%Z) &&
  wf_chunks (chunks b) &&
  (slashed_out b || has_line_no b || plain_head (chunks b)).

(** The rendering of a well-formed chunk, and the tokens it is made of. *)
Definition addr_text (a : addr) : str :=
  match val a with
  | int_val i => print_int i
  | dbl_val d => print_double d
  end.

Definition chunk_text (c : chunk) : str :=
  match c with
  | Comment l r text => l :: text ++ [r]
  | WordAddress w a => w :: addr_text a
  | Percent => chars "%"
  | Word w => [w]
  end.

Definition chunk_tokens (c : chunk) : list str :=
  match c with
  | WordAddress w a => [[w]; addr_text a]
  | _ => [chunk_text c]
  end.

Fixpoint chunks_text (cs : list chunk) : str :=
  match cs with
  | [] => []
  | c :: cs' => chunk_text c ++ " "%char :: chunks_text cs'
  end.

Definition block_text (b : block) : str :=
  (if has_line_no b then "N"%char :: print_int (line_no b) ++ [" "%char]
   else []) ++ chunks_text (chunks b).

Definition block_tokens (b : block) : list str :=
  (if has_line_no b then [chars "N"; print_int (line_no b)] else []) ++
  flat_map chunk_tokens (chunks b).

(** All 256 characters, to settle facts about single characters by
    evaluation. *)
Definition all_chars : list ascii := map ascii_of_nat (seq 0 256).

(** A token as the lexer returns it from a line. *)
Definition good_token (t : str) : bool := lexed_token t && no_newline t.

(** The rendering of a list of well-formed blocks. *)
Fixpoint program_text (bs : list block) : str :=
  match bs with
  | [] => []
  | b :: bs' => block_text b ++ newline :: program_text bs'
  end.

(** The text "N10 G1 X1.5 (a (b) c)", a newline, "% M2 [x]". *)
Definition sample_text : str :=
  chars "N10 G1 X1.5 (a (b) c)" ++ newline :: chars "% M2 [x]".

(** The program that [sample_text] parses to. *)
Definition sample_program : gcode_program :=
  Eval vm_compute in
    match parse_gcode sample_text with
    | OK p => p
    | Err _ => mk_program []
    end.

(** ** The remaining operations of the data model and the parser *)

(** [operator==] and [operator!=] on chunks ([gcode_program.cpp]). *)
Definition chunk_eq (l r : chunk) : result bool := chunk_equals l r.

Definition chunk_ne (l r : chunk) : result bool :=
  e <- chunk_eq l r ;; OK (negb e).

(** [block(const block& other)]: the line-number fields, the deletion
    flag and the chunks are copied; [debug_text] is not, and starts
    empty. *)
Definition block_copy (other : block) : block :=
  mk_block (has_line_no other) (line_no other) (slashed_out other)
    (chunks other) [].

(** [gcode_program(p_blocks)]: the vector of blocks is copied, block by
    block. *)
Definition make_program (p_blocks : list block) : gcode_program :=
  mk_program (map block_copy p_blocks).

(** [parse_gcode_saving_block_text]: the blocks are parsed, each block
    is given its rendering as debug text, and the program is built from
    the vector. *)
Definition parse_gcode_saving_block_text (program_text : str)
    : result gcode_program :=
  blocks <- lex_gprog program_text ;;
  blocks' <- traverse set_debug_text blocks ;;
  OK (make_program blocks').

(** A line seen as its tokens: white space, a token that is not empty
    and does not start with white space, white space, a token, and so
    on to the end of the line. *)
Inductive tokens_of : str -> list str -> Prop :=
| tokens_end (ws : str) :
    forallb is_white ws = true -> tokens_of ws []
| tokens_cons (ws t rest : str) (toks : list str) :
    forallb is_white ws = true ->
    t <> [] ->
    is_white (front t) = false ->
    tokens_of rest toks ->
    tokens_of (ws ++ t ++ rest) (t :: toks).

(** The closing delimiters, which [lex_token] refuses at the start of a
    token. *)
Definition is_closer (c : ascii) : bool :=
  Ascii.eqb c ")" || Ascii.eqb c "]".

(** A comment token whose last character closes it: over the whole
    token the depth returns to 0.  Other tokens count as closed. *)
Definition closed_token (t : str) : bool :=
  if Ascii.eqb (front t) "(" then (nesting "(" ")" t <=? 0)%Z
  else if Ascii.eqb (front t) "[" then (nesting "[" "]" t <=? 0)%Z
  else true.

(** A chunk as the parser builds it: a comment has one of the three
    delimiter pairs; a word address has the type of its letter, within
    the range of an [int] or finite. *)
Definition typed_chunk (c : chunk) : bool :=
  match c with
  | Comment l r _ =>
      (Ascii.eqb l "(" && Ascii.eqb r ")") ||
      (Ascii.eqb l "[" && Ascii.eqb r "]") ||
      (Ascii.eqb l ";" && Ascii.eqb r ";")
  | WordAddress w a =>
      match classify w, a with
      | Some ADDRESS_TYPE_INTEGER, mk_addr ADDRESS_TYPE_INTEGER (int_val i) =>
          in_int_range i
      | Some ADDRESS_TYPE_DOUBLE, mk_addr ADDRESS_TYPE_DOUBLE (dbl_val d) =>
          is_finite d
      | _, _ => false
      end
  | Percent => true
  | Word _ => true
  end.


(** The failures that the token parser can end in: an address letter
    outside the switch of [parse_address], a number that [stoi] or
    [stod] refuses, an assertion of [parse_isolated_word] or
    [parse_word_address], a read past the last token. *)
Definition parse_failure (e : error) : bool :=
  match e with
  | UnknownAddressLetter | NumericFormat | ContractViolation | OutOfBounds => true
  | _ => false
  end.

(** An address as [make_int_address] and [make_double_address] build
    it: the tag names the member of the union that was written.  The
    parser builds addresses through these two functions only. *)
Definition tagged (a : addr) : bool :=
  match a with
  | mk_addr ADDRESS_TYPE_INTEGER (int_val _) => true
  | mk_addr ADDRESS_TYPE_DOUBLE (dbl_val _) => true
  | _ => false
  end.

Definition built_chunk (c : chunk) : bool :=
  match c with
  | WordAddress _ a => tagged a
  | _ => true
  end.

(** A word address whose value is a NaN. *)
Definition nan_chunk (c : chunk) : bool :=
  match c with
  | WordAddress _ (mk_addr _ (dbl_val S754_nan)) => true
  | _ => false
  end.

(** Two word addresses of one letter whose values are zeros, of either
    sign. *)
Definition zero_chunks (a b : chunk) : bool :=
  match a, b with
  | WordAddress w1 (mk_addr _ (dbl_val (S754_zero _))),
    WordAddress w2 (mk_addr _ (dbl_val (S754_zero _))) => Ascii.eqb w1 w2
  | _, _ => false
  end.

(** * Properties *)

(** ** Basic facts *)

Lemma eqb_str_eq (a b : str) : eqb_str a b = true <-> a = b.
Proof.
  revert b; induction a as [|x a IH]; intros [|y b]; simpl; split;
    try congruence; try reflexivity.
  - intros H. apply andb_true_iff in H as [Hx Hab].
    apply Ascii.eqb_eq in Hx. apply IH in Hab. congruence.
  - intros H. injection H as -> ->.
    rewrite Ascii.eqb_refl. simpl. now apply IH.
Qed.

Lemma eqb_str_refl (a : str) : eqb_str a a = true.
Proof. now apply eqb_str_eq. Qed.

Lemma parse_address_classify (c : ascii) (s : token_stream) :
  parse_address c s =
  match classify c with
  | Some ADDRESS_TYPE_DOUBLE =>
      '(d, s') <- parse_double s ;; OK (make_double_address d, s')
  | Some ADDRESS_TYPE_INTEGER =>
      '(i, s') <- parse_int s ;; OK (make_int_address i, s')
  | None => Err UnknownAddressLetter
  end.
Proof.
  destruct c as [[] [] [] [] [] [] [] []]; reflexivity.
Qed.

Lemma lex_block_loop_nil (fuel : nat) (tokens : list str) :
  lex_block_loop fuel [] tokens = OK tokens.
Proof. destruct fuel; reflexivity. Qed.

Lemma parse_chunks_nil (fuel : nat) (cs : list chunk) :
  parse_chunks fuel [] cs = OK cs.
Proof. destruct fuel; reflexivity. Qed.

Lemma lex_gprog_loop_nil (fuel : nat) (bs : list block) :
  lex_gprog_loop fuel [] bs = OK bs.
Proof. destruct fuel; reflexivity. Qed.

(** ** The address classifier *)

(** C2, at the input where the code departs from it: the lowercase
    letter 'e' followed by a numeric token is rejected as an unknown
    address letter, while its uppercase form 'E' is a double-valued
    address. *)
Theorem parse_address_lowercase_e :
  parse_address "e" [chars "1"] = Err UnknownAddressLetter /\
  lex_gprog (chars "e1") = Err UnknownAddressLetter /\
  lex_gprog (chars "E1") =
    OK [block_plain false [make_word_double "E" (double_of_Z 1)]].
Proof. repeat split; vm_compute; reflexivity. Qed.

(** Every other letter of the two sets is classified as the table of
    the specification says, in both cases, and the letters are all
    classified. *)
Lemma classify_letters :
  (forall c, In c (chars "XYZABCUVWIJKFRQSE") ->
     classify c = Some ADDRESS_TYPE_DOUBLE) /\
  (forall c, In c (chars "xyzabcuvwijkfrqs") ->
     classify c = Some ADDRESS_TYPE_DOUBLE) /\
  (forall c, In c (chars "GHMNOTPDLghmnotpdl") ->
     classify c = Some ADDRESS_TYPE_INTEGER) /\
  classify "e" = None.
Proof.
  repeat split; intros c H; simpl in H;
    repeat (destruct H as [<- | H]; [reflexivity|]); contradiction.
Qed.

(** C3, refuted: the line "K9" does not fail; it parses to one block
    with the word address ('K', 9.0). *)
Lemma K9_is_a_word_address :
  lex_gprog (chars "K9") <> Err UnknownAddressLetter /\
  exists b, lex_gprog (chars "K9") = OK [b] /\
            chunks b = [WordAddress "K" (make_double_address (double_of_Z 9))].
Proof.
  split.
  - vm_compute. discriminate.
  - eexists. split; vm_compute; reflexivity.
Qed.

(** C3, amended: the line "K9" parses to one block holding the word
    address ('K', double 9.0), K being a double-valued letter; the
    failure [UnknownAddressLetter] is what a word whose character is
    outside the classified set gives, as in "#9". *)
Theorem unknown_address_letter_scenario :
  lex_gprog (chars "K9") =
    OK [block_plain false [make_word_double "K" (double_of_Z 9)]] /\
  classify "K" = Some ADDRESS_TYPE_DOUBLE /\
  classify "#" = None /\
  lex_gprog (chars "#9") = Err UnknownAddressLetter.
Proof. repeat split; vm_compute; reflexivity. Qed.

(** ** Scenarios *)

(** C6: the line "/N5 G1 X1" parses to one block that is deleted, has
    the line number 5 and holds the two word addresses ('G', integer 1)
    and ('X', double 1.0). *)
Theorem parse_slash_line_number_scenario :
  exists b,
    parse_gcode (chars "/N5 G1 X1") = OK (mk_program [b]) /\
    is_deleted b = true /\
    has_line_number b = true /\
    line_number b = OK 5%Z /\
    chunks b = [make_word_int "G" 1; make_word_double "X" (double_of_Z 1)] /\
    (forall a, get_address (make_word_int "G" 1) = OK a ->
               tp a = ADDRESS_TYPE_INTEGER /\ int_value a = OK 1%Z) /\
    (forall a, get_address (make_word_double "X" (double_of_Z 1)) = OK a ->
               tp a = ADDRESS_TYPE_DOUBLE /\
               double_value a = OK (S754_finite false 4503599627370496 (-52))).
Proof.
  eexists. split; [vm_compute; reflexivity|].
  repeat split; try reflexivity;
    injection H as <-; reflexivity.
Qed.

(** ** The address *)

(** C8: the tag of an address is the one given at construction, the
    accessor of that tag returns the value given at construction, the
    accessor of the other tag fails its assertion, and an accessor
    called on an address of its own tag never fails its assertion. *)
Theorem addr_accessor_contract (i : Z) (d : double) (a : addr) :
  (forall t v, tp (mk_addr t v) = t) /\
  tp (make_int_address i) = ADDRESS_TYPE_INTEGER /\
  int_value (make_int_address i) = OK i /\
  double_value (make_int_address i) = Err ContractViolation /\
  tp (make_double_address d) = ADDRESS_TYPE_DOUBLE /\
  double_value (make_double_address d) = OK d /\
  int_value (make_double_address d) = Err ContractViolation /\
  (tp a = ADDRESS_TYPE_INTEGER ->
     int_value a <> Err ContractViolation /\
     double_value a = Err ContractViolation) /\
  (tp a = ADDRESS_TYPE_DOUBLE ->
     double_value a <> Err ContractViolation /\
     int_value a = Err ContractViolation).
Proof.
  repeat split; try reflexivity;
    destruct a as [t [x|x]]; unfold int_value, double_value, tp in *;
    simpl in *; subst; simpl; congruence.
Qed.

Lemma addr_accessor_contract_witness :
  int_value (make_int_address 7) <> Err ContractViolation /\
  double_value (make_double_address (double_of_Z 2)) <> Err ContractViolation.
Proof.
  split.
  - apply (addr_accessor_contract 7 (double_of_Z 2) (make_int_address 7)).
    reflexivity.
  - apply (addr_accessor_contract 7 (double_of_Z 2)
             (make_double_address (double_of_Z 2))).
    reflexivity.
Defined.

(** ** Rendering *)

(** C10: the rendering of a block does not depend on its deletion flag:
    two blocks with the same line-number fields and the same chunks
    render to the same text, so the '/' of a deleted block is never
    written. *)
Theorem block_print_ignores_deletion (b1 b2 : block) :
  has_line_no b1 = has_line_no b2 ->
  line_no b1 = line_no b2 ->
  chunks b1 = chunks b2 ->
  block_print b1 = block_print b2.
Proof.
  intros Hh Hn Hc. unfold block_print, line_number, has_line_number.
  now rewrite Hh, Hn, Hc.
Qed.

Lemma block_print_ignores_deletion_witness :
  block_print (block_numbered 5 true [make_word_int "G" 1]) =
  block_print (block_numbered 5 false [make_word_int "G" 1]) /\
  block_print (block_numbered 5 true [make_word_int "G" 1]) = OK (chars "N5 G1 ").
Proof.
  split.
  - apply block_print_ignores_deletion; reflexivity.
  - reflexivity.
Defined.

(** ** The lookahead of [parse_chunk] *)

Lemma stod_error (t : str) : stod t = Err NumericFormat \/ exists d, stod t = OK d.
Proof.
  unfold stod.
  destruct (read_sign (skip_space t)) as [neg s1].
  destruct (read_digits s1 0 0) as [[ip n1] s2].
  destruct (match s2 with
            | [] => (ip, 0%nat)
            | c :: s3 =>
                if Ascii.eqb c "." then
                  let '(v, n, _) := read_digits s3 ip 0 in (v, n)
                else (ip, 0%nat)
            end) as [m n2].
  destruct (n1 + n2)%nat; [now left|].
  destruct m; [right; eauto| |right; eauto].
  destruct (is_finite _); [right; eauto|now left].
Qed.

Lemma stoi_error (t : str) : stoi t = Err NumericFormat \/ exists i, stoi t = OK i.
Proof.
  unfold stoi.
  destruct (read_sign (skip_space t)) as [neg s1].
  destruct (read_digits s1 0 0) as [[v n] s2].
  destruct n; [now left|].
  destruct (in_int_range _); [right; eauto|now left].
Qed.

Lemma parse_address_in_bounds (c : ascii) (t : str) (s : token_stream) :
  parse_address c (t :: s) <> Err OutOfBounds.
Proof.
  rewrite parse_address_classify.
  destruct (classify c) as [[]|]; simpl; try discriminate.
  - destruct (stoi_error t) as [-> | [i ->]]; simpl; discriminate.
  - destruct (stod_error t) as [-> | [d ->]]; simpl; discriminate.
Qed.

(** C7: when [parse_chunk] reaches its last branch (the current token
    is not a comment token, not "%" and not ";"), the read of the token
    after the current one is past the end of the stream exactly when
    the current token is the last one; a trailing token of this kind is
    therefore a failure of the parse and never a parsed chunk. *)
Theorem lookahead_needs_two_tokens (t : str) (rest : token_stream) :
  default_branch t = true ->
  (parse_chunk (t :: rest) = Err OutOfBounds <-> rest = []) /\
  is_ok (parse_chunk [t]) = false.
Proof.
  unfold default_branch. intros H.
  apply andb_true_iff in H as [H H4]. apply andb_true_iff in H as [H H3].
  apply andb_true_iff in H as [H1 H2].
  apply negb_true_iff in H1, H2, H3, H4.
  unfold parse_chunk. rewrite H1, H2, H3, H4.
  split; [|reflexivity].
  split.
  - destruct rest as [|nn r]; [reflexivity|]. simpl.
    destruct (negb (is_num_char (front nn))).
    + destruct (length t =? 1)%nat; discriminate.
    + destruct (length t =? 1)%nat; [|discriminate].
      intros E. exfalso.
      pose proof (parse_address_in_bounds (front t) nn r) as Hb.
      destruct (parse_address (front t) (nn :: r)) as [[a s'']|e];
        simpl in E; congruence.
  - intros ->. reflexivity.
Qed.

Lemma lookahead_needs_two_tokens_witness :
  (parse_chunk [chars "G"] = Err OutOfBounds <-> @nil str = []) /\
  is_ok (parse_chunk [chars "G"]) = false.
Proof. apply (lookahead_needs_two_tokens (chars "G") []). reflexivity. Defined.

(** ** Lines of white space *)

Lemma ignore_whitespace_blank (l : str) :
  forallb is_blank l = true -> ignore_whitespace l = [].
Proof.
  induction l as [|c l IH]; simpl; [reflexivity|].
  intros H. apply andb_true_iff in H as [Hc Hl].
  assert (E : isspace c || Ascii.eqb c "013" = true).
  { unfold is_blank in Hc.
    apply orb_true_iff in Hc as [Hc|Hc]; [apply orb_true_iff in Hc as [Hc|Hc]|];
      apply Ascii.eqb_eq in Hc; subst c; reflexivity. }
  rewrite E. auto.
Qed.

Lemma line_at_blank (l : str) : forallb is_blank l = true -> line_at l = l.
Proof.
  induction l as [|c l IH]; simpl; [reflexivity|].
  intros H. apply andb_true_iff in H as [Hc Hl].
  assert (E : Ascii.eqb c newline = false).
  { unfold is_blank in Hc.
    apply orb_true_iff in Hc as [Hc|Hc]; [apply orb_true_iff in Hc as [Hc|Hc]|];
      apply Ascii.eqb_eq in Hc; subst c; reflexivity. }
  rewrite E. f_equal. auto.
Qed.

(** C9: a line of nonzero length made only of spaces, tabs and carriage
    returns is not skipped: it lexes to no token and yields a block with
    no chunk, not deleted and without a line number. *)
Theorem whitespace_line_yields_empty_block (line : str) :
  line <> [] ->
  forallb is_blank line = true ->
  lex_block line = OK [] /\
  lex_gprog line = OK [block_plain false []] /\
  chunks (block_plain false []) = [] /\
  is_deleted (block_plain false []) = false /\
  has_line_number (block_plain false []) = false.
Proof.
  intros Hne Hb. split; [|split; [|repeat split]].
  - unfold lex_block.
    now rewrite ignore_whitespace_blank, lex_block_loop_nil.
  - unfold lex_gprog. destruct line as [|c l]; [contradiction|].
    cbn [length lex_gprog_loop].
    rewrite (line_at_blank _ Hb).
    replace (0 <? length (c :: l))%nat with true by reflexivity.
    unfold lex_block.
    rewrite (ignore_whitespace_blank _ Hb), lex_block_loop_nil.
    cbn [bind parse_tokens].
    rewrite skipn_all2 by (cbn [length]; lia).
    now rewrite lex_gprog_loop_nil.
Qed.

Lemma whitespace_line_yields_empty_block_witness :
  lex_gprog (chars "  ") = OK [block_plain false []].
Proof.
  apply (whitespace_line_yields_empty_block (chars "  ")).
  - discriminate.
  - reflexivity.
Defined.

(** ** Blank lines *)

Lemma split_lines_line_at (s : str) :
  exists ls,
    split_lines s = line_at s :: ls /\
    filter nonblank ls =
    filter nonblank (split_lines (skipn (length (line_at s) + 1) s)).
Proof.
  induction s as [|c s IH]; simpl.
  - exists []. split; reflexivity.
  - destruct (Ascii.eqb c newline).
    + exists (split_lines s). split; reflexivity.
    + destruct IH as (ls & E & F). rewrite E.
      exists ls. split; [reflexivity|exact F].
Qed.

Lemma lex_gprog_loop_lines (fuel : nat) :
  forall (s : str) (acc : list block),
    length s <= fuel ->
    lex_gprog_loop fuel s acc =
    (bs <- traverse parse_line (filter nonblank (split_lines s)) ;;
     OK (acc ++ bs)).
Proof.
  induction fuel as [|fuel IH]; intros s acc Hlen.
  - destruct s; [|simpl in Hlen; lia].
    simpl. now rewrite app_nil_r.
  - destruct s as [|c s0].
    + simpl. now rewrite app_nil_r.
    + remember (c :: s0) as s eqn:Es.
      assert (Hstep : lex_gprog_loop (S fuel) s acc =
                let line := line_at s in
                let s' := skipn (length line + 1) s in
                if (0 <? length line)%nat then
                  line_tokens <- lex_block line ;;
                  b <- parse_tokens line_tokens ;;
                  lex_gprog_loop fuel s' (acc ++ [b])
                else lex_gprog_loop fuel s' acc)
        by (rewrite Es; reflexivity).
      rewrite Hstep. clear Hstep. cbv zeta.
      destruct (split_lines_line_at s) as (ls & E & F).
      rewrite E. cbn [filter]. rewrite F. unfold nonblank at 1.
      assert (Hs' : length (skipn (length (line_at s) + 1) s) <= fuel).
      { rewrite length_skipn. subst s. cbn [length] in *. lia. }
      destruct (0 <? length (line_at s))%nat.
      * cbn [traverse].
        replace (parse_line (line_at s))
          with (line_tokens <- lex_block (line_at s) ;; parse_tokens line_tokens)
          by reflexivity.
        destruct (lex_block (line_at s)) as [toks|e]; [|reflexivity].
        cbn [bind].
        destruct (parse_tokens toks) as [b|e]; [|reflexivity].
        cbn [bind]. rewrite IH by exact Hs'.
        destruct (traverse parse_line _) as [bs|e]; [|reflexivity].
        cbn [bind]. now rewrite <- app_assoc.
      * now apply IH.
Qed.

Lemma traverse_Forall2 {A B : Type} (f : A -> result B) (l : list A) :
  forall ys, traverse f l = OK ys -> Forall2 (fun x y => f x = OK y) l ys.
Proof.
  induction l as [|x l IH]; simpl; intros ys H.
  - injection H as <-. constructor.
  - destruct (f x) as [y|e] eqn:Ex; [|discriminate]. simpl in H.
    destruct (traverse f l) as [ys'|e]; [|discriminate]. simpl in H.
    injection H as <-. constructor; auto.
Qed.

(** C5: the blocks of a program are those of its lines of nonzero
    length, in line order: [lex_gprog] is the line-by-line parse of the
    text with the lines of length 0 removed, so a text with [N] lines of
    nonzero length and [M] lines of length 0 that parses yields exactly
    [N] blocks, the i-th being the parse of the i-th such line. *)
Theorem blank_lines_produce_no_block (text : str) :
  lex_gprog text = traverse parse_line (filter nonblank (split_lines text)) /\
  forall (N M : nat) (bs : list block),
    N = length (filter nonblank (split_lines text)) ->
    M = length (filter blank (split_lines text)) ->
    lex_gprog text = OK bs ->
    length (split_lines text) = N + M /\
    length bs = N /\
    Forall2 (fun line b => parse_line line = OK b)
      (filter nonblank (split_lines text)) bs.
Proof.
  assert (E : lex_gprog text =
              traverse parse_line (filter nonblank (split_lines text))).
  { unfold lex_gprog. rewrite lex_gprog_loop_lines by lia.
    destruct (traverse parse_line _); reflexivity. }
  split; [exact E|].
  intros N M bs HN HM Hbs. rewrite E in Hbs.
  apply traverse_Forall2 in Hbs.
  split; [|split; [|exact Hbs]].
  - subst N M.
    clear. induction (split_lines text) as [|l ls IH]; [reflexivity|].
    cbn [filter].
    assert (Hl : (nonblank l = true /\ blank l = false) \/
                 (nonblank l = false /\ blank l = true))
      by (destruct l; [right|left]; split; reflexivity).
    destruct Hl as [[-> ->]|[-> ->]]; cbn [length]; lia.
  - subst N. symmetry. eapply Forall2_length; eauto.
Qed.

Lemma blank_lines_produce_no_block_witness :
  length (split_lines two_lines_two_blanks) = 2 + 2 /\
  exists bs, lex_gprog two_lines_two_blanks = OK bs /\ length bs = 2.
Proof.
  destruct (blank_lines_produce_no_block two_lines_two_blanks) as [_ H].
  specialize (H 2 2 _ eq_refl eq_refl eq_refl).
  split; [apply H|].
  eexists. split; [reflexivity|apply H].
Defined.

(** ** Nested comments *)

Lemma nesting_app (sc ec : ascii) (p q : str) :
  nesting sc ec (p ++ q) = (nesting sc ec p + nesting sc ec q)%Z.
Proof. induction p as [|c p IH]; simpl; [reflexivity|]. rewrite IH. lia. Qed.

Lemma delta_bounds (sc ec c : ascii) : (-1 <= delta sc ec c <= 1)%Z.
Proof.
  unfold delta. destruct (Ascii.eqb c sc); [lia|].
  destruct (Ascii.eqb c ec); lia.
Qed.

(** What the depth-tracking loop returns when it is entered with the
    depth [depth] on a stream that has a character left. *)
Lemma comment_loop_spec (sc ec : ascii) (s : parse_state) :
  forall (depth : Z) (text : str),
    s <> [] ->
    (0 <= depth)%Z ->
    (depth + Z.of_nat (length s) <= INT_MAX)%Z ->
    exists tok rest,
      comment_loop sc ec depth text s = OK (text ++ tok, rest) /\
      s = tok ++ rest /\
      tok <> [] /\
      (forall p q, tok = p ++ q -> p <> [] -> q <> [] ->
                   (0 < depth + nesting sc ec p)%Z) /\
      (rest = [] \/ (depth + nesting sc ec tok <= 0)%Z).
Proof.
  induction s as [|c s IH]; intros depth text Hne Hd Hlen; [contradiction|].
  cbn [length] in Hlen.
  assert (Hstep :
    (if Ascii.eqb c sc then int_succ depth
     else if Ascii.eqb c ec then int_pred depth else OK depth)
    = OK (depth + delta sc ec c)%Z).
  { unfold delta, int_succ, int_pred.
    destruct (Ascii.eqb c sc).
    - replace (depth <? INT_MAX)%Z with true; [reflexivity|].
      symmetry. apply Z.ltb_lt. lia.
    - destruct (Ascii.eqb c ec).
      + replace (INT_MIN <? depth)%Z with true; [reflexivity|].
        symmetry. apply Z.ltb_lt. unfold INT_MIN. lia.
      + f_equal. lia. }
  cbn [comment_loop]. rewrite Hstep. cbn [bind].
  pose proof (delta_bounds sc ec c) as Hc.
  destruct (chars_left s && (0 <? depth + delta sc ec c)%Z) eqn:Hgo.
  - apply andb_true_iff in Hgo as [Hs Hpos]. apply Z.ltb_lt in Hpos.
    assert (Hs' : s <> []) by (destruct s; [discriminate|discriminate]).
    destruct (IH (depth + delta sc ec c)%Z (text ++ [c]) Hs')
      as (tok & rest & Hrun & Hsplit & Htok & Hpre & Hend); [lia|lia|].
    exists (c :: tok), rest. rewrite Hrun, <- app_assoc.
    split; [reflexivity|]. split; [simpl; congruence|].
    split; [discriminate|]. split.
    + intros p q Hpq Hp Hq. destruct p as [|c' p]; [contradiction|].
      injection Hpq as <- Hpq. cbn [nesting].
      destruct p as [|c'' p].
      * simpl. lia.
      * specialize (Hpre (c'' :: p) q Hpq). 
        assert (0 < depth + delta sc ec c + nesting sc ec (c'' :: p))%Z
          by (apply Hpre; [discriminate|exact Hq]).
        lia.
    + destruct Hend as [->|Hend]; [now left|right]. cbn [nesting]. lia.
  - exists [c], s. split; [reflexivity|]. split; [reflexivity|].
    split; [discriminate|]. split.
    + intros p q Hpq Hp Hq. destruct p as [|c' p]; [contradiction|].
      destruct p; [|discriminate]. destruct q; [contradiction|discriminate].
    + apply andb_false_iff in Hgo as [Hs|Hpos].
      * left. destruct s; [reflexivity|discriminate].
      * right. apply Z.ltb_ge in Hpos. cbn [nesting]. lia.
Qed.

Lemma strip_delimiters_spec (cs : str) :
  cs <> [] ->
  (Z.of_nat (length cs) <= SIZE_MAX)%Z ->
  strip_delimiters cs = OK (removelast (tl cs)).
Proof.
  intros Hne Hlen. unfold strip_delimiters, substr.
  destruct cs as [|c cs]; [contradiction|].
  cbn [length tl] in *.
  replace (Z.of_nat (S (length cs)) <? 1)%Z with false
    by (symmetry; apply Z.ltb_ge; lia).
  change (skipn (Z.to_nat 1) (c :: cs)) with cs.
  f_equal. rewrite removelast_firstn_len. f_equal.
  unfold SIZE_MAX in *.
  destruct cs as [|c' cs].
  - reflexivity.
  - cbn [length] in *.
    rewrite Z.mod_small by lia. lia.
Qed.

(** C4: on a stream that starts with '(', the lexer returns one token
    that starts the stream and keeps both outer delimiters: the depth,
    which an opening parenthesis raises and a closing one lowers, is
    positive after every proper part of the token and the token ends
    where it returns to 0, or at the end of the stream when it never
    does.  Parsing a token that starts with '(' gives the comment chunk
    with the delimiters '(' and ')' whose text is the token without its
    first and its last character.  So "(outer (inner) end)" is one token
    and one comment chunk with the text "outer (inner) end". *)
Theorem nested_paren_comment :
  (forall s : parse_state,
     (Z.of_nat (length s) < INT_MAX)%Z ->
     exists tok rest,
       lex_token ("("%char :: s) = OK (tok, rest) /\
       "("%char :: s = tok ++ rest /\
       front tok = "("%char /\
       (forall p q, tok = p ++ q -> p <> [] -> q <> [] ->
                    (0 < nesting "(" ")" p)%Z) /\
       (rest = [] \/ nesting "(" ")" tok = 0%Z)) /\
  (forall (tok : str) (rest : token_stream),
     front tok = "("%char ->
     (Z.of_nat (length tok) <= SIZE_MAX)%Z ->
     parse_chunk (tok :: rest) =
       OK (Comment "(" ")" (removelast (tl tok)), rest)) /\
  lex_block (chars "(outer (inner) end)") = OK [chars "(outer (inner) end)"] /\
  parse_tokens [chars "(outer (inner) end)"] =
    OK (block_plain false [Comment "(" ")" (chars "outer (inner) end")]).
Proof.
  split; [|split; [|split; reflexivity]].
  - intros s Hlen.
    destruct (comment_loop_spec "(" ")" ("("%char :: s) 0 [])
      as (tok & rest & Hrun & Hsplit & Htok & Hpre & Hend);
      [discriminate|lia|cbn [length]; lia|].
    exists tok, rest. split; [exact Hrun|]. split; [exact Hsplit|].
    split.
    { destruct tok as [|c tok]; [contradiction|].
      injection Hsplit as <- _. reflexivity. }
    split; [intros p q Hpq Hp Hq; now apply (Hpre p q)|].
    destruct Hend as [->|Hend]; [now left|right].
    destruct (exists_last Htok) as (p & c & ->).
    rewrite nesting_app in *. cbn [nesting] in *.
    pose proof (delta_bounds "(" ")" c) as Hc.
    destruct p as [|c' p].
    + simpl in Hsplit. injection Hsplit as <- _.
      change (delta "(" ")" "(") with 1%Z in Hend. cbn [nesting] in Hend. lia.
    + assert (0 < nesting "(" ")" (c' :: p))%Z
        by (apply (Hpre (c' :: p) [c]); [reflexivity|discriminate|discriminate]).
      lia.
  - intros tok rest Hfront Hlen. unfold parse_chunk.
    rewrite Hfront. change (Ascii.eqb "(" "[") with false.
    change (Ascii.eqb "(" "(") with true. cbv iota.
    rewrite strip_delimiters_spec; [reflexivity| |exact Hlen].
    intros ->. discriminate.
Qed.

Lemma nested_paren_comment_witness :
  (exists tok rest,
     lex_token (chars "(a (b) c) G1") = OK (tok, rest) /\
     chars "(a (b) c) G1" = tok ++ rest /\
     (rest = [] \/ nesting "(" ")" tok = 0%Z)) /\
  parse_chunk [chars "(a (b) c)"; chars "G"; chars "1"] =
    OK (Comment "(" ")" (chars "a (b) c"), [chars "G"; chars "1"]).
Proof.
  destruct nested_paren_comment as (Hlex & Hparse & _).
  split.
  - destruct (Hlex (chars "a (b) c) G1")) as (tok & rest & H1 & H2 & _ & _ & H3).
    + vm_compute. reflexivity.
    + exists tok, rest. auto.
  - apply (Hparse (chars "(a (b) c)")).
    + reflexivity.
    + vm_compute. discriminate.
Defined.

(** ** Rendering and parsing again *)

(** C1, refuted: the text "/G1" has no ';', and the blocks parsed from
    its rendering differ from the blocks parsed from it: the first parse
    gives a deleted block, the rendering is "G1 " without the '/', and
    the second parse gives a block that is not deleted. *)
Lemma render_reparse_loses_deletion :
  no_line_comment (chars "/G1") = true /\
  exists bs rendered bs',
    lex_gprog (chars "/G1") = OK bs /\
    print_blocks bs = OK rendered /\
    lex_gprog rendered = OK bs' /\
    bs' <> bs /\
    map is_deleted bs = [true] /\
    map is_deleted bs' = [false] /\
    map chunks bs' = map chunks bs.
Proof.
  split; [reflexivity|].
  exists [block_plain true [make_word_int "G" 1]],
         (chars "G1 " ++ [newline]),
         [block_plain false [make_word_int "G" 1]].
  repeat split; try reflexivity. discriminate.
Qed.

(** Three more ways in which the second parse differs from the first,
    none of them with a ';' or a deleted block: a line of white space
    yields a block that renders to an empty line, which is skipped; a
    double is rendered with six significant digits; a comment left open
    at the end of its line loses its last character and is closed by
    the rendering. *)
Lemma render_reparse_other_losses :
  (exists rendered,
     lex_gprog (chars " ") = OK [block_plain false []] /\
     print_blocks [block_plain false []] = OK rendered /\
     lex_gprog rendered = OK []) /\
  (exists bs rendered bs',
     lex_gprog (chars "X1.2345678") = OK bs /\
     print_blocks bs = OK rendered /\
     rendered = chars "X1.23457 " ++ [newline] /\
     lex_gprog rendered = OK bs' /\ bs' <> bs) /\
  (exists bs rendered bs',
     lex_gprog (chars "(a(b)") = OK bs /\
     print_blocks bs = OK rendered /\
     rendered = chars "(a(b) " ++ [newline] /\
     lex_gprog rendered = OK bs' /\ bs' <> bs).
Proof.
  split; [|split].
  - eexists. repeat split; vm_compute; reflexivity.
  - do 3 eexists. split; [vm_compute; reflexivity|].
    split; [vm_compute; reflexivity|].
    split; [reflexivity|].
    split; [vm_compute; reflexivity|]. discriminate.
  - do 3 eexists. split; [vm_compute; reflexivity|].
    split; [vm_compute; reflexivity|].
    split; [reflexivity|].
    split; [vm_compute; reflexivity|]. discriminate.
Qed.

(** *** Integers are read back *)

Lemma uint_chars_digits (u : Decimal.uint) :
  forallb isdigit (uint_chars u) = true.
Proof. induction u; simpl; auto. Qed.

Lemma isdigit_num_char (c : ascii) : isdigit c = true -> is_num_char c = true.
Proof. unfold is_num_char. now intros ->. Qed.

Lemma read_digits_stop (s : str) (acc : Z) (n : nat) :
  match s with c :: _ => isdigit c = false | [] => True end ->
  read_digits s acc n = (acc, n, s).
Proof. destruct s as [|c s]; simpl; [reflexivity|]. now intros ->. Qed.

Lemma read_digits_uint (u : Decimal.uint) :
  forall (rest : str) (acc : Z) (n : nat),
    match rest with c :: _ => isdigit c = false | [] => True end ->
    read_digits (uint_chars u ++ rest) acc n =
    (uint_value u acc, (n + length (uint_chars u))%nat, rest).
Proof.
  induction u; intros rest acc n Hrest;
    try (cbn [uint_chars app read_digits uint_value length];
         change (isdigit _) with true; cbv iota;
         rewrite IHu by exact Hrest;
         match goal with
         | |- context [digit_value ?c] =>
             let v := eval vm_compute in (digit_value c) in
             change (digit_value c) with v
         end;
         do 2 f_equal; lia).
  cbn [uint_chars app uint_value length].
  rewrite read_digits_stop by exact Hrest. do 2 f_equal. lia.
Qed.

Lemma uint_value_of_lu (u : Decimal.uint) :
  forall acc : Z,
    uint_value u acc =
    (Z.of_N (DecimalPos.Unsigned.of_lu (Decimal.rev u)) +
     acc * 10 ^ Z.of_N (DecimalPos.Unsigned.usize u))%Z.
Proof.
  induction u; intros acc;
    try (cbn [uint_value DecimalPos.Unsigned.usize];
         rewrite IHu;
         match goal with
         | |- context [Decimal.rev (?D u)] =>
             change (Decimal.rev (D u)) with (Decimal.revapp u (D Decimal.Nil))
         end;
         rewrite DecimalPos.Unsigned.of_lu_revapp;
         cbn [DecimalPos.Unsigned.of_lu];
         rewrite ?N2Z.inj_add, ?N2Z.inj_mul, ?N2Z.inj_pow, ?N2Z.inj_succ;
         rewrite Z.pow_succ_r by apply N2Z.is_nonneg;
         simpl Z.of_N; ring).
  simpl. lia.
Qed.

Lemma uint_value_of_uint (u : Decimal.uint) :
  uint_value u 0 = Z.of_N (Pos.of_uint u).
Proof.
  rewrite uint_value_of_lu, DecimalPos.Unsigned.of_uint_alt. lia.
Qed.

Lemma uint_chars_to_uint (p : positive) :
  exists c s, uint_chars (Pos.to_uint p) = c :: s /\ isdigit c = true.
Proof.
  pose proof (DecimalPos.Unsigned.to_uint_nonnil p) as H.
  destruct (Pos.to_uint p); try contradiction; simpl; eauto.
Qed.

Lemma print_int_num_chars (z : Z) :
  forallb is_num_char (print_int z) = true /\
  exists c s, print_int z = c :: s /\ is_num_char c = true.
Proof.
  assert (Hall : forall u, forallb is_num_char (uint_chars u) = true).
  { intros u. apply forallb_forall. intros c Hc. apply isdigit_num_char.
    pose proof (uint_chars_digits u) as Hd.
    rewrite forallb_forall in Hd. auto. }
  unfold print_int, Z.to_int. destruct z as [|p|p].
  - split; [reflexivity|]. do 2 eexists. split; reflexivity.
  - split; [apply Hall|].
    destruct (uint_chars_to_uint p) as (c & s & E & Hc).
    exists c, s. split; [exact E|now apply isdigit_num_char].
  - split; [simpl; apply Hall|]. do 2 eexists. split; reflexivity.
Qed.

Lemma read_digits_to_uint (p : positive) :
  read_digits (uint_chars (Pos.to_uint p)) 0 0 =
  (Z.pos p, length (uint_chars (Pos.to_uint p)), []).
Proof.
  rewrite <- (app_nil_r (uint_chars (Pos.to_uint p))) at 1.
  rewrite read_digits_uint by exact I.
  now rewrite uint_value_of_uint, DecimalPos.Unsigned.of_to.
Qed.

Lemma isdigit_not_space (c : ascii) : isdigit c = true -> isspace c = false.
Proof.
  unfold isdigit, isspace. intros H.
  apply andb_true_iff in H as [H1 H2]. apply N.leb_le in H1.
  apply orb_false_iff. split.
  - apply N.eqb_neq. lia.
  - apply andb_false_iff. right. apply N.leb_gt. lia.
Qed.

Lemma stoi_print_int (z : Z) : in_int_range z = true -> stoi (print_int z) = OK z.
Proof.
  intros Hr. unfold print_int, Z.to_int. destruct z as [|p|p].
  - reflexivity.
  - destruct (uint_chars_to_uint p) as (c & s & E & Hc).
    unfold stoi. rewrite E. cbn [skip_space].
    rewrite (isdigit_not_space _ Hc). unfold read_sign.
    assert (Hm : Ascii.eqb c "-" = false)
      by (destruct (Ascii.eqb c "-") eqn:X; [|reflexivity];
          apply Ascii.eqb_eq in X; subst c; discriminate).
    assert (Hpl : Ascii.eqb c "+" = false)
      by (destruct (Ascii.eqb c "+") eqn:X; [|reflexivity];
          apply Ascii.eqb_eq in X; subst c; discriminate).
    rewrite Hm, Hpl, <- E, read_digits_to_uint, E.
    cbn [length]. now rewrite Hr.
  - unfold stoi. cbn [skip_space].
    change (isspace "-") with false. cbv iota.
    unfold read_sign. change (Ascii.eqb "-" "-") with true. cbv iota.
    destruct (uint_chars_to_uint p) as (c & s & E & Hc).
    rewrite read_digits_to_uint, E. cbn [length].
    change (- Z.pos p)%Z with (Z.neg p). now rewrite Hr.
Qed.

(** *** The loops never run out of fuel *)

Lemma ignore_whitespace_length (s : parse_state) :
  length (ignore_whitespace s) <= length s.
Proof.
  induction s as [|c s IH]; simpl; [lia|].
  destruct (isspace c || Ascii.eqb c "013"); simpl; lia.
Qed.

Lemma ignore_whitespace_head (s : parse_state) :
  match ignore_whitespace s with
  | [] => True
  | c :: _ => is_white c = false
  end.
Proof.
  induction s as [|c s IH]; simpl; [exact I|].
  destruct (isspace c || Ascii.eqb c "013") eqn:E; [exact IH|exact E].
Qed.

Lemma ignore_whitespace_id (c : ascii) (s : parse_state) :
  is_white c = false -> ignore_whitespace (c :: s) = c :: s.
Proof. unfold is_white. simpl. now intros ->. Qed.

Lemma ignore_whitespace_skip (c : ascii) (s : parse_state) :
  is_white c = true -> ignore_whitespace (c :: s) = ignore_whitespace s.
Proof. unfold is_white. simpl. now intros ->. Qed.

Lemma digit_string_split (s : parse_state) :
  forall num rest,
    digit_string s = (num, rest) ->
    s = num ++ rest /\ forallb is_num_char num = true.
Proof.
  induction s as [|c s IH]; simpl; intros num rest H.
  - injection H as <- <-. split; reflexivity.
  - destruct (is_num_char c) eqn:Ec.
    + destruct (digit_string s) as [n r]. injection H as <- <-.
      destruct (IH n r eq_refl) as [-> Hn]. split; [reflexivity|].
      simpl. now rewrite Ec.
    + injection H as <- <-. split; reflexivity.
Qed.

(** The depth loop returns the text it was entered with, followed by a
    part of the stream that is not empty. *)
Lemma comment_loop_split (sc ec : ascii) (s : parse_state) :
  forall depth text tok rest,
    comment_loop sc ec depth text s = OK (tok, rest) ->
    exists t, tok = text ++ t /\ t <> [] /\ s = t ++ rest.
Proof.
  induction s as [|c s IH]; intros depth text tok rest H; [discriminate|].
  cbn [comment_loop] in H.
  destruct (if Ascii.eqb c sc then int_succ depth
            else if Ascii.eqb c ec then int_pred depth else OK depth)
    as [d|e]; [|discriminate].
  cbn [bind] in H.
  destruct (chars_left s && (0 <? d)%Z).
  - apply IH in H as (t & -> & Ht & ->).
    exists (c :: t). rewrite <- app_assoc.
    split; [reflexivity|]. split; [discriminate|reflexivity].
  - injection H as <- <-. exists [c].
    split; [reflexivity|]. split; [discriminate|reflexivity].
Qed.

Lemma lex_token_split (s tok rest : parse_state) :
  lex_token s = OK (tok, rest) -> tok <> [] /\ s = tok ++ rest.
Proof.
  unfold lex_token. destruct s as [|c s]; [discriminate|].
  destruct (is_num_char c) eqn:Ec.
  - intros H.
    assert (H' : digit_string (c :: s) = (tok, rest)) by congruence.
    destruct (digit_string_split _ _ _ H') as [E _].
    split; [|exact E].
    simpl in H'. rewrite Ec in H'. destruct (digit_string s).
    injection H' as <- _. discriminate.
  - destruct (Ascii.eqb c "(").
    { intros H. apply comment_loop_split in H as (t & -> & Ht & E).
      split; [exact Ht|exact E]. }
    destruct (Ascii.eqb c "[").
    { intros H. apply comment_loop_split in H as (t & -> & Ht & E).
      split; [exact Ht|exact E]. }
    destruct (Ascii.eqb c ")"); [discriminate|].
    destruct (Ascii.eqb c "]"); [discriminate|].
    intros H. injection H as <- <-. split; [discriminate|reflexivity].
Qed.

Lemma lex_token_shorter (s tok rest : parse_state) :
  lex_token s = OK (tok, rest) -> length rest < length s.
Proof.
  intros H. apply lex_token_split in H as [Hne ->].
  rewrite length_app. destruct tok; [contradiction|simpl; lia].
Qed.

Lemma lex_block_loop_fuel (fuel1 : nat) :
  forall fuel2 s tokens,
    length s <= fuel1 -> length s <= fuel2 ->
    lex_block_loop fuel1 s tokens = lex_block_loop fuel2 s tokens.
Proof.
  induction fuel1 as [|fuel1 IH]; intros fuel2 s tokens H1 H2.
  - destruct s; [|simpl in H1; lia]. now rewrite !lex_block_loop_nil.
  - destruct s as [|c s]; [now rewrite !lex_block_loop_nil|].
    destruct fuel2 as [|fuel2]; [simpl in H2; lia|].
    cbn [lex_block_loop].
    pose proof (ignore_whitespace_length (c :: s)) as Hw.
    cbn [length] in *.
    destruct (ignore_whitespace (c :: s)) as [|c1 s1] eqn:Ew.
    + cbn [chars_left]. now rewrite !lex_block_loop_nil.
    + cbn [chars_left].
      destruct (lex_token (c1 :: s1)) as [[tok s2]|e] eqn:E; [|reflexivity].
      cbn [bind]. apply lex_token_shorter in E.
      apply IH; lia.
Qed.

Lemma lex_all_nil (tokens : list str) : lex_all [] tokens = OK tokens.
Proof. reflexivity. Qed.

Lemma lex_block_loop_step (fuel : nat) (c : ascii) (s : parse_state)
    (tokens : list str) :
  length (c :: s) <= fuel ->
  lex_block_loop fuel (c :: s) tokens =
  match ignore_whitespace (c :: s) with
  | [] => OK tokens
  | c1 :: s1 =>
      '(token, s2) <- lex_token (c1 :: s1) ;; lex_all s2 (tokens ++ [token])
  end.
Proof.
  intros Hlen. destruct fuel as [|fuel]; [simpl in Hlen; lia|].
  cbn [lex_block_loop].
  pose proof (ignore_whitespace_length (c :: s)) as Hw.
  destruct (ignore_whitespace (c :: s)) as [|c1 s1].
  - cbn [chars_left]. apply lex_block_loop_nil.
  - cbn [chars_left].
    destruct (lex_token (c1 :: s1)) as [[tok s2]|e] eqn:E; [|reflexivity].
    cbn [bind]. apply lex_token_shorter in E. cbn [length] in *.
    apply lex_block_loop_fuel; lia.
Qed.

Lemma lex_all_token (c : ascii) (s : parse_state) (tokens : list str) :
  is_white c = false ->
  lex_all (c :: s) tokens =
  ('(token, s2) <- lex_token (c :: s) ;; lex_all s2 (tokens ++ [token])).
Proof.
  intros Hc. unfold lex_all at 1.
  rewrite lex_block_loop_step by lia.
  now rewrite (ignore_whitespace_id _ _ Hc).
Qed.

Lemma lex_all_white (c : ascii) (s : parse_state) (tokens : list str) :
  is_white c = true -> lex_all (c :: s) tokens = lex_all s tokens.
Proof.
  intros Hc. unfold lex_all at 1.
  rewrite lex_block_loop_step by lia.
  rewrite (ignore_whitespace_skip _ _ Hc).
  destruct s as [|c' s]; [reflexivity|].
  unfold lex_all at 2. now rewrite lex_block_loop_step by lia.
Qed.

Lemma lex_all_ignore_whitespace (s : parse_state) (tokens : list str) :
  lex_all (ignore_whitespace s) tokens = lex_all s tokens.
Proof.
  induction s as [|c s IH]; [reflexivity|].
  destruct (is_white c) eqn:Ec.
  - now rewrite ignore_whitespace_skip, lex_all_white.
  - now rewrite ignore_whitespace_id.
Qed.

Lemma lex_block_lex_all (text : str) : lex_block text = lex_all text [].
Proof.
  unfold lex_block. rewrite <- lex_all_ignore_whitespace. unfold lex_all.
  apply lex_block_loop_fuel; [apply ignore_whitespace_length|lia].
Qed.

(** *** Facts about single characters *)

Lemma forall_char (P : ascii -> bool) :
  forallb P all_chars = true -> forall c, P c = true.
Proof.
  intros H c. rewrite forallb_forall in H. apply H.
  unfold all_chars. rewrite <- (ascii_nat_embedding c).
  apply in_map, in_seq. pose proof (nat_ascii_bounded c). lia.
Qed.

Ltac char_fact c :=
  revert c; apply forall_char with (P := fun c => _); vm_compute; reflexivity.

Lemma num_char_plain (c : ascii) :
  implb (is_num_char c)
        (negb (is_white c) && negb (mem_char c (chars "([)]%;")) &&
         negb (Ascii.eqb c newline) && negb (Ascii.eqb c "/") &&
         negb (Ascii.eqb c "N")) = true.
Proof. char_fact c. Qed.

Lemma classified_plain (c : ascii) :
  implb (match classify c with Some _ => true | None => false end)
        (negb (is_white c) && negb (mem_char c (chars "([)]%;")) &&
         negb (Ascii.eqb c newline) && negb (is_num_char c) &&
         negb (Ascii.eqb c "/")) = true.
Proof. char_fact c. Qed.

Lemma white_or_newline (c : ascii) :
  implb (Ascii.eqb c newline) (is_white c) = true.
Proof. char_fact c. Qed.

Lemma lex_token_single (c : ascii) (rest : parse_state) :
  is_num_char c = false ->
  mem_char c (chars "([)]") = false ->
  lex_token (c :: rest) = OK ([c], rest).
Proof.
  intros Hn Hm. unfold lex_token. rewrite Hn.
  unfold mem_char in Hm. cbn [chars list_ascii_of_string existsb] in Hm.
  repeat (apply orb_false_iff in Hm as [? Hm]).
  now repeat match goal with H : Ascii.eqb c _ = false |- _ => rewrite H; clear H end.
Qed.

Lemma digit_string_app (num rest : parse_state) :
  forallb is_num_char num = true ->
  match rest with c :: _ => is_num_char c = false | [] => True end ->
  digit_string (num ++ rest) = (num, rest).
Proof.
  intros Hnum Hrest. induction num as [|c num IH]; simpl.
  - destruct rest as [|c rest]; [reflexivity|]. simpl. now rewrite Hrest.
  - simpl in Hnum. apply andb_true_iff in Hnum as [Hc Hnum].
    rewrite Hc, (IH Hnum). reflexivity.
Qed.

Lemma lex_token_num (c : ascii) (num rest : parse_state) :
  forallb is_num_char (c :: num) = true ->
  match rest with c' :: _ => is_num_char c' = false | [] => True end ->
  lex_token ((c :: num) ++ rest) = OK (c :: num, rest).
Proof.
  intros Hnum Hrest. unfold lex_token. cbn [app].
  pose proof Hnum as Hc. simpl in Hc. apply andb_true_iff in Hc as [Hc _].
  rewrite Hc. change (c :: num ++ rest) with ((c :: num) ++ rest).
  now rewrite digit_string_app.
Qed.

(** When the depth loop stops in front of a character, it stops there
    whatever that character and the rest of the stream are. *)
Lemma comment_loop_prefix (sc ec : ascii) (t : str) :
  forall (depth : Z) (text : str) (y : ascii),
    comment_loop sc ec depth text (t ++ [y]) = OK (text ++ t, [y]) ->
    forall (x : ascii) (rest : parse_state),
      comment_loop sc ec depth text (t ++ x :: rest) = OK (text ++ t, x :: rest).
Proof.
  induction t as [|c t IH]; intros depth text y H x rest.
  - exfalso. apply comment_loop_split in H as (t0 & E & Ht0 & Es).
    rewrite app_nil_r in E. apply (f_equal (@length ascii)) in E.
    rewrite length_app in E. destruct t0; [contradiction|simpl in E; lia].
  - cbn [app comment_loop] in *.
    destruct (if Ascii.eqb c sc then int_succ depth
              else if Ascii.eqb c ec then int_pred depth else OK depth)
      as [d|e]; [|discriminate].
    cbn [bind] in *.
    assert (Hl : chars_left (t ++ [y]) = true) by (destruct t; reflexivity).
    assert (Hr : chars_left (t ++ x :: rest) = true) by (destruct t; reflexivity).
    rewrite Hl in H. rewrite Hr. cbn [andb] in *.
    destruct (0 <? d)%Z.
    + replace (text ++ c :: t) with ((text ++ [c]) ++ t) in *
        by (now rewrite <- app_assoc).
      eapply IH. exact H.
    + injection H as H1 H2.
      assert (t = []).
      { apply (f_equal (@length ascii)) in H2. rewrite length_app in H2.
        destruct t; [reflexivity|simpl in H2; lia]. }
      subst t. reflexivity.
Qed.

Lemma lex_token_comment (l r : ascii) (text : str) (rest : parse_state) :
  (l = "(" /\ r = ")" \/ l = "[" /\ r = "]")%char ->
  comment_rereads l r text = true ->
  lex_token ((l :: text ++ [r]) ++ " "%char :: rest) =
  OK (l :: text ++ [r], " "%char :: rest).
Proof.
  intros Hlr H. unfold comment_rereads in H.
  destruct (parse_comment_with_delimiters l r (l :: text ++ [r; " "%char]))
    as [[tok rest']|e] eqn:E; [|discriminate].
  apply andb_true_iff in H as [H1 H2].
  apply eqb_str_eq in H1, H2. subst tok rest'.
  unfold parse_comment_with_delimiters in E.
  replace (l :: text ++ [r; " "%char]) with ((l :: text ++ [r]) ++ [" "%char]) in E
    by (cbn [app]; now rewrite <- app_assoc).
  change (OK (l :: text ++ [r], [" "%char]))
    with (OK ([] ++ (l :: text ++ [r]), [" "%char])) in E.
  pose proof (comment_loop_prefix _ _ _ _ _ _ E " "%char rest) as Hp.
  unfold lex_token. cbn [app] in *.
  destruct Hlr as [[-> ->]|[-> ->]]; exact Hp.
Qed.

(** *** Lexing the rendering of a block *)

Lemma implb_true (a b : bool) : implb a b = true -> a = true -> b = true.
Proof. now intros H ->. Qed.

Lemma num_char_facts (c : ascii) :
  is_num_char c = true ->
  is_white c = false /\ mem_char c (chars "([)]%;") = false /\
  Ascii.eqb c newline = false /\ Ascii.eqb c "/" = false /\
  Ascii.eqb c "N" = false.
Proof.
  intros H. pose proof (implb_true _ _ (num_char_plain c) H) as F.
  repeat (apply andb_true_iff in F as [F ?]).
  repeat split; now apply negb_true_iff.
Qed.

Lemma classified_facts (c : ascii) (k : address_type) :
  classify c = Some k ->
  is_white c = false /\ mem_char c (chars "([)]%;") = false /\
  Ascii.eqb c newline = false /\ is_num_char c = false /\
  Ascii.eqb c "/" = false.
Proof.
  intros H. pose proof (classified_plain c) as F. rewrite H in F.
  cbn [implb] in F.
  repeat (apply andb_true_iff in F as [F ?]).
  repeat split; now apply negb_true_iff.
Qed.

Lemma mem_char_weaken (c : ascii) :
  mem_char c (chars "([)]%;") = false -> mem_char c (chars "([)]") = false.
Proof.
  unfold mem_char. cbn [chars list_ascii_of_string existsb].
  intros H. repeat (apply orb_false_iff in H as [? H]).
  now repeat match goal with X : Ascii.eqb c _ = false |- _ => rewrite X; clear X end.
Qed.

Lemma is_white_space : is_white " " = true.
Proof. reflexivity. Qed.

(** A letter, a numeric text and a space are lexed as two tokens. *)
Lemma lex_all_word (w : ascii) (num : str) (rest : parse_state)
    (tokens : list str) :
  is_white w = false ->
  is_num_char w = false ->
  mem_char w (chars "([)]") = false ->
  forallb is_num_char num = true ->
  num <> [] ->
  lex_all (w :: num ++ " "%char :: rest) tokens =
  lex_all rest (tokens ++ [[w]; num]).
Proof.
  intros Hw Hn Hm Hnum Hne.
  rewrite lex_all_token by exact Hw.
  rewrite lex_token_single by assumption. cbn [bind].
  destruct num as [|c num]; [contradiction|].
  pose proof Hnum as Hc. simpl in Hc. apply andb_true_iff in Hc as [Hc _].
  destruct (num_char_facts _ Hc) as (Hcw & _).
  change ((c :: num) ++ " "%char :: rest) with (c :: num ++ " "%char :: rest).
  rewrite lex_all_token by exact Hcw.
  change (c :: num ++ " "%char :: rest) with ((c :: num) ++ " "%char :: rest).
  rewrite lex_token_num by (try assumption; reflexivity). cbn [bind].
  rewrite lex_all_white by reflexivity.
  now rewrite <- app_assoc.
Qed.

Lemma stod_nonempty (t : str) (d : double) : stod t = OK d -> t <> [].
Proof. intros H ->. discriminate. Qed.

Lemma addr_text_numeric (w : ascii) (a : addr) :
  wf_addr w a = true ->
  chunk_rereads (WordAddress w a) = true ->
  forallb is_num_char (addr_text a) = true /\ addr_text a <> [].
Proof.
  unfold wf_addr, chunk_rereads, addr_text, tp.
  destruct (classify w) as [[]|]; [| |discriminate];
    destruct a as [[] [d|i]]; cbn [ad_type val]; try discriminate; intros Hwf Hr.
  - destruct (print_int_num_chars i) as (Hall & c & s & E & _).
    split; [exact Hall|]. rewrite E. discriminate.
  - unfold double_rereads in Hr. apply andb_true_iff in Hr as [Hall Hs].
    split; [exact Hall|].
    destruct (stod (print_double d)) as [d'|e] eqn:E; [|discriminate].
    now apply stod_nonempty in E.
Qed.

Lemma lex_all_chunk (c : chunk) (rest : parse_state) (tokens : list str) :
  wf_chunk c = true ->
  chunk_rereads c = true ->
  lex_all (chunk_text c ++ " "%char :: rest) tokens =
  lex_all rest (tokens ++ chunk_tokens c).
Proof.
  intros Hwf Hr. destruct c as [l r text|w a| |w].
  - (* a comment *)
    cbn [wf_chunk chunk_rereads] in *.
    apply andb_true_iff in Hwf as [_ Hlr].
    apply andb_true_iff in Hr as [Hsemi Hr]. apply negb_true_iff in Hsemi.
    assert (Hd : (l = "(" /\ r = ")" \/ l = "[" /\ r = "]")%char).
    { apply orb_true_iff in Hlr as [Hlr|Hlr];
        [apply orb_true_iff in Hlr as [Hlr|Hlr]|];
        repeat (apply andb_true_iff in Hlr as [Hlr ?]);
        repeat match goal with
               | X : Ascii.eqb _ _ = true |- _ => apply Ascii.eqb_eq in X
               end; subst; auto; discriminate. }
    cbn [chunk_text chunk_tokens].
    assert (Hl : is_white l = false) by (destruct Hd as [[-> _]|[-> _]]; reflexivity).
    change ((l :: text ++ [r]) ++ " "%char :: rest)
      with (l :: (text ++ [r]) ++ " "%char :: rest).
    rewrite lex_all_token by exact Hl.
    change (l :: (text ++ [r]) ++ " "%char :: rest)
      with ((l :: text ++ [r]) ++ " "%char :: rest).
    rewrite lex_token_comment by assumption. cbn [bind].
    now rewrite lex_all_white by reflexivity.
  - (* a word address *)
    cbn [wf_chunk] in Hwf.
    destruct (addr_text_numeric _ _ Hwf Hr) as [Hall Hne].
    assert (Hk : exists k, classify w = Some k).
    { unfold wf_addr in Hwf. destruct (classify w); [eauto|discriminate]. }
    destruct Hk as [k Hk].
    destruct (classified_facts _ _ Hk) as (Hw & Hm & _ & Hn & _).
    cbn [chunk_text chunk_tokens app].
    apply lex_all_word; auto using mem_char_weaken.
  - (* the percent marker *)
    cbn [chunk_text chunk_tokens chars list_ascii_of_string app].
    rewrite lex_all_token by reflexivity.
    rewrite lex_token_single by reflexivity. cbn [bind].
    now rewrite lex_all_white by reflexivity.
  - (* an isolated word *)
    cbn [wf_chunk] in Hwf. unfold word_char in Hwf.
    apply andb_true_iff in Hwf as [Hw Hm]. apply negb_true_iff in Hw, Hm.
    cbn [chunk_text chunk_tokens app].
    rewrite lex_all_token by exact Hw.
    destruct (is_num_char w) eqn:Hn.
    + change (w :: " "%char :: rest) with ([w] ++ " "%char :: rest).
      rewrite lex_token_num by (simpl; try rewrite Hn; reflexivity).
      cbn [bind]. now rewrite lex_all_white by reflexivity.
    + rewrite lex_token_single by auto using mem_char_weaken. cbn [bind].
      now rewrite lex_all_white by reflexivity.
Qed.

Lemma wf_chunks_cons (c : chunk) (cs : list chunk) :
  wf_chunks (c :: cs) = true ->
  wf_chunk c = true /\
  match c with Word _ => follows_word cs | _ => true end = true /\
  wf_chunks cs = true.
Proof.
  cbn [wf_chunks]. intros H.
  apply andb_true_iff in H as [H H3]. apply andb_true_iff in H as [H1 H2].
  auto.
Qed.

Lemma lex_all_chunks (cs : list chunk) :
  forall tokens,
    wf_chunks cs = true ->
    forallb chunk_rereads cs = true ->
    lex_all (chunks_text cs) tokens = OK (tokens ++ flat_map chunk_tokens cs).
Proof.
  induction cs as [|c cs IH]; intros tokens Hwf Hr.
  - simpl. now rewrite app_nil_r.
  - apply wf_chunks_cons in Hwf as (Hc & _ & Hcs).
    cbn [forallb] in Hr. apply andb_true_iff in Hr as [Hrc Hrs].
    cbn [chunks_text flat_map].
    rewrite lex_all_chunk by assumption.
    rewrite IH by assumption. now rewrite <- app_assoc.
Qed.

(** *** Parsing the tokens of a rendered block *)

Lemma line_comment_rest (sc : str) (s : token_stream) :
  snd (parse_line_comment_with_delimiter sc s) = [].
Proof.
  induction s as [|t s IH]; simpl; [reflexivity|].
  destruct (parse_line_comment_with_delimiter sc s). exact IH.
Qed.

Lemma parse_address_rest (c : ascii) (s s' : token_stream) (a : addr) :
  parse_address c s = OK (a, s') -> exists t, s = t :: s'.
Proof.
  rewrite parse_address_classify.
  destruct (classify c) as [[]|]; [| |discriminate];
    destruct s as [|t s]; try discriminate; simpl.
  - destruct (stoi t); simpl; [|discriminate].
    intros H. injection H as _ <-. eauto.
  - destruct (stod t); simpl; [|discriminate].
    intros H. injection H as _ <-. eauto.
Qed.

Lemma parse_chunk_shorter (s s' : token_stream) (ch : chunk) :
  parse_chunk s = OK (ch, s') -> length s' < length s.
Proof.
  unfold parse_chunk. destruct s as [|t s]; [discriminate|].
  destruct (Ascii.eqb (front t) "[").
  { destruct (strip_delimiters t); simpl; [|discriminate].
    intros H. injection H as _ <-. simpl. lia. }
  destruct (Ascii.eqb (front t) "(").
  { destruct (strip_delimiters t); simpl; [|discriminate].
    intros H. injection H as _ <-. simpl. lia. }
  destruct (eqb_str t (chars "%")).
  { intros H. injection H as _ <-. simpl. lia. }
  destruct (eqb_str t (chars ";")).
  { pose proof (line_comment_rest (chars ";") s) as Hr.
    destruct (parse_line_comment_with_delimiter (chars ";") s) as [cs rest].
    simpl in Hr. subst rest. intros H. injection H as _ <-. simpl. lia. }
  destruct s as [|nn s]; [discriminate|]. cbn [next bind].
  destruct (negb (is_num_char (front nn))).
  - unfold parse_isolated_word.
    destruct (length t =? 1)%nat; [|discriminate].
    intros H. injection H as _ <-. simpl. lia.
  - unfold parse_word_address.
    destruct (length t =? 1)%nat; [|discriminate].
    destruct (parse_address (front t) (nn :: s)) as [[a s'']|e] eqn:E;
      [|discriminate].
    cbn [bind]. intros H. injection H as _ <-.
    apply parse_address_rest in E as [t' E]. injection E as _ <-.
    simpl. lia.
Qed.

Lemma parse_chunks_fuel (fuel1 : nat) :
  forall fuel2 s cs,
    length s <= fuel1 -> length s <= fuel2 ->
    parse_chunks fuel1 s cs = parse_chunks fuel2 s cs.
Proof.
  induction fuel1 as [|fuel1 IH]; intros fuel2 s cs H1 H2.
  - destruct s; [|simpl in H1; lia]. now rewrite !parse_chunks_nil.
  - destruct s as [|t s]; [now rewrite !parse_chunks_nil|].
    destruct fuel2 as [|fuel2]; [simpl in H2; lia|].
    cbn [parse_chunks].
    destruct (parse_chunk (t :: s)) as [[ch s']|e] eqn:E; [|reflexivity].
    cbn [bind]. apply parse_chunk_shorter in E. cbn [length] in *.
    apply IH; lia.
Qed.

Lemma parse_all_step (t : str) (s : token_stream) (cs : list chunk) :
  parse_all (t :: s) cs =
  ('(ch, s') <- parse_chunk (t :: s) ;; parse_all s' (cs ++ [ch])).
Proof.
  unfold parse_all at 1. cbn [length parse_chunks].
  destruct (parse_chunk (t :: s)) as [[ch s']|e] eqn:E; [|reflexivity].
  cbn [bind]. apply parse_chunk_shorter in E. cbn [length] in E.
  apply parse_chunks_fuel; lia.
Qed.

Lemma strip_delimiters_wrapped (l r : ascii) (text : str) :
  (Z.of_nat (length text) <= SIZE_MAX)%Z ->
  strip_delimiters (l :: text ++ [r]) = OK text.
Proof.
  intros Hlen. unfold strip_delimiters, substr, SIZE_MAX in *.
  cbn [length]. rewrite length_app. cbn [length].
  replace (Z.of_nat (S (length text + 1)) <? 1)%Z with false
    by (symmetry; apply Z.ltb_ge; lia).
  change (skipn (Z.to_nat 1) (l :: text ++ [r])) with (text ++ [r]).
  replace ((Z.of_nat (S (length text + 1)) - 2) mod (2 ^ 64 - 1 + 1))%Z
    with (Z.of_nat (length text))
    by (rewrite Z.mod_small; lia).
  rewrite Z.min_l by lia. rewrite Nat2Z.id.
  rewrite firstn_app, firstn_all, Nat.sub_diag. cbn [firstn].
  now rewrite app_nil_r.
Qed.

Lemma double_identical_eq (x y : double) : double_identical x y = true -> x = y.
Proof.
  destruct x as [s|s| |s m e], y as [s'|s'| |s' m' e']; simpl;
    try discriminate; intros H.
  - apply Bool.eqb_prop in H. now subst.
  - apply Bool.eqb_prop in H. now subst.
  - reflexivity.
  - apply andb_true_iff in H as [H He]. apply andb_true_iff in H as [Hs Hm].
    apply Bool.eqb_prop in Hs. apply Pos.eqb_eq in Hm. apply Z.eqb_eq in He.
    now subst.
Qed.

Lemma eqb_str_front (t : str) (c : ascii) :
  Ascii.eqb (front t) c = false -> eqb_str t [c] = false.
Proof.
  destruct t as [|x t]; [reflexivity|]. simpl. now intros ->.
Qed.

Lemma parse_address_text (w : ascii) (a : addr) (rest : token_stream) :
  wf_addr w a = true ->
  chunk_rereads (WordAddress w a) = true ->
  parse_address w (addr_text a :: rest) = OK (a, rest).
Proof.
  rewrite parse_address_classify.
  unfold wf_addr, chunk_rereads, addr_text, tp.
  destruct (classify w) as [[]|]; [| |discriminate];
    destruct a as [[] [d|i]]; cbn [ad_type val]; try discriminate; intros Hwf Hr.
  - cbn [parse_int]. now rewrite stoi_print_int.
  - unfold double_rereads in Hr. apply andb_true_iff in Hr as [_ Hs].
    cbn [parse_double].
    destruct (stod (print_double d)) as [d'|e]; [|discriminate].
    apply double_identical_eq in Hs. now subst.
Qed.

Lemma head_of_tokens (c : chunk) :
  exists t ts, chunk_tokens c = t :: ts /\ front t = head_char c.
Proof. destruct c; simpl; eauto. Qed.

(** The tokens of a chunk are parsed back to the chunk; an isolated
    word needs a next token that does not start with a numeric
    character. *)
Lemma parse_chunk_tokens (c : chunk) (rest : token_stream) :
  wf_chunk c = true ->
  chunk_rereads c = true ->
  match c with
  | Word _ =>
      match rest with
      | t :: _ => is_num_char (front t) = false
      | [] => False
      end
  | _ => True
  end ->
  parse_chunk (chunk_tokens c ++ rest) = OK (c, rest).
Proof.
  intros Hwf Hr Hnext. destruct c as [l r text|w a| |w].
  - cbn [wf_chunk chunk_rereads] in *.
    apply andb_true_iff in Hwf as [_ Hlr].
    apply andb_true_iff in Hr as [Hsemi _]. apply negb_true_iff in Hsemi.
    cbn [chunk_tokens chunk_text app]. unfold parse_chunk. cbn [front hd].
    apply orb_true_iff in Hlr as [Hlr|Hlr];
      [apply orb_true_iff in Hlr as [Hlr|Hlr]|].
    + apply andb_true_iff in Hlr as [Hlr Hlen].
      apply andb_true_iff in Hlr as [Hl Hr'].
      apply Ascii.eqb_eq in Hl, Hr'. subst l r. apply Z.leb_le in Hlen.
      change (Ascii.eqb "(" "[") with false. change (Ascii.eqb "(" "(") with true.
      cbv iota. now rewrite strip_delimiters_wrapped.
    + apply andb_true_iff in Hlr as [Hlr Hlen].
      apply andb_true_iff in Hlr as [Hl Hr'].
      apply Ascii.eqb_eq in Hl, Hr'. subst l r. apply Z.leb_le in Hlen.
      change (Ascii.eqb "[" "[") with true.
      cbv iota. now rewrite strip_delimiters_wrapped.
    + apply andb_true_iff in Hlr as [Hl _]. congruence.
  - cbn [wf_chunk] in Hwf.
    destruct (addr_text_numeric _ _ Hwf Hr) as [Hall Hne].
    assert (Hk : exists k, classify w = Some k).
    { unfold wf_addr in Hwf. destruct (classify w); [eauto|discriminate]. }
    destruct Hk as [k Hk].
    destruct (classified_facts _ _ Hk) as (_ & Hm & _ & _ & _).
    unfold mem_char in Hm. cbn [chars list_ascii_of_string existsb] in Hm.
    repeat (apply orb_false_iff in Hm as [? Hm]).
    cbn [chunk_tokens app]. unfold parse_chunk. cbn [front hd].
    repeat match goal with X : Ascii.eqb w _ = false |- _ => rewrite X end.
    cbn [chars list_ascii_of_string].
    rewrite !eqb_str_front by (cbn [front hd]; assumption).
    cbn [next bind].
    assert (Hf : is_num_char (front (addr_text a)) = true).
    { destruct (addr_text a) as [|x n]; [contradiction|].
      simpl in Hall. apply andb_true_iff in Hall as [Hx _]. exact Hx. }
    rewrite Hf. cbn [negb]. unfold parse_word_address.
    cbn [length Nat.eqb front hd].
    now rewrite parse_address_text.
  - reflexivity.
  - cbn [wf_chunk] in Hwf. unfold word_char in Hwf.
    apply andb_true_iff in Hwf as [_ Hm]. apply negb_true_iff in Hm.
    unfold mem_char in Hm. cbn [chars list_ascii_of_string existsb] in Hm.
    repeat (apply orb_false_iff in Hm as [? Hm]).
    cbn [chunk_tokens chunk_text app]. unfold parse_chunk. cbn [front hd].
    repeat match goal with X : Ascii.eqb w _ = false |- _ => rewrite X end.
    cbn [chars list_ascii_of_string].
    rewrite !eqb_str_front by (cbn [front hd]; assumption).
    destruct rest as [|t rest]; [contradiction|].
    cbn [next bind]. rewrite Hnext. reflexivity.
Qed.

Lemma parse_all_chunks (cs : list chunk) :
  forall acc,
    wf_chunks cs = true ->
    forallb chunk_rereads cs = true ->
    parse_all (flat_map chunk_tokens cs) acc = OK (acc ++ cs).
Proof.
  induction cs as [|c cs IH]; intros acc Hwf Hr.
  - simpl. now rewrite app_nil_r.
  - apply wf_chunks_cons in Hwf as (Hc & Hfollow & Hcs).
    cbn [forallb] in Hr. apply andb_true_iff in Hr as [Hrc Hrs].
    cbn [flat_map].
    destruct (head_of_tokens c) as (t & ts & Et & _).
    rewrite Et. cbn [app]. rewrite parse_all_step.
    change (t :: ts ++ flat_map chunk_tokens cs)
      with ((t :: ts) ++ flat_map chunk_tokens cs).
    rewrite <- Et, parse_chunk_tokens; try assumption.
    + cbn [bind]. rewrite IH by assumption. now rewrite <- app_assoc.
    + destruct c; try exact I.
      destruct cs as [|c' cs]; [discriminate|].
      cbn [follows_word] in Hfollow. apply negb_true_iff in Hfollow.
      cbn [flat_map]. destruct (head_of_tokens c') as (t' & ts' & Et' & Hh).
      rewrite Et'. cbn [app]. congruence.
Qed.

(** *** A rendered block is parsed back *)

Lemma block_rereads_parts (b : block) :
  block_rereads b = true ->
  slashed_out b = false /\
  (has_line_no b = true \/ chunks b <> []) /\
  forallb chunk_rereads (chunks b) = true.
Proof.
  unfold block_rereads, is_deleted, has_line_number. intros H.
  apply andb_true_iff in H as [H H3]. apply andb_true_iff in H as [H1 H2].
  apply negb_true_iff in H1. split; [exact H1|]. split; [|exact H3].
  apply orb_true_iff in H2 as [H2|H2]; [now left|right].
  destruct (chunks b); [discriminate|discriminate].
Qed.

Lemma wf_block_parts (b : block) :
  wf_block b = true ->
  debug_text b = [] /\
  (if has_line_no b then in_int_range (line_no b) = true
   else line_no b = (-1)%Z) /\
  wf_chunks (chunks b) = true /\
  (slashed_out b = false -> has_line_no b = false ->
   plain_head (chunks b) = true).
Proof.
  unfold wf_block. intros H.
  apply andb_true_iff in H as [H H4]. apply andb_true_iff in H as [H H3].
  apply andb_true_iff in H as [H1 H2].
  apply eqb_str_eq in H1. split; [exact H1|]. split; [|split; [exact H3|]].
  - destruct (has_line_no b); [exact H2|now apply Z.eqb_eq].
  - intros Hs Hl. rewrite Hs, Hl in H4. exact H4.
Qed.

Lemma wf_chunks_numbered (n : Z) (cs : list chunk) :
  in_int_range n = true ->
  wf_chunks cs = true ->
  wf_chunks (WordAddress "N" (make_int_address n) :: cs) = true.
Proof.
  intros Hn Hcs.
  change (wf_chunks (WordAddress "N" (make_int_address n) :: cs))
    with (in_int_range n && true && wf_chunks cs).
  now rewrite Hn, Hcs.
Qed.

Lemma block_text_numbered (n : Z) (cs : list chunk) :
  ("N"%char :: print_int n ++ [" "%char]) ++ chunks_text cs =
  chunks_text (WordAddress "N" (make_int_address n) :: cs).
Proof.
  cbn [chunks_text chunk_text addr_text make_int_address val app].
  now rewrite <- app_assoc.
Qed.

Lemma lex_block_block_text (b : block) :
  wf_block b = true ->
  block_rereads b = true ->
  lex_block (block_text b) = OK (block_tokens b).
Proof.
  intros Hwf Hr.
  apply wf_block_parts in Hwf as (_ & Hln & Hcs & _).
  apply block_rereads_parts in Hr as (_ & _ & Hrs).
  rewrite lex_block_lex_all. unfold block_text, block_tokens.
  destruct (has_line_no b).
  - rewrite block_text_numbered, lex_all_chunks.
    + reflexivity.
    + now apply wf_chunks_numbered.
    + exact Hrs.
  - cbn [app]. now apply lex_all_chunks.
Qed.

Lemma parse_tokens_block_tokens (b : block) :
  wf_block b = true ->
  block_rereads b = true ->
  parse_tokens (block_tokens b) = OK b.
Proof.
  intros Hwf Hr.
  apply wf_block_parts in Hwf as (Hdbg & Hln & Hcs & Hhead).
  apply block_rereads_parts in Hr as (Hslash & Hne & Hrs).
  destruct b as [hl n sl cs dt]. cbn [has_line_no line_no slashed_out chunks debug_text] in *.
  subst sl dt. unfold block_tokens. cbn [has_line_no line_no chunks].
  destruct hl.
  - cbn [app parse_tokens parse_slash next bind].
    change (is_slash (chars "N")) with false. cbv iota.
    cbn [parse_line_number next bind].
    change (eqb_str (chars "N") (chars "N")) with true. cbv iota.
    cbn [tl parse_int]. rewrite stoi_print_int by exact Hln.
    cbn [bind]. fold (parse_all (flat_map chunk_tokens cs) []).
    now rewrite parse_all_chunks.
  - cbn [app]. destruct Hne as [Hne|Hne]; [discriminate|].
    destruct cs as [|c cs]; [contradiction|].
    specialize (Hhead eq_refl eq_refl). cbn [plain_head] in Hhead.
    apply andb_true_iff in Hhead as [Hs Hn].
    apply negb_true_iff in Hs, Hn.
    assert (Hall : parse_all (flat_map chunk_tokens (c :: cs)) [] = OK (c :: cs))
      by (now apply parse_all_chunks).
    cbn [flat_map] in *.
    destruct (head_of_tokens c) as (t & ts & Et & Hh). rewrite Et in *.
    cbn [app] in *. rewrite <- Hh in Hs, Hn.
    cbn [parse_tokens parse_slash next bind].
    assert (His : is_slash t = false)
      by (unfold is_slash; rewrite Hs; now destruct (negb _)).
    rewrite His. cbn [parse_line_number next bind].
    change (chars "N") with ["N"%char]. rewrite (eqb_str_front _ _ Hn).
    cbn [bind fst snd]. unfold parse_all in Hall. rewrite Hall.
    cbn [bind]. subst n. reflexivity.
Qed.

Lemma parse_line_block_text (b : block) :
  wf_block b = true ->
  block_rereads b = true ->
  parse_line (block_text b) = OK b.
Proof.
  intros Hwf Hr. unfold parse_line.
  rewrite lex_block_block_text by assumption. cbn [bind].
  now apply parse_tokens_block_tokens.
Qed.

(** *** What the lexer promises of its tokens *)

Lemma no_newline_app (a b : str) :
  no_newline (a ++ b) = no_newline a && no_newline b.
Proof. apply forallb_app. Qed.

Lemma lex_token_lexed (c : ascii) (s tok rest : parse_state) :
  is_white c = false ->
  lex_token (c :: s) = OK (tok, rest) ->
  lexed_token tok = true.
Proof.
  intros Hw H. pose proof (lex_token_split _ _ _ H) as [Hne Hs].
  destruct tok as [|x tok]; [contradiction|].
  cbn [app] in Hs. injection Hs as <- Hs.
  revert H. unfold lex_token, lexed_token.
  destruct (is_num_char c) eqn:Ec; intros H.
  - injection H as H'.
    apply (digit_string_split (c :: s)) in H' as [_ Hall]. simpl in Hall.
    now apply andb_true_iff in Hall as [_ Hall].
  - destruct (Ascii.eqb c "("); [reflexivity|].
    destruct (Ascii.eqb c "["); [reflexivity|].
    destruct (Ascii.eqb c ")"); [discriminate|].
    destruct (Ascii.eqb c "]"); [discriminate|].
    injection H as <- _. now rewrite Hw.
Qed.

Lemma lex_all_good (n : nat) :
  forall s acc toks,
    length s <= n ->
    no_newline s = true ->
    forallb good_token acc = true ->
    lex_all s acc = OK toks ->
    forallb good_token toks = true.
Proof.
  induction n as [|n IH]; intros s acc toks Hlen Hnl Hacc H.
  - destruct s; [|simpl in Hlen; lia].
    rewrite lex_all_nil in H. injection H as <-. exact Hacc.
  - destruct s as [|c s];
      [rewrite lex_all_nil in H; injection H as <-; exact Hacc|].
    cbn [length] in Hlen. pose proof Hnl as Hnl'. cbn [no_newline forallb] in Hnl'.
    apply andb_true_iff in Hnl' as [_ Hs].
    destruct (is_white c) eqn:Ec.
    + rewrite lex_all_white in H by exact Ec.
      apply (IH s acc); auto; lia.
    + rewrite lex_all_token in H by exact Ec.
      destruct (lex_token (c :: s)) as [[tok s2]|e] eqn:E; [|discriminate].
      cbn [bind] in H.
      pose proof (lex_token_lexed _ _ _ _ Ec E) as Hl.
      pose proof (lex_token_shorter _ _ _ E) as Hsh. cbn [length] in Hsh.
      apply lex_token_split in E as [_ Es].
      rewrite Es, no_newline_app in Hnl.
      apply andb_true_iff in Hnl as [Ht H2].
      apply (IH s2 (acc ++ [tok])); auto; [lia|].
      rewrite forallb_app, Hacc. unfold good_token at 1. simpl.
      now rewrite Hl, Ht.
Qed.

Lemma lex_block_good (line : str) (toks : list str) :
  no_newline line = true ->
  lex_block line = OK toks ->
  forallb good_token toks = true.
Proof.
  intros Hnl H. rewrite lex_block_lex_all in H.
  now apply (lex_all_good (length line) line [] toks).
Qed.

(** *** What the parser promises of its chunks *)

Lemma no_newline_firstn (k : nat) (s : str) :
  no_newline s = true -> no_newline (firstn k s) = true.
Proof.
  revert k. induction s as [|c s IH]; intros [|k] H; try reflexivity.
  simpl in *. apply andb_true_iff in H as [-> H]. now apply IH.
Qed.

Lemma no_newline_skipn (k : nat) (s : str) :
  no_newline s = true -> no_newline (skipn k s) = true.
Proof.
  revert k. induction s as [|c s IH]; intros [|k] H; try reflexivity; auto.
  simpl in *. apply andb_true_iff in H as [_ H]. now apply IH.
Qed.

Lemma substr_bound (s : str) (pos n : Z) (text : str) :
  (0 <= n)%Z ->
  substr s pos n = OK text ->
  exists k, text = firstn k (skipn (Z.to_nat pos) s) /\ (Z.of_nat k <= n)%Z.
Proof.
  intros Hn. unfold substr.
  destruct (Z.of_nat (length s) <? pos)%Z eqn:E; [discriminate|].
  apply Z.ltb_ge in E. intros H.
  exists (Z.to_nat (Z.min n (Z.of_nat (length s) - pos))).
  split; [congruence|]. lia.
Qed.

Lemma strip_delimiters_text (t text : str) :
  no_newline t = true ->
  strip_delimiters t = OK text ->
  no_newline text = true /\ (Z.of_nat (length text) <= SIZE_MAX)%Z.
Proof.
  intros Hnl H. unfold strip_delimiters in H.
  assert (Hm : (0 <= (Z.of_nat (length t) - 2) mod (SIZE_MAX + 1) < SIZE_MAX + 1)%Z)
    by (apply Z.mod_pos_bound; reflexivity).
  apply substr_bound in H as (k & -> & Hk); [|lia].
  split; [now apply no_newline_firstn, no_newline_skipn|].
  rewrite length_firstn. lia.
Qed.

Lemma line_comment_text (sc : str) (s : token_stream) :
  forallb good_token s = true ->
  no_newline (fst (parse_line_comment_with_delimiter sc s)) = true.
Proof.
  induction s as [|t s IH]; simpl; [reflexivity|]. intros H.
  apply andb_true_iff in H as [Ht Hs].
  destruct (parse_line_comment_with_delimiter sc s) as [text rest].
  simpl in *. rewrite no_newline_app, (IH Hs).
  unfold good_token in Ht. apply andb_true_iff in Ht as [_ ->]. reflexivity.
Qed.

Lemma stoi_range (t : str) (i : Z) : stoi t = OK i -> in_int_range i = true.
Proof.
  unfold stoi.
  destruct (read_sign (skip_space t)) as [neg s1].
  destruct (read_digits s1 0 0) as [[v n] s2].
  destruct n; [discriminate|].
  destruct (in_int_range (if neg then (- v)%Z else v)) eqn:E; [|discriminate].
  intros H. injection H as <-. exact E.
Qed.

Lemma parse_address_wf (c : ascii) (nn : str) (r s' : token_stream) (a : addr) :
  parse_address c (nn :: r) = OK (a, s') ->
  wf_addr c a = true /\ s' = r.
Proof.
  rewrite parse_address_classify. unfold wf_addr.
  destruct (classify c) as [[]|]; [| |discriminate]; cbn [parse_int parse_double].
  - destruct (stoi nn) as [i|e] eqn:E; [|discriminate]. cbn [bind].
    intros H. injection H as <- <-. split; [|reflexivity].
    cbn [make_int_address]. now apply stoi_range in E.
  - destruct (stod nn) as [d|e] eqn:E; [|discriminate]. cbn [bind].
    intros H. injection H as <- <-. split; reflexivity.
Qed.

Lemma length_one (t : str) : (length t =? 1)%nat = true -> t = [front t].
Proof. destruct t as [|c [|c' t]]; try discriminate. reflexivity. Qed.

Lemma single_token_char (c : ascii) :
  lexed_token [c] = true ->
  Ascii.eqb c "[" = false -> Ascii.eqb c "(" = false ->
  eqb_str [c] (chars "%") = false -> eqb_str [c] (chars ";") = false ->
  word_char c = true.
Proof.
  unfold lexed_token, word_char, mem_char.
  cbn [chars list_ascii_of_string existsb eqb_str].
  intros Hl H1 H2 H3 H4. rewrite andb_true_r in H3, H4.
  destruct (is_num_char c) eqn:En.
  - destruct (num_char_facts _ En) as (Hw & Hm & _).
    rewrite Hw. exact (proj2 (negb_true_iff _) Hm).
  - rewrite H1, H2 in *. cbn [orb] in *.
    repeat (apply andb_true_iff in Hl as [Hl ?]).
    repeat match goal with
           | X : negb _ = true |- _ => apply negb_true_iff in X
           end.
    repeat match goal with
           | X : Ascii.eqb c _ = false |- _ => rewrite X; clear X
           end.
    now rewrite H0.
Qed.

(** What [parse_chunk] returns on good tokens: a well-formed chunk that
    starts like the current token, and what is left of the stream; an
    isolated word leaves a token that does not start with a numeric
    character. *)
Lemma parse_chunk_wf (t : str) (s s' : token_stream) (ch : chunk) :
  good_token t = true ->
  forallb good_token s = true ->
  parse_chunk (t :: s) = OK (ch, s') ->
  wf_chunk ch = true /\
  head_char ch = front t /\
  forallb good_token s' = true /\
  match ch with
  | Word _ =>
      s' = s /\
      match s with
      | nn :: _ => is_num_char (front nn) = false
      | [] => False
      end
  | _ => True
  end.
Proof.
  intros Ht Hs. unfold good_token in Ht.
  apply andb_true_iff in Ht as [Hlex Hnl].
  unfold parse_chunk.
  destruct (Ascii.eqb (front t) "[") eqn:E1.
  { destruct (strip_delimiters t) as [text|e] eqn:E; [|discriminate].
    cbn [bind]. intros H. injection H as <- <-.
    destruct (strip_delimiters_text _ _ Hnl E) as [Hn Hlen].
    apply Z.leb_le in Hlen. apply Ascii.eqb_eq in E1.
    repeat split; auto. cbn [wf_chunk]. rewrite Hn, Hlen. reflexivity. }
  destruct (Ascii.eqb (front t) "(") eqn:E2.
  { destruct (strip_delimiters t) as [text|e] eqn:E; [|discriminate].
    cbn [bind]. intros H. injection H as <- <-.
    destruct (strip_delimiters_text _ _ Hnl E) as [Hn Hlen].
    apply Z.leb_le in Hlen. apply Ascii.eqb_eq in E2.
    repeat split; auto. cbn [wf_chunk]. rewrite Hn, Hlen. reflexivity. }
  destruct (eqb_str t (chars "%")) eqn:E3.
  { intros H. injection H as <- <-. apply eqb_str_eq in E3. subst t.
    repeat split; auto. }
  destruct (eqb_str t (chars ";")) eqn:E4.
  { pose proof (line_comment_rest (chars ";") s) as Hr.
    pose proof (line_comment_text (chars ";") s Hs) as Hn.
    destruct (parse_line_comment_with_delimiter (chars ";") s) as [cs rest].
    simpl in Hr, Hn. subst rest. intros H. injection H as <- <-.
    apply eqb_str_eq in E4. subst t.
    repeat split; auto. cbn [wf_chunk]. rewrite Hn. reflexivity. }
  destruct s as [|nn r]; [discriminate|]. cbn [next bind].
  destruct (is_num_char (front nn)) eqn:En; cbn [negb].
  - unfold parse_word_address.
    destruct (length t =? 1)%nat eqn:El; [|discriminate].
    destruct (parse_address (front t) (nn :: r)) as [[a s'']|e] eqn:E;
      [|discriminate].
    cbn [bind]. intros H. injection H as <- <-.
    apply parse_address_wf in E as [Ha ->].
    cbn [forallb] in Hs. apply andb_true_iff in Hs as [_ Hs].
    repeat split; auto.
  - unfold parse_isolated_word.
    destruct (length t =? 1)%nat eqn:El; [|discriminate].
    intros H. injection H as <- <-.
    apply length_one in El.
    repeat split; auto. cbn [wf_chunk make_isolated_word].
    rewrite El in Hlex, E3, E4.
    now apply single_token_char.
Qed.

Lemma parse_all_wf (n : nat) :
  forall s acc cs,
    length s <= n ->
    forallb good_token s = true ->
    parse_all s acc = OK cs ->
    exists cs',
      cs = acc ++ cs' /\
      wf_chunks cs' = true /\
      match s with
      | [] => cs' = []
      | t :: _ => exists c r, cs' = c :: r /\ head_char c = front t
      end.
Proof.
  induction n as [|n IH]; intros s acc cs Hlen Hs H.
  - destruct s; [|simpl in Hlen; lia].
    exists []. injection H as <-. now rewrite app_nil_r.
  - destruct s as [|t s].
    { exists []. injection H as <-. now rewrite app_nil_r. }
    rewrite parse_all_step in H.
    destruct (parse_chunk (t :: s)) as [[ch s']|e] eqn:E; [|discriminate].
    cbn [bind] in H. cbn [forallb] in Hs.
    apply andb_true_iff in Hs as [Ht Hs].
    pose proof (parse_chunk_shorter _ _ _ E) as Hsh. cbn [length] in *.
    destruct (parse_chunk_wf _ _ _ _ Ht Hs E) as (Hwf & Hhead & Hs' & Hword).
    destruct (IH s' (acc ++ [ch]) cs) as (cs'' & Ecs & Hwf'' & Hheads);
      [lia|exact Hs'|exact H|].
    exists (ch :: cs''). rewrite <- app_assoc in Ecs.
    split; [exact Ecs|]. split; [|eauto].
    cbn [wf_chunks]. rewrite Hwf, Hwf''. rewrite andb_true_r. cbn [andb].
    destruct ch; try reflexivity.
    destruct Hword as [-> Hnn]. destruct s as [|nn r]; [contradiction|].
    destruct Hheads as (c & r' & -> & Hc). cbn [follows_word].
    now rewrite Hc, Hnn.
Qed.

Lemma head_not_char (t : str) (c : ascii) :
  lexed_token t = true ->
  is_num_char c = false ->
  mem_char c (chars "([") = false ->
  eqb_str t [c] = false ->
  Ascii.eqb (front t) c = false.
Proof.
  intros Hl Hn Hm Ht.
  destruct (Ascii.eqb (front t) c) eqn:E; [|reflexivity].
  apply Ascii.eqb_eq in E. exfalso.
  destruct t as [|x t]; [discriminate|]. cbn [front hd] in E. subst x.
  unfold lexed_token in Hl. rewrite Hn in Hl.
  unfold mem_char in Hm. cbn [chars list_ascii_of_string existsb] in Hm.
  rewrite orb_false_r in Hm. rewrite Hm in Hl.
  apply andb_true_iff in Hl as [_ Hl].
  destruct t; [|discriminate].
  simpl in Ht. now rewrite Ascii.eqb_refl in Ht.
Qed.

Lemma parse_tokens_wf (toks : list str) (b : block) :
  forallb good_token toks = true ->
  parse_tokens toks = OK b ->
  wf_block b = true.
Proof.
  intros Hgood. unfold parse_tokens.
  destruct toks as [|t1 s]; [intros H; injection H as <-; reflexivity|].
  cbn [parse_slash next bind].
  pose proof Hgood as Hg. cbn [forallb] in Hg.
  apply andb_true_iff in Hg as [Ht1 Hs].
  assert (Hfinish :
    forall (sl : bool) (s1 : token_stream),
      forallb good_token s1 = true ->
      (sl = false ->
       match s1 with
       | t :: _ => is_slash t = false
       | [] => True
       end) ->
      ('(line_no, s2) <- parse_line_number s1 ;;
       chunks <- parse_chunks (length s2) s2 [] ;;
       if fst line_no then OK (block_numbered (snd line_no) sl chunks)
       else OK (block_plain sl chunks)) = OK b ->
      wf_block b = true).
  { intros sl s1 Hs1 Hsl. unfold parse_line_number.
    destruct s1 as [|t s1]; [discriminate|]. cbn [next bind tl].
    cbn [forallb] in Hs1. apply andb_true_iff in Hs1 as [Ht Hs1].
    destruct (eqb_str t (chars "N")) eqn:EN.
    - unfold parse_int. destruct s1 as [|num s1]; [discriminate|].
      destruct (stoi num) as [ln|e] eqn:Eln; [|discriminate]. cbn [bind fst snd].
      cbn [forallb] in Hs1. apply andb_true_iff in Hs1 as [_ Hs1].
      fold (parse_all s1 []).
      destruct (parse_all s1 []) as [cs|e] eqn:Ecs; [|discriminate].
      cbn [bind]. intros H. injection H as <-.
      destruct (parse_all_wf (length s1) s1 [] cs) as (cs' & -> & Hwf & _);
        auto.
      unfold wf_block, block_numbered.
      cbn [debug_text has_line_no line_no chunks slashed_out app eqb_str].
      rewrite (stoi_range _ _ Eln), Hwf. cbn [andb]. now rewrite orb_true_r.
    - cbn [bind fst snd]. fold (parse_all (t :: s1) []).
      destruct (parse_all (t :: s1) []) as [cs|e] eqn:Ecs; [|discriminate].
      cbn [bind]. intros H. injection H as <-.
      destruct (parse_all_wf (length (t :: s1)) (t :: s1) [] cs)
        as (cs' & -> & Hwf & c & r & -> & Hc); auto.
      { cbn [forallb]. now rewrite Ht, Hs1. }
      unfold good_token in Ht. apply andb_true_iff in Ht as [Hlex _].
      assert (F2 : Ascii.eqb (front t) "N" = false)
        by (apply (head_not_char t "N" Hlex); try reflexivity; exact EN).
      unfold wf_block, block_plain.
      cbn [debug_text has_line_no line_no chunks slashed_out app eqb_str].
      rewrite Hwf. destruct sl; [reflexivity|].
      assert (F1 : Ascii.eqb (front t) "/" = false).
      { apply (head_not_char t "/" Hlex); try reflexivity.
        specialize (Hsl eq_refl). cbn in Hsl. unfold is_slash in Hsl.
        destruct t as [|x [|y t]];
          [reflexivity| |simpl; now destruct (Ascii.eqb x "/")].
        cbn [length Nat.eqb negb front hd] in Hsl. simpl. now rewrite Hsl. }
      cbn [plain_head]. rewrite Hc, F1, F2. reflexivity. }
  destruct (is_slash t1) eqn:Esl; cbn [tl].
  - apply Hfinish; [exact Hs|discriminate].
  - apply Hfinish; [exact Hgood|]. intros _. exact Esl.
Qed.

Lemma parse_line_wf (line : str) (b : block) :
  no_newline line = true ->
  parse_line line = OK b ->
  wf_block b = true.
Proof.
  intros Hnl. unfold parse_line.
  destruct (lex_block line) as [toks|e] eqn:E; [|discriminate]. cbn [bind].
  apply parse_tokens_wf. now apply lex_block_good in E.
Qed.

(** *** The lines of a text *)

Lemma lex_gprog_lines (text : str) :
  lex_gprog text = traverse parse_line (filter nonblank (split_lines text)).
Proof.
  unfold lex_gprog. rewrite lex_gprog_loop_lines by lia.
  destruct (traverse parse_line _); reflexivity.
Qed.

Lemma split_lines_no_newline (s : str) :
  forallb no_newline (split_lines s) = true.
Proof.
  induction s as [|c s IH]; [reflexivity|]. cbn [split_lines].
  destruct (Ascii.eqb c newline) eqn:E; [exact IH|].
  destruct (split_lines s) as [|l ls]; [simpl; now rewrite E|].
  cbn [forallb no_newline] in *. now rewrite E.
Qed.

Lemma split_lines_app (l rest : str) :
  no_newline l = true ->
  split_lines (l ++ newline :: rest) = l :: split_lines rest.
Proof.
  induction l as [|c l IH]; intros H.
  - reflexivity.
  - cbn [no_newline forallb] in H. apply andb_true_iff in H as [Hc Hl].
    apply negb_true_iff in Hc. cbn [app split_lines].
    now rewrite Hc, IH.
Qed.

Lemma traverse_wf (ls : list str) :
  forall bs,
    forallb no_newline ls = true ->
    traverse parse_line ls = OK bs ->
    forallb wf_block bs = true.
Proof.
  induction ls as [|l ls IH]; intros bs Hnl H.
  - injection H as <-. reflexivity.
  - cbn [traverse] in H. cbn [forallb] in Hnl.
    apply andb_true_iff in Hnl as [Hl Hls].
    destruct (parse_line l) as [b|e] eqn:Eb; [|discriminate]. cbn [bind] in H.
    destruct (traverse parse_line ls) as [bs'|e]; [|discriminate].
    cbn [bind] in H. injection H as <-. cbn [forallb].
    now rewrite (parse_line_wf _ _ Hl Eb), (IH bs').
Qed.

Lemma forallb_filter {A : Type} (p q : A -> bool) (l : list A) :
  forallb p l = true -> forallb p (filter q l) = true.
Proof.
  induction l as [|x l IH]; [reflexivity|]. cbn [forallb filter]. intros H.
  apply andb_true_iff in H as [Hx Hl].
  destruct (q x); cbn [forallb]; [rewrite Hx|]; auto.
Qed.

(** Every block that [lex_gprog] returns is well formed. *)
Lemma lex_gprog_wf (text : str) (bs : list block) :
  lex_gprog text = OK bs -> forallb wf_block bs = true.
Proof.
  rewrite lex_gprog_lines. apply traverse_wf.
  apply forallb_filter, split_lines_no_newline.
Qed.

(** *** The rendering of well-formed blocks *)

Lemma addr_print_text (w : ascii) (a : addr) :
  wf_addr w a = true -> addr_print a = OK (addr_text a).
Proof.
  unfold wf_addr.
  destruct (classify w) as [[]|]; [| |discriminate];
    destruct a as [[] [d|i]]; try discriminate; reflexivity.
Qed.

Lemma chunk_print_text (c : chunk) :
  wf_chunk c = true -> chunk_print c = OK (chunk_text c).
Proof.
  destruct c as [l r text|w a| |w]; try reflexivity.
  cbn [wf_chunk chunk_print chunk_text]. intros H.
  now rewrite (addr_print_text _ _ H).
Qed.

Lemma print_chunks_text (cs : list chunk) :
  wf_chunks cs = true -> print_chunks cs = OK (chunks_text cs).
Proof.
  induction cs as [|c cs IH]; [reflexivity|]. intros H.
  apply wf_chunks_cons in H as (Hc & _ & Hcs).
  cbn [print_chunks chunks_text].
  now rewrite (chunk_print_text _ Hc), (IH Hcs).
Qed.

Lemma block_print_text (b : block) :
  wf_block b = true -> block_print b = OK (block_text b).
Proof.
  intros H. apply wf_block_parts in H as (_ & _ & Hcs & _).
  unfold block_print, block_text, line_number, has_line_number.
  rewrite (print_chunks_text _ Hcs).
  destruct (has_line_no b); reflexivity.
Qed.

Lemma print_blocks_text (bs : list block) :
  forallb wf_block bs = true -> print_blocks bs = OK (program_text bs).
Proof.
  induction bs as [|b bs IH]; [reflexivity|]. cbn [forallb]. intros H.
  apply andb_true_iff in H as [Hb Hbs].
  cbn [print_blocks program_text].
  now rewrite (block_print_text _ Hb), (IH Hbs).
Qed.

Lemma numeric_no_newline (s : str) :
  forallb is_num_char s = true -> no_newline s = true.
Proof.
  induction s as [|c s IH]; [reflexivity|]. cbn [forallb no_newline].
  intros H. apply andb_true_iff in H as [Hc Hs].
  destruct (num_char_facts _ Hc) as (_ & _ & -> & _). now apply IH.
Qed.

Lemma chunk_text_no_newline (c : chunk) :
  wf_chunk c = true ->
  chunk_rereads c = true ->
  no_newline (chunk_text c) = true.
Proof.
  intros Hwf Hr. destruct c as [l r text|w a| |w].
  - cbn [wf_chunk] in Hwf. apply andb_true_iff in Hwf as [Hn Hlr].
    cbn [chunk_text]. change (l :: text ++ [r]) with ([l] ++ text ++ [r]).
    rewrite !no_newline_app, Hn.
    apply orb_true_iff in Hlr as [Hlr|Hlr];
      [apply orb_true_iff in Hlr as [Hlr|Hlr]|];
      repeat (apply andb_true_iff in Hlr as [Hlr ?]);
      repeat match goal with
             | X : Ascii.eqb _ _ = true |- _ => apply Ascii.eqb_eq in X
             end; subst; reflexivity.
  - cbn [wf_chunk] in Hwf.
    destruct (addr_text_numeric _ _ Hwf Hr) as [Hall _].
    assert (Hk : exists k, classify w = Some k).
    { unfold wf_addr in Hwf. destruct (classify w); [eauto|discriminate]. }
    destruct Hk as [k Hk].
    destruct (classified_facts _ _ Hk) as (_ & _ & Hw & _).
    cbn [chunk_text no_newline forallb]. rewrite Hw.
    now apply numeric_no_newline.
  - reflexivity.
  - cbn [wf_chunk] in Hwf. unfold word_char in Hwf.
    apply andb_true_iff in Hwf as [Hw _]. apply negb_true_iff in Hw.
    cbn [chunk_text no_newline forallb].
    pose proof (white_or_newline w) as F. rewrite Hw in F.
    destruct (Ascii.eqb w newline); [discriminate|reflexivity].
Qed.

Lemma chunks_text_no_newline (cs : list chunk) :
  wf_chunks cs = true ->
  forallb chunk_rereads cs = true ->
  no_newline (chunks_text cs) = true.
Proof.
  induction cs as [|c cs IH]; [reflexivity|]. intros Hwf Hr.
  apply wf_chunks_cons in Hwf as (Hc & _ & Hcs).
  cbn [forallb] in Hr. apply andb_true_iff in Hr as [Hrc Hrs].
  cbn [chunks_text]. rewrite no_newline_app, (chunk_text_no_newline _ Hc Hrc).
  cbn [no_newline forallb andb]. now apply IH.
Qed.

Lemma block_text_no_newline (b : block) :
  wf_block b = true ->
  block_rereads b = true ->
  no_newline (block_text b) = true.
Proof.
  intros Hwf Hr.
  apply wf_block_parts in Hwf as (_ & Hln & Hcs & _).
  apply block_rereads_parts in Hr as (_ & _ & Hrs).
  unfold block_text. destruct (has_line_no b).
  - rewrite block_text_numbered. apply chunks_text_no_newline.
    + now apply wf_chunks_numbered.
    + exact Hrs.
  - now apply chunks_text_no_newline.
Qed.

Lemma block_text_nonblank (b : block) :
  block_rereads b = true -> nonblank (block_text b) = true.
Proof.
  intros Hr. apply block_rereads_parts in Hr as (_ & Hne & _).
  unfold block_text. destruct (has_line_no b); [reflexivity|].
  destruct Hne as [Hne|Hne]; [discriminate|].
  destruct (chunks b) as [|c cs]; [contradiction|].
  cbn [app chunks_text]. destruct c; reflexivity.
Qed.

Lemma lex_gprog_program_text (bs : list block) :
  forallb wf_block bs = true ->
  forallb block_rereads bs = true ->
  lex_gprog (program_text bs) = OK bs.
Proof.
  intros Hwf Hr. rewrite lex_gprog_lines.
  induction bs as [|b bs IH]; [reflexivity|].
  cbn [forallb] in Hwf, Hr.
  apply andb_true_iff in Hwf as [Hb Hbs]. apply andb_true_iff in Hr as [Hrb Hrs].
  cbn [program_text].
  rewrite split_lines_app by (now apply block_text_no_newline).
  cbn [filter]. rewrite (block_text_nonblank _ Hrb). cbn [traverse].
  rewrite (parse_line_block_text _ Hb Hrb). cbn [bind].
  now rewrite (IH Hbs Hrs).
Qed.

(** C1, amended: when a program text parses to blocks that are all not
    deleted, each with a line number or a chunk, none with a ';'
    comment, with parenthesis and bracket comments whose inner
    delimiters are balanced (the lexer reads the rendered comment back
    as one token) and with double values whose rendering is a plain
    decimal numeral that converts back to the same double, then the
    program renders, and parsing the rendering gives exactly the blocks
    of the first parse. *)
Theorem render_reparse_stable (text : str) (p : gcode_program) :
  parse_gcode text = OK p ->
  forallb block_rereads (blocks p) = true ->
  exists rendered,
    program_print p = OK rendered /\
    parse_gcode rendered = OK p.
Proof.
  unfold parse_gcode, program_print. intros Hparse Hr.
  destruct (lex_gprog text) as [bs|e] eqn:E; [|discriminate].
  cbn [bind] in Hparse. injection Hparse as <-. cbn [blocks] in *.
  pose proof (lex_gprog_wf _ _ E) as Hwf.
  exists (program_text bs). split; [now apply print_blocks_text|].
  now rewrite lex_gprog_program_text.
Qed.

Lemma render_reparse_stable_witness :
  parse_gcode sample_text = OK sample_program /\
  forallb block_rereads (blocks sample_program) = true /\
  exists rendered,
    program_print sample_program = OK rendered /\
    parse_gcode rendered = OK sample_program.
Proof.
  assert (H1 : parse_gcode sample_text = OK sample_program)
    by (vm_compute; reflexivity).
  assert (H2 : forallb block_rereads (blocks sample_program) = true)
    by (vm_compute; reflexivity).
  split; [exact H1|]. split; [exact H2|].
  exact (render_reparse_stable sample_text sample_program H1 H2).
Defined.

(** ** The loops terminate within their fuel *)

Lemma comment_loop_total (sc ec : ascii) (s : parse_state) :
  forall depth text, comment_loop sc ec depth text s <> Err OutOfFuel.
Proof.
  induction s as [|c s IH]; intros depth text; [discriminate|].
  cbn [comment_loop].
  destruct (if Ascii.eqb c sc then int_succ depth
            else if Ascii.eqb c ec then int_pred depth else OK depth)
    as [d|e] eqn:E.
  - cbn [bind]. destruct (chars_left s && (0 <? d)%Z); [apply IH|discriminate].
  - cbn [bind]. unfold int_succ, int_pred in E.
    destruct (Ascii.eqb c sc);
      [destruct (depth <? INT_MAX)%Z; congruence|].
    destruct (Ascii.eqb c ec);
      [destruct (INT_MIN <? depth)%Z; congruence|discriminate].
Qed.

Lemma lex_token_total (s : parse_state) : lex_token s <> Err OutOfFuel.
Proof.
  unfold lex_token. destruct s as [|c s]; [discriminate|].
  destruct (is_num_char c); [discriminate|].
  destruct (Ascii.eqb c "("); [apply comment_loop_total|].
  destruct (Ascii.eqb c "["); [apply comment_loop_total|].
  destruct (Ascii.eqb c ")"); [discriminate|].
  destruct (Ascii.eqb c "]"); discriminate.
Qed.

Lemma lex_all_total (n : nat) :
  forall s tokens, length s <= n -> lex_all s tokens <> Err OutOfFuel.
Proof.
  induction n as [|n IH]; intros s tokens Hlen.
  - destruct s; [discriminate|simpl in Hlen; lia].
  - destruct s as [|c s]; [discriminate|]. cbn [length] in Hlen.
    destruct (is_white c) eqn:Ec.
    + rewrite lex_all_white by exact Ec. apply IH. lia.
    + rewrite lex_all_token by exact Ec.
      pose proof (lex_token_total (c :: s)) as Ht.
      destruct (lex_token (c :: s)) as [[tok s2]|e] eqn:E;
        [|cbn [bind]; congruence].
      cbn [bind]. apply IH.
      apply lex_token_shorter in E. cbn [length] in E. lia.
Qed.

Lemma lex_block_total (block_text : str) : lex_block block_text <> Err OutOfFuel.
Proof.
  rewrite lex_block_lex_all. now apply (lex_all_total (length block_text)).
Qed.

Lemma substr_total (s : str) (pos n : Z) : substr s pos n <> Err OutOfFuel.
Proof. unfold substr. destruct (_ <? _)%Z; discriminate. Qed.

Lemma parse_address_total (c : ascii) (s : token_stream) :
  parse_address c s <> Err OutOfFuel.
Proof.
  rewrite parse_address_classify.
  destruct (classify c) as [[]|]; [| |discriminate];
    destruct s as [|t s]; try discriminate; simpl.
  - destruct (stoi_error t) as [-> | [i ->]]; discriminate.
  - destruct (stod_error t) as [-> | [d ->]]; discriminate.
Qed.

Lemma parse_chunk_total (s : token_stream) : parse_chunk s <> Err OutOfFuel.
Proof.
  unfold parse_chunk, strip_delimiters. destruct s as [|t s]; [discriminate|].
  destruct (Ascii.eqb (front t) "[").
  { pose proof (substr_total t 1 ((Z.of_nat (length t) - 2) mod (SIZE_MAX + 1))).
    destruct (substr t 1 _); [discriminate|cbn [bind]; congruence]. }
  destruct (Ascii.eqb (front t) "(").
  { pose proof (substr_total t 1 ((Z.of_nat (length t) - 2) mod (SIZE_MAX + 1))).
    destruct (substr t 1 _); [discriminate|cbn [bind]; congruence]. }
  destruct (eqb_str t (chars "%")); [discriminate|].
  destruct (eqb_str t (chars ";")).
  { destruct (parse_line_comment_with_delimiter (chars ";") s). discriminate. }
  destruct s as [|nn s]; [discriminate|]. cbn [next bind].
  destruct (negb (is_num_char (front nn))).
  - unfold parse_isolated_word. destruct (length t =? 1)%nat; discriminate.
  - unfold parse_word_address. destruct (length t =? 1)%nat; [|discriminate].
    pose proof (parse_address_total (front t) (nn :: s)).
    destruct (parse_address (front t) (nn :: s)) as [[a s'']|e];
      [discriminate|cbn [bind]; congruence].
Qed.

Lemma parse_all_total (n : nat) :
  forall s cs, length s <= n -> parse_all s cs <> Err OutOfFuel.
Proof.
  induction n as [|n IH]; intros s cs Hlen.
  - destruct s; [discriminate|simpl in Hlen; lia].
  - destruct s as [|t s]; [discriminate|]. cbn [length] in Hlen.
    rewrite parse_all_step.
    pose proof (parse_chunk_total (t :: s)) as Ht.
    destruct (parse_chunk (t :: s)) as [[ch s']|e] eqn:E;
      [|cbn [bind]; congruence].
    cbn [bind]. apply IH.
    apply parse_chunk_shorter in E. cbn [length] in E. lia.
Qed.

Lemma parse_tokens_total (tokens : list str) : parse_tokens tokens <> Err OutOfFuel.
Proof.
  unfold parse_tokens. destruct tokens as [|t1 s]; [discriminate|].
  cbn [parse_slash next bind].
  assert (Hrest : forall sl s1,
    ('(line_no, s2) <- parse_line_number s1 ;;
     chunks <- parse_chunks (length s2) s2 [] ;;
     if fst line_no then OK (block_numbered (snd line_no) sl chunks)
     else OK (block_plain sl chunks)) <> Err OutOfFuel).
  { intros sl s1. unfold parse_line_number.
    destruct s1 as [|t s1]; [discriminate|]. cbn [next bind tl].
    destruct (eqb_str t (chars "N")).
    - unfold parse_int. destruct s1 as [|num s1]; [discriminate|].
      destruct (stoi_error num) as [-> | [i ->]]; [discriminate|].
      cbn [bind fst snd]. fold (parse_all s1 []).
      pose proof (parse_all_total (length s1) s1 [] (le_n _)).
      destruct (parse_all s1 []); [discriminate|cbn [bind]; congruence].
    - cbn [bind fst snd]. fold (parse_all (t :: s1) []).
      pose proof (parse_all_total (length (t :: s1)) (t :: s1) [] (le_n _)).
      destruct (parse_all (t :: s1) []); [discriminate|cbn [bind]; congruence]. }
  destruct (is_slash t1); apply Hrest.
Qed.

Lemma parse_line_total (line : str) : parse_line line <> Err OutOfFuel.
Proof.
  unfold parse_line. pose proof (lex_block_total line).
  destruct (lex_block line); [|cbn [bind]; congruence].
  cbn [bind]. apply parse_tokens_total.
Qed.

(** The fuel of the three loops is never used up: no text makes
    [lex_gprog] stop for lack of fuel. *)
Lemma lex_gprog_total (text : str) : lex_gprog text <> Err OutOfFuel.
Proof.
  rewrite lex_gprog_lines.
  induction (filter nonblank (split_lines text)) as [|l ls IH]; [discriminate|].
  cbn [traverse]. pose proof (parse_line_total l).
  destruct (parse_line l); [|cbn [bind]; congruence].
  cbn [bind]. destruct (traverse parse_line ls); [discriminate|].
  cbn [bind]. congruence.
Qed.

(** * Further properties of the code *)

(** ** The lexer *)

(** X1: on a stream that starts with '[', the lexer returns one token
    that starts the stream and keeps both outer brackets; only '[' and
    ']' move the depth, which is positive after every proper part of
    the token and 0 at its end unless the stream ends first.  Parsing a
    token that starts with '[' gives the comment chunk with the
    delimiters '[' and ']' whose text is the token without its first
    and its last character. *)
Theorem nested_bracket_comment :
  (forall s : parse_state,
     (Z.of_nat (length s) < INT_MAX)%Z ->
     exists tok rest,
       lex_token ("["%char :: s) = OK (tok, rest) /\
       "["%char :: s = tok ++ rest /\
       front tok = "["%char /\
       (forall p q, tok = p ++ q -> p <> [] -> q <> [] ->
                    (0 < nesting "[" "]" p)%Z) /\
       (rest = [] \/ nesting "[" "]" tok = 0%Z)) /\
  (forall (tok : str) (rest : token_stream),
     front tok = "["%char ->
     (Z.of_nat (length tok) <= SIZE_MAX)%Z ->
     parse_chunk (tok :: rest) =
       OK (Comment "[" "]" (removelast (tl tok)), rest)).
Proof.
  split.
  - intros s Hlen.
    destruct (comment_loop_spec "[" "]" ("["%char :: s) 0 [])
      as (tok & rest & Hrun & Hsplit & Htok & Hpre & Hend);
      [discriminate|lia|cbn [length]; lia|].
    exists tok, rest. split; [exact Hrun|]. split; [exact Hsplit|].
    split.
    { destruct tok as [|c tok]; [contradiction|].
      injection Hsplit as <- _. reflexivity. }
    split; [intros p q Hpq Hp Hq; now apply (Hpre p q)|].
    destruct Hend as [->|Hend]; [now left|right].
    destruct (exists_last Htok) as (p & c & ->).
    rewrite nesting_app in *. cbn [nesting] in *.
    pose proof (delta_bounds "[" "]" c) as Hc.
    destruct p as [|c' p].
    + simpl in Hsplit. injection Hsplit as <- _.
      change (delta "[" "]" "[") with 1%Z in Hend. cbn [nesting] in Hend. lia.
    + assert (0 < nesting "[" "]" (c' :: p))%Z
        by (apply (Hpre (c' :: p) [c]); [reflexivity|discriminate|discriminate]).
      lia.
  - intros tok rest Hfront Hlen. unfold parse_chunk.
    rewrite Hfront. change (Ascii.eqb "[" "[") with true. cbv iota.
    rewrite strip_delimiters_spec; [reflexivity| |exact Hlen].
    intros ->. discriminate.
Qed.

Lemma nested_bracket_comment_witness :
  (exists tok rest,
     lex_token (chars "[a (b [c] d] G1") = OK (tok, rest) /\
     chars "[a (b [c] d] G1" = tok ++ rest /\
     (rest = [] \/ nesting "[" "]" tok = 0%Z)) /\
  parse_chunk [chars "[a (b [c] d]"; chars "G"; chars "1"] =
    OK (Comment "[" "]" (chars "a (b [c] d"), [chars "G"; chars "1"]).
Proof.
  destruct nested_bracket_comment as (Hlex & Hparse).
  split.
  - destruct (Hlex (chars "a (b [c] d] G1")) as (tok & rest & H1 & H2 & _ & _ & H3).
    + vm_compute. reflexivity.
    + exists tok, rest. auto.
  - apply (Hparse (chars "[a (b [c] d]")).
    + reflexivity.
    + vm_compute. discriminate.
Defined.

Lemma digit_string_rest (s : parse_state) :
  match snd (digit_string s) with
  | c :: _ => is_num_char c = false
  | [] => True
  end.
Proof.
  induction s as [|c s IH]; simpl; [exact I|].
  destruct (is_num_char c) eqn:Ec; [|exact Ec].
  destruct (digit_string s). exact IH.
Qed.

(** X2: a token that starts with a digit, '.' or '-' is the longest run
    of such characters at the start of the stream, whatever its shape:
    the lexer does not check that the run is a number. *)
Theorem numeric_token_is_maximal (c : ascii) (s : parse_state) :
  is_num_char c = true ->
  exists tok rest,
    lex_token (c :: s) = OK (tok, rest) /\
    c :: s = tok ++ rest /\
    tok <> [] /\
    forallb is_num_char tok = true /\
    match rest with
    | x :: _ => is_num_char x = false
    | [] => True
    end.
Proof.
  intros Hc. unfold lex_token. rewrite Hc.
  pose proof (digit_string_rest (c :: s)) as Hrest.
  destruct (digit_string (c :: s)) as [tok rest] eqn:E.
  destruct (digit_string_split _ _ _ E) as [Hs Hall].
  exists tok, rest. repeat split; auto.
  intros ->. simpl in E. rewrite Hc in E. destruct (digit_string s).
  discriminate.
Qed.

Lemma numeric_token_is_maximal_witness :
  exists tok rest,
    lex_token (chars "-1.5-.2X") = OK (tok, rest) /\
    chars "-1.5-.2X" = tok ++ rest /\
    tok <> [] /\
    forallb is_num_char tok = true /\
    match rest with
    | x :: _ => is_num_char x = false
    | [] => True
    end.
Proof. apply (numeric_token_is_maximal "-" (chars "1.5-.2X")). reflexivity. Defined.

Lemma tokens_of_white (c : ascii) (s : str) (toks : list str) :
  is_white c = true -> tokens_of s toks -> tokens_of (c :: s) toks.
Proof.
  intros Hc H. destruct H as [ws Hws|ws t rest toks Hws Ht Hf Hrest].
  - apply tokens_end. simpl. now rewrite Hc.
  - change (c :: ws ++ t ++ rest) with ((c :: ws) ++ t ++ rest).
    apply tokens_cons; auto. simpl. now rewrite Hc.
Qed.

Lemma lex_all_tokens_of (n : nat) :
  forall s acc toks,
    length s <= n ->
    lex_all s acc = OK toks ->
    exists toks',
      toks = acc ++ toks' /\
      tokens_of s toks' /\
      forallb lexed_token toks' = true.
Proof.
  induction n as [|n IH]; intros s acc toks Hlen H.
  - destruct s; [|simpl in Hlen; lia]. rewrite lex_all_nil in H.
    injection H as <-. exists []. rewrite app_nil_r.
    repeat split. now apply tokens_end.
  - destruct s as [|c s].
    { rewrite lex_all_nil in H. injection H as <-. exists [].
      rewrite app_nil_r. repeat split. now apply tokens_end. }
    cbn [length] in Hlen. destruct (is_white c) eqn:Ec.
    + rewrite lex_all_white in H by exact Ec.
      destruct (IH s acc toks) as (toks' & E & Ht & Hl); [lia|exact H|].
      exists toks'. repeat split; auto. now apply tokens_of_white.
    + rewrite lex_all_token in H by exact Ec.
      destruct (lex_token (c :: s)) as [[tok s2]|e] eqn:E; [|discriminate].
      cbn [bind] in H.
      pose proof (lex_token_lexed _ _ _ _ Ec E) as Hlex.
      pose proof (lex_token_shorter _ _ _ E) as Hsh. cbn [length] in Hsh.
      destruct (lex_token_split _ _ _ E) as [Hne Hs].
      destruct (IH s2 (acc ++ [tok]) toks) as (toks' & Et & Ht & Hl);
        [lia|exact H|].
      exists (tok :: toks'). rewrite <- app_assoc in Et.
      split; [exact Et|]. split.
      * rewrite Hs. apply (tokens_cons [] tok s2 toks'); auto.
        destruct tok as [|x tok]; [contradiction|].
        injection Hs as <- _. exact Ec.
      * cbn [forallb]. now rewrite Hlex, Hl.
Qed.

(** X3: when a line lexes, its tokens are pieces of the line, in order,
    and what lies before, between and after them is white space only:
    the lexer drops white space between tokens and nothing else, and
    changes no character.  Each token is a run of numeric characters, a
    comment token that starts with '(' or '[', or one character that is
    neither white space nor a closing delimiter. *)
Theorem lex_block_tokens_of (line : str) (toks : list str) :
  lex_block line = OK toks ->
  tokens_of line toks /\ forallb lexed_token toks = true.
Proof.
  intros H. rewrite lex_block_lex_all in H.
  destruct (lex_all_tokens_of (length line) line [] toks (le_n _) H)
    as (toks' & -> & Ht & Hl).
  split; assumption.
Qed.

Lemma lex_block_tokens_of_witness :
  tokens_of (chars "  G1 (a b)  x") [chars "G"; chars "1"; chars "(a b)"; chars "x"] /\
  forallb lexed_token [chars "G"; chars "1"; chars "(a b)"; chars "x"] = true.
Proof.
  apply (lex_block_tokens_of (chars "  G1 (a b)  x")). reflexivity.
Defined.

Lemma lex_token_error (c : ascii) (s : parse_state) (e : error) :
  (Z.of_nat (length (c :: s)) <= INT_MAX)%Z ->
  lex_token (c :: s) = Err e ->
  e = LexError /\ is_closer c = true.
Proof.
  intros Hlen. unfold lex_token, is_closer.
  destruct (is_num_char c); [discriminate|].
  destruct (Ascii.eqb c "(") eqn:E1.
  { destruct (comment_loop_spec "(" ")" (c :: s) 0 [])
      as (tok & rest & Hrun & _); [discriminate|lia|lia|].
    unfold parse_comment_with_delimiters. rewrite Hrun. discriminate. }
  destruct (Ascii.eqb c "[") eqn:E2.
  { destruct (comment_loop_spec "[" "]" (c :: s) 0 [])
      as (tok & rest & Hrun & _); [discriminate|lia|lia|].
    unfold parse_comment_with_delimiters. rewrite Hrun. discriminate. }
  destruct (Ascii.eqb c ")"); [intros H; injection H as <-; auto|].
  destruct (Ascii.eqb c "]"); [intros H; injection H as <-; auto|].
  discriminate.
Qed.

Lemma lex_all_error (n : nat) :
  forall s acc,
    length s <= n ->
    (Z.of_nat (length s) <= INT_MAX)%Z ->
    (forall e, lex_all s acc = Err e -> e = LexError) /\
    (forallb (fun c => negb (is_closer c)) s = true ->
     exists toks, lex_all s acc = OK toks).
Proof.
  induction n as [|n IH]; intros s acc Hlen Hmax.
  - destruct s; [|simpl in Hlen; lia].
    split; [discriminate|]. intros _. now exists acc.
  - destruct s as [|c s].
    { split; [discriminate|]. intros _. now exists acc. }
    cbn [length] in Hlen. destruct (is_white c) eqn:Ec.
    + rewrite lex_all_white by exact Ec.
      destruct (IH s acc) as [He Hok]; [lia|cbn [length] in Hmax; lia|].
      split; [exact He|]. intros Hc. apply Hok.
      cbn [forallb] in Hc. now apply andb_true_iff in Hc as [_ Hc].
    + rewrite lex_all_token by exact Ec.
      destruct (lex_token (c :: s)) as [[tok s2]|e0] eqn:E.
      * cbn [bind].
        pose proof (lex_token_shorter _ _ _ E) as Hsh. cbn [length] in Hsh.
        destruct (lex_token_split _ _ _ E) as [_ Hs].
        destruct (IH s2 (acc ++ [tok])) as [He Hok];
          [lia|cbn [length] in Hmax; lia|].
        split; [exact He|]. intros Hc. apply Hok.
        rewrite Hs, forallb_app in Hc.
        now apply andb_true_iff in Hc as [_ Hc].
      * cbn [bind]. destruct (lex_token_error _ _ _ Hmax E) as [-> Hcl].
        split; [intros e H; now injection H as <-|].
        intros Hc. cbn [forallb] in Hc. rewrite Hcl in Hc. discriminate.
Qed.

(** X4: on a line short enough for the [int] depth counter, the only
    failure of the lexer is the assertion on a closing delimiter met at
    the start of a token; a line without ')' and ']' always lexes (an
    opened comment simply runs to the end of the line). *)
Theorem lex_block_fails_only_on_closer (line : str) :
  (Z.of_nat (length line) <= INT_MAX)%Z ->
  (forall e, lex_block line = Err e -> e = LexError) /\
  (forallb (fun c => negb (is_closer c)) line = true ->
   exists toks, lex_block line = OK toks).
Proof.
  intros Hmax. rewrite lex_block_lex_all.
  now apply (lex_all_error (length line)).
Qed.

Lemma lex_block_fails_only_on_closer_witness :
  (forall e, lex_block (chars "G1 ) X2") = Err e -> e = LexError) /\
  (exists toks, lex_block (chars "G1 (open [comment") = OK toks).
Proof.
  split.
  - apply (lex_block_fails_only_on_closer (chars "G1 ) X2")).
    vm_compute. discriminate.
  - apply (lex_block_fails_only_on_closer (chars "G1 (open [comment")).
    + vm_compute. discriminate.
    + reflexivity.
Defined.

Lemma lex_all_whites (ws : str) (acc : list str) :
  forallb is_white ws = true -> lex_all ws acc = OK acc.
Proof.
  induction ws as [|c ws IH]; [reflexivity|]. cbn [forallb]. intros H.
  apply andb_true_iff in H as [Hc Hws].
  rewrite lex_all_white by exact Hc. auto.
Qed.

(** The depth loop stops at the same place when the stream is made
    longer, if it stopped in front of a character or at depth 0. *)
Lemma comment_loop_extend (sc ec : ascii) (t : str) :
  forall (depth : Z) (text : str) (r1 : parse_state),
    comment_loop sc ec depth text (t ++ r1) = OK (text ++ t, r1) ->
    (r1 = [] -> (depth + nesting sc ec t <= 0)%Z) ->
    forall r2 : parse_state,
      comment_loop sc ec depth text (t ++ r1 ++ r2) = OK (text ++ t, r1 ++ r2).
Proof.
  induction t as [|c t IH]; intros depth text r1 H Hclosed r2.
  - exfalso. apply comment_loop_split in H as (t0 & E & Ht0 & Es).
    rewrite app_nil_r in E. apply (f_equal (@length ascii)) in E.
    rewrite length_app in E. destruct t0; [contradiction|simpl in E; lia].
  - cbn [app comment_loop nesting] in *.
    assert (Hd : (if Ascii.eqb c sc then int_succ depth
                  else if Ascii.eqb c ec then int_pred depth else OK depth)
                 = OK (depth + delta sc ec c)%Z \/
                 exists e, (if Ascii.eqb c sc then int_succ depth
                  else if Ascii.eqb c ec then int_pred depth else OK depth)
                 = Err e).
    { unfold delta, int_succ, int_pred.
      destruct (Ascii.eqb c sc);
        [destruct (depth <? INT_MAX)%Z; eauto|].
      destruct (Ascii.eqb c ec);
        [destruct (INT_MIN <? depth)%Z; eauto|].
      left. f_equal. lia. }
    destruct Hd as [Hd|[e Hd]]; rewrite Hd in *; [|discriminate].
    cbn [bind] in *.
    destruct (chars_left (t ++ r1) && (0 <? depth + delta sc ec c)%Z) eqn:Hgo.
    + apply andb_true_iff in Hgo as [Hl Hpos].
      assert (Hl2 : chars_left (t ++ r1 ++ r2) = true)
        by (destruct t; [destruct r1; [discriminate|reflexivity]|reflexivity]).
      rewrite Hl2, Hpos. cbn [andb].
      replace (text ++ c :: t) with ((text ++ [c]) ++ t) in *
        by (now rewrite <- app_assoc).
      apply IH; [exact H|]. intros E. specialize (Hclosed E). lia.
    + injection H as H1 H2.
      assert (t = []).
      { apply (f_equal (@length ascii)) in H2. rewrite length_app in H2.
        destruct t; [reflexivity|simpl in H2; lia]. }
      subst t. cbn [app nesting] in *.
      apply andb_false_iff in Hgo as [Hl|Hpos].
      * assert (r1 = []) by (destruct r1; [reflexivity|discriminate]).
        subst r1. specialize (Hclosed eq_refl).
        replace (0 <? depth + delta sc ec c)%Z with false
          by (symmetry; apply Z.ltb_ge; lia).
        now rewrite andb_false_r.
      * rewrite Hpos. now rewrite andb_false_r.
Qed.

Lemma white_not_num (c : ascii) : is_white c = true -> is_num_char c = false.
Proof.
  intros H. destruct (is_num_char c) eqn:E; [|reflexivity].
  destruct (num_char_facts _ E) as (Hw & _). congruence.
Qed.

Lemma lex_token_extend (c : ascii) (s tok s2 ws : parse_state) :
  lex_token (c :: s) = OK (tok, s2) ->
  match ws with x :: _ => is_white x = true | [] => True end ->
  (s2 = [] -> closed_token tok = true) ->
  lex_token ((c :: s) ++ ws) = OK (tok, s2 ++ ws).
Proof.
  intros H Hws Hclosed.
  destruct (lex_token_split _ _ _ H) as [Hne Hs].
  assert (Hfront : front tok = c).
  { destruct tok as [|x tok]; [contradiction|]. now injection Hs as <- _. }
  revert H. unfold lex_token. cbn [app].
  destruct (is_num_char c) eqn:Ec.
  - intros H. injection H as H.
    pose proof (digit_string_rest (c :: s)) as Hrest.
    assert (H' : digit_string (c :: s) = (tok, s2)) by exact H.
    rewrite H' in Hrest. cbn [snd] in Hrest.
    destruct (digit_string_split (c :: s) tok s2 H') as [E Hall].
    change (c :: s ++ ws) with ((c :: s) ++ ws).
    rewrite E, <- app_assoc, digit_string_app; auto.
    destruct s2 as [|x s2]; [|exact Hrest].
    destruct ws as [|w ws]; [exact I|]. cbn [app] in *.
    now apply white_not_num.
  - destruct (Ascii.eqb c "(") eqn:E1.
    { intros H. unfold parse_comment_with_delimiters in *.
      change (c :: s ++ ws) with ((c :: s) ++ ws). rewrite Hs in *.
      rewrite <- app_assoc.
      apply (comment_loop_extend "(" ")" tok 0 [] s2); [exact H|].
      intros E. specialize (Hclosed E). unfold closed_token in Hclosed.
      rewrite Hfront, E1 in Hclosed. apply Z.leb_le in Hclosed. lia. }
    destruct (Ascii.eqb c "[") eqn:E2.
    { intros H. unfold parse_comment_with_delimiters in *.
      change (c :: s ++ ws) with ((c :: s) ++ ws). rewrite Hs in *.
      rewrite <- app_assoc.
      apply (comment_loop_extend "[" "]" tok 0 [] s2); [exact H|].
      intros E. specialize (Hclosed E). unfold closed_token in Hclosed.
      rewrite Hfront, E1, E2 in Hclosed. apply Z.leb_le in Hclosed. lia. }
    destruct (Ascii.eqb c ")"); [discriminate|].
    destruct (Ascii.eqb c "]"); [discriminate|].
    intros H. injection H as <- <-. reflexivity.
Qed.

Lemma tokens_of_nil (toks : list str) : tokens_of [] toks -> toks = [].
Proof.
  intros H. remember (@nil ascii) as l eqn:El.
  destruct H as [ws Hws|ws t rest toks' Hws Ht Hf Hrest]; [reflexivity|].
  apply app_eq_nil in El as [_ El]. apply app_eq_nil in El as [El _].
  contradiction.
Qed.

Lemma lex_all_acc (n : nat) :
  forall s acc,
    length s <= n ->
    lex_all s acc = (t <- lex_all s [] ;; OK (acc ++ t)).
Proof.
  induction n as [|n IH]; intros s acc Hlen.
  - destruct s; [|simpl in Hlen; lia]. rewrite !lex_all_nil. cbn [bind].
    now rewrite app_nil_r.
  - destruct s as [|c s].
    { rewrite !lex_all_nil. cbn [bind]. now rewrite app_nil_r. }
    cbn [length] in Hlen. destruct (is_white c) eqn:Ec.
    + rewrite !lex_all_white by exact Ec. apply IH. lia.
    + rewrite !lex_all_token by exact Ec.
      destruct (lex_token (c :: s)) as [[tok s2]|e] eqn:E; [|reflexivity].
      cbn [bind app].
      pose proof (lex_token_shorter _ _ _ E) as Hsh. cbn [length] in Hsh.
      rewrite (IH s2 (acc ++ [tok])) by lia.
      rewrite (IH s2 [tok]) by lia.
      destruct (lex_all s2 []) as [t|e]; [|reflexivity].
      cbn [bind app]. now rewrite <- app_assoc.
Qed.

Lemma lex_all_join (n : nat) :
  forall s acc toks rest,
    length s <= n ->
    lex_all s acc = OK (acc ++ toks) ->
    closed_token (last toks []) = true ->
    match rest with x :: _ => is_white x = true | [] => True end ->
    lex_all (s ++ rest) acc = lex_all rest (acc ++ toks).
Proof.
  induction n as [|n IH]; intros s acc toks rest Hlen H Hclosed Hrest.
  - destruct s; [|simpl in Hlen; lia]. rewrite lex_all_nil in H.
    injection H as H. rewrite <- (app_nil_r acc) in H at 1.
    apply app_inv_head in H. subst toks. cbn [app]. now rewrite app_nil_r.
  - destruct s as [|c s].
    { rewrite lex_all_nil in H.
      injection H as H. rewrite <- (app_nil_r acc) in H at 1.
      apply app_inv_head in H. subst toks. cbn [app]. now rewrite app_nil_r. }
    cbn [length] in Hlen. cbn [app]. destruct (is_white c) eqn:Ec.
    + rewrite lex_all_white in * by exact Ec. apply IH; auto. lia.
    + rewrite lex_all_token in * by exact Ec.
      destruct (lex_token (c :: s)) as [[tok s2]|e] eqn:E; [|discriminate].
      cbn [bind] in H.
      pose proof (lex_token_shorter _ _ _ E) as Hsh. cbn [length] in Hsh.
      destruct (lex_all_tokens_of (length s2) s2 (acc ++ [tok]) _ (le_n _) H)
        as (toks' & Et & Htok & _).
      rewrite <- app_assoc in Et. apply app_inv_head in Et. subst toks.
      change (c :: s ++ rest) with ((c :: s) ++ rest).
      rewrite (lex_token_extend _ _ _ _ rest E Hrest).
      * cbn [bind]. replace (acc ++ [tok] ++ toks') with ((acc ++ [tok]) ++ toks')
          in * by (now rewrite <- app_assoc).
        apply IH; auto; [lia|].
        destruct toks' as [|t toks']; [reflexivity|exact Hclosed].
      * intros ->. apply tokens_of_nil in Htok. now subst toks'.
Qed.

Lemma head_white (ws : str) :
  forallb is_white ws = true ->
  match ws with x :: _ => is_white x = true | [] => True end.
Proof.
  destruct ws as [|x ws]; [trivial|]. cbn [forallb]. intros H.
  now apply andb_true_iff in H as [H _].
Qed.

(** X5: white space at the start of a line is ignored; white space at
    the end of a line (the carriage return of a CRLF line ending, for
    one) does not change its tokens either, provided the last token is
    not a comment that the line leaves open. *)
Theorem white_space_around_a_line (line ws : str) (toks : list str) :
  forallb is_white ws = true ->
  lex_block (ws ++ line) = lex_block line /\
  (lex_block line = OK toks ->
   closed_token (last toks []) = true ->
   lex_block (line ++ ws) = OK toks).
Proof.
  intros Hws. split.
  - rewrite !lex_block_lex_all. induction ws as [|c ws IH]; [reflexivity|].
    cbn [forallb] in Hws. apply andb_true_iff in Hws as [Hc Hws].
    cbn [app]. rewrite lex_all_white by exact Hc. auto.
  - rewrite !lex_block_lex_all. intros H Hclosed.
    rewrite (lex_all_join (length line) line [] toks ws (le_n _) H Hclosed)
      by (now apply head_white).
    now apply lex_all_whites.
Qed.

Lemma white_space_around_a_line_witness :
  lex_block (chars "  " ++ chars "G1 (a)") = lex_block (chars "G1 (a)") /\
  lex_block (chars "G1 (a)" ++ ["013"%char]) =
    OK [chars "G"; chars "1"; chars "(a)"].
Proof.
  destruct (white_space_around_a_line (chars "G1 (a)") (chars "  ")
              [chars "G"; chars "1"; chars "(a)"] eq_refl) as [H1 _].
  destruct (white_space_around_a_line (chars "G1 (a)") ["013"%char]
              [chars "G"; chars "1"; chars "(a)"] eq_refl) as [_ H2].
  split; [exact H1|]. apply H2; reflexivity.
Defined.

(** X6: white space separates tokens.  When the text before a white
    space character lexes and does not end in a comment left open, the
    tokens of the whole line are the tokens of that text followed by
    the tokens of what comes after the white space: no token reaches
    across it, and the lexer fails on the whole line exactly when it
    fails on the second part. *)
Theorem white_space_separates_tokens (l1 l2 : str) (w : ascii)
    (t1 : list str) :
  is_white w = true ->
  lex_block l1 = OK t1 ->
  closed_token (last t1 []) = true ->
  lex_block (l1 ++ w :: l2) = (t2 <- lex_block l2 ;; OK (t1 ++ t2)).
Proof.
  intros Hw H Hclosed. rewrite !lex_block_lex_all in *.
  rewrite (lex_all_join (length l1) l1 [] t1 (w :: l2) (le_n _) H Hclosed Hw).
  cbn [app]. rewrite lex_all_white by exact Hw.
  apply (lex_all_acc (length l2)). lia.
Qed.

Lemma white_space_separates_tokens_witness :
  lex_block (chars "G1 (a)" ++ " "%char :: chars "X2)") =
  (t2 <- lex_block (chars "X2)") ;; OK ([chars "G"; chars "1"; chars "(a)"] ++ t2)).
Proof.
  apply (white_space_separates_tokens (chars "G1 (a)") (chars "X2)") " "
           [chars "G"; chars "1"; chars "(a)"]); reflexivity.
Defined.

(** ** The token parser *)

Lemma line_comment_concat (sc : str) (s : token_stream) :
  parse_line_comment_with_delimiter sc s = (concat s, []).
Proof.
  induction s as [|t s IH]; [reflexivity|].
  cbn [parse_line_comment_with_delimiter concat]. now rewrite IH.
Qed.

Lemma parse_chunk_line_comment (s s' : token_stream) (r : ascii) (t : str) :
  parse_chunk s = OK (Comment ";" r t, s') -> s' = [].
Proof.
  unfold parse_chunk. destruct s as [|tok s]; [discriminate|].
  destruct (Ascii.eqb (front tok) "[").
  { destruct (strip_delimiters tok); cbn [bind]; [|discriminate].
    intros H. injection H as H _. discriminate. }
  destruct (Ascii.eqb (front tok) "(").
  { destruct (strip_delimiters tok); cbn [bind]; [|discriminate].
    intros H. injection H as H _. discriminate. }
  destruct (eqb_str tok (chars "%")); [discriminate|].
  destruct (eqb_str tok (chars ";")).
  { rewrite line_comment_concat. intros H. now injection H as _ _ <-. }
  destruct s as [|nn s]; [discriminate|]. cbn [next bind].
  destruct (negb (is_num_char (front nn))).
  - unfold parse_isolated_word.
    destruct (length tok =? 1)%nat; discriminate.
  - unfold parse_word_address.
    destruct (length tok =? 1)%nat; [|discriminate].
    destruct (parse_address (front tok) (nn :: s)) as [[a s'']|e];
      cbn [bind]; discriminate.
Qed.

Lemma parse_all_line_comment (n : nat) :
  forall s acc cs,
    length s <= n ->
    parse_all s acc = OK cs ->
    exists cs',
      cs = acc ++ cs' /\
      forall pre r t post, cs' = pre ++ Comment ";" r t :: post -> post = [].
Proof.
  induction n as [|n IH]; intros s acc cs Hlen H.
  - destruct s; [|simpl in Hlen; lia]. injection H as <-.
    exists []. rewrite app_nil_r. split; [reflexivity|].
    intros [|? ?] r t post E; discriminate.
  - destruct s as [|tok s].
    { injection H as <-. exists []. rewrite app_nil_r. split; [reflexivity|].
      intros [|? ?] r t post E; discriminate. }
    rewrite parse_all_step in H.
    destruct (parse_chunk (tok :: s)) as [[ch s']|e] eqn:E; [|discriminate].
    cbn [bind] in H.
    pose proof (parse_chunk_shorter _ _ _ E) as Hsh. cbn [length] in *.
    destruct (IH s' (acc ++ [ch]) cs) as (cs' & Ecs & Hlast); [lia|exact H|].
    exists (ch :: cs'). rewrite <- app_assoc in Ecs. split; [exact Ecs|].
    intros pre r t post Epre. destruct pre as [|c pre].
    + cbn [app] in Epre. injection Epre as -> ->.
      apply parse_chunk_line_comment in E. subst s'.
      injection H as H. apply (f_equal (@length chunk)) in H.
      rewrite Ecs, !length_app in H. cbn [length] in H.
      destruct post; [reflexivity|cbn [length] in H; lia].
    + cbn [app] in Epre. injection Epre as _ Epre. eauto.
Qed.

(** X7: a ";" token makes a comment of everything that follows on the
    line: the text is the remaining tokens joined without a separator
    (the white space between them is gone) and no token is left, so in
    a parsed block a ';' comment can only be the last chunk. *)
Theorem line_comment_swallows_rest :
  (forall rest : token_stream,
     parse_chunk (chars ";" :: rest) =
       OK (Comment ";" ";" (concat rest), [])) /\
  (forall (toks : list str) (b : block) (pre : list chunk) (r : ascii)
          (t : str) (post : list chunk),
     parse_tokens toks = OK b ->
     chunks b = pre ++ Comment ";" r t :: post ->
     post = []).
Proof.
  split.
  - intros rest. unfold parse_chunk.
    change (Ascii.eqb (front (chars ";")) "[") with false.
    change (Ascii.eqb (front (chars ";")) "(") with false.
    change (eqb_str (chars ";") (chars "%")) with false.
    change (eqb_str (chars ";") (chars ";")) with true. cbv iota.
    now rewrite line_comment_concat.
  - intros toks b pre r t post. unfold parse_tokens.
    destruct toks as [|t1 s].
    { intros H. injection H as <-. destruct pre; discriminate. }
    destruct (parse_slash (t1 :: s)) as [[sl s1]|e]; [|discriminate].
    cbn [bind].
    destruct (parse_line_number s1) as [[ln s2]|e]; [|discriminate].
    cbn [bind]. fold (parse_all s2 []).
    destruct (parse_all s2 []) as [cs|e] eqn:E; [|discriminate].
    cbn [bind].
    destruct (parse_all_line_comment (length s2) s2 [] cs (le_n _) E)
      as (cs' & -> & Hlast).
    destruct (fst ln); intros H; injection H as <-; cbn [chunks app];
      apply Hlast.
Qed.

Lemma line_comment_swallows_rest_witness :
  parse_tokens [chars "G"; chars "1"; chars ";"; chars "a"; chars "b";
                chars "(c d)"] =
    OK (block_plain false
          [make_word_int "G" 1; Comment ";" ";" (chars "ab(c d)")]) /\
  @nil chunk = [].
Proof.
  split; [reflexivity|].
  destruct line_comment_swallows_rest as [_ H].
  apply (H [chars "G"; chars "1"; chars ";"; chars "a"; chars "b"; chars "(c d)"]
           (block_plain false
              [make_word_int "G" 1; Comment ";" ";" (chars "ab(c d)")])
           [make_word_int "G" 1] ";"%char (chars "ab(c d)") []);
    reflexivity.
Defined.

(** X8: the header of a block.  The deletion flag is set exactly when
    the first token is "/".  The line number is present exactly when the
    token after that optional "/" is the uppercase "N"; it is then the
    integer read from the next token, and the chunks are parsed from
    the tokens after it; otherwise the line number is -1 and the chunks
    are parsed from all the tokens after the optional "/".  A "/" or an
    "N" with no token after it makes the parser read past the end of
    the tokens. *)
Theorem block_header (t1 : str) (s : token_stream) :
  let s1 := if is_slash t1 then s else t1 :: s in
  (s1 = [] -> parse_tokens (t1 :: s) = Err OutOfBounds) /\
  (s1 = [chars "N"] -> parse_tokens (t1 :: s) = Err OutOfBounds) /\
  (forall b : block,
     parse_tokens (t1 :: s) = OK b ->
     is_deleted b = is_slash t1 /\
     exists t s2,
       s1 = t :: s2 /\
       has_line_number b = eqb_str t (chars "N") /\
       if eqb_str t (chars "N") then
         exists num s3,
           s2 = num :: s3 /\
           stoi num = OK (line_no b) /\
           parse_all s3 [] = OK (chunks b)
       else
         line_no b = (-1)%Z /\ parse_all s1 [] = OK (chunks b)).
Proof.
  cbv zeta. unfold parse_tokens. cbn [parse_slash next bind].
  destruct (is_slash t1) eqn:Esl; cbn [tl].
  - split; [intros ->; reflexivity|]. split; [intros ->; reflexivity|].
    intros b. unfold parse_line_number.
    destruct s as [|t s2]; [discriminate|]. cbn [next bind tl].
    destruct (eqb_str t (chars "N")) eqn:EN.
    + unfold parse_int. destruct s2 as [|num s3]; [discriminate|].
      destruct (stoi num) as [ln|e] eqn:Eln; [|discriminate].
      cbn [bind fst snd]. fold (parse_all s3 []).
      destruct (parse_all s3 []) as [cs|e] eqn:Ecs; [|discriminate]. cbn [bind].
      intros H. injection H as <-. split; [reflexivity|].
      exists t, (num :: s3). rewrite EN. split; [reflexivity|].
      split; [reflexivity|]. exists num, s3. repeat split; assumption.
    + cbn [bind fst snd]. fold (parse_all (t :: s2) []).
      destruct (parse_all (t :: s2) []) as [cs|e] eqn:Ecs; [|discriminate].
      cbn [bind]. intros H. injection H as <-. split; [reflexivity|].
      exists t, s2. rewrite EN. repeat split; assumption.
  - split; [discriminate|].
    split.
    { intros E. injection E as -> ->. reflexivity. }
    intros b. unfold parse_line_number. cbn [next bind tl].
    destruct (eqb_str t1 (chars "N")) eqn:EN.
    + unfold parse_int. destruct s as [|num s3]; [discriminate|].
      destruct (stoi num) as [ln|e] eqn:Eln; [|discriminate].
      cbn [bind fst snd]. fold (parse_all s3 []).
      destruct (parse_all s3 []) as [cs|e] eqn:Ecs; [|discriminate]. cbn [bind].
      intros H. injection H as <-. split; [reflexivity|].
      exists t1, (num :: s3). rewrite EN. split; [reflexivity|].
      split; [reflexivity|]. exists num, s3. repeat split; assumption.
    + cbn [bind fst snd]. fold (parse_all (t1 :: s) []).
      destruct (parse_all (t1 :: s) []) as [cs|e] eqn:Ecs; [|discriminate].
      cbn [bind]. intros H. injection H as <-. split; [reflexivity|].
      exists t1, s. rewrite EN. repeat split; assumption.
Qed.

Lemma block_header_witness :
  parse_tokens [chars "/"] = Err OutOfBounds /\
  parse_tokens [chars "/"; chars "N"] = Err OutOfBounds /\
  is_deleted (block_numbered 5 true [make_word_int "G" 1]) = true.
Proof.
  pose proof (block_header (chars "/") []) as (H1 & _ & _).
  pose proof (block_header (chars "/") [chars "N"]) as (_ & H2 & _).
  pose proof (block_header (chars "/")
                [chars "N"; chars "5"; chars "G"; chars "1"]) as (_ & _ & H3).
  split; [apply H1; reflexivity|]. split; [apply H2; reflexivity|].
  apply (H3 (block_numbered 5 true [make_word_int "G" 1])). reflexivity.
Defined.

Lemma stod_finite (t : str) (d : double) : stod t = OK d -> is_finite d = true.
Proof.
  unfold stod.
  destruct (read_sign (skip_space t)) as [neg s1].
  destruct (read_digits s1 0 0) as [[ip n1] s2].
  destruct (match s2 with
            | [] => (ip, 0%nat)
            | c :: s3 =>
                if Ascii.eqb c "." then
                  let '(v, n, _) := read_digits s3 ip 0 in (v, n)
                else (ip, 0%nat)
            end) as [m n2].
  destruct (n1 + n2)%nat; [discriminate|].
  destruct m as [|p|p]; try (intros H; injection H as <-; reflexivity).
  destruct (is_finite _) eqn:E; [|discriminate].
  intros H. injection H as <-. exact E.
Qed.

Lemma parse_chunk_typed (s s' : token_stream) (ch : chunk) :
  parse_chunk s = OK (ch, s') -> typed_chunk ch = true.
Proof.
  unfold parse_chunk. destruct s as [|t s]; [discriminate|].
  destruct (Ascii.eqb (front t) "[").
  { destruct (strip_delimiters t); cbn [bind]; [|discriminate].
    intros H. injection H as <- _. reflexivity. }
  destruct (Ascii.eqb (front t) "(").
  { destruct (strip_delimiters t); cbn [bind]; [|discriminate].
    intros H. injection H as <- _. reflexivity. }
  destruct (eqb_str t (chars "%")).
  { intros H. injection H as <- _. reflexivity. }
  destruct (eqb_str t (chars ";")).
  { rewrite line_comment_concat. intros H. injection H as <- _. reflexivity. }
  destruct s as [|nn s]; [discriminate|]. cbn [next bind].
  destruct (negb (is_num_char (front nn))).
  - unfold parse_isolated_word.
    destruct (length t =? 1)%nat; [|discriminate].
    intros H. injection H as <- _. reflexivity.
  - unfold parse_word_address.
    destruct (length t =? 1)%nat; [|discriminate].
    rewrite parse_address_classify. cbn [typed_chunk].
    destruct (classify (front t)) as [[]|] eqn:Ek; [| |discriminate];
      cbn [parse_int parse_double].
    + destruct (stoi nn) as [i|e] eqn:E; [|discriminate]. cbn [bind].
      intros H. injection H as <- _. cbn [typed_chunk make_int_address].
      rewrite Ek. now apply stoi_range in E.
    + destruct (stod nn) as [d|e] eqn:E; [|discriminate]. cbn [bind].
      intros H. injection H as <- _. cbn [typed_chunk make_double_address].
      rewrite Ek. now apply stod_finite in E.
Qed.

Lemma parse_all_typed (n : nat) :
  forall s acc cs,
    length s <= n ->
    parse_all s acc = OK cs ->
    forallb typed_chunk acc = true ->
    forallb typed_chunk cs = true.
Proof.
  induction n as [|n IH]; intros s acc cs Hlen H Hacc.
  - destruct s; [|simpl in Hlen; lia]. now injection H as <-.
  - destruct s as [|t s]; [now injection H as <-|].
    rewrite parse_all_step in H.
    destruct (parse_chunk (t :: s)) as [[ch s']|e] eqn:E; [|discriminate].
    cbn [bind] in H.
    pose proof (parse_chunk_shorter _ _ _ E) as Hsh. cbn [length] in *.
    apply (IH s' (acc ++ [ch])); auto; [lia|].
    rewrite forallb_app, Hacc. cbn [forallb].
    now rewrite (parse_chunk_typed _ _ _ E).
Qed.

Lemma parse_tokens_typed (toks : list str) (b : block) :
  parse_tokens toks = OK b -> forallb typed_chunk (chunks b) = true.
Proof.
  unfold parse_tokens. destruct toks as [|t1 s].
  { intros H. now injection H as <-. }
  destruct (parse_slash (t1 :: s)) as [[sl s1]|e]; [|discriminate].
  cbn [bind].
  destruct (parse_line_number s1) as [[ln s2]|e]; [|discriminate].
  cbn [bind]. fold (parse_all s2 []).
  destruct (parse_all s2 []) as [cs|e] eqn:E; [|discriminate].
  cbn [bind].
  pose proof (parse_all_typed (length s2) s2 [] cs (le_n _) E eq_refl) as Hcs.
  destruct (fst ln); intros H; injection H as <-; exact Hcs.
Qed.

Lemma traverse_forallb {A B : Type} (f : A -> result B) (P : B -> bool)
    (l : list A) :
  (forall x y, f x = OK y -> P y = true) ->
  forall ys, traverse f l = OK ys -> forallb P ys = true.
Proof.
  intros HP. induction l as [|x l IH]; intros ys H.
  - now injection H as <-.
  - cbn [traverse] in H.
    destruct (f x) as [y|e] eqn:Ex; [|discriminate]. cbn [bind] in H.
    destruct (traverse f l) as [ys'|e]; [|discriminate]. cbn [bind] in H.
    injection H as <-. cbn [forallb]. now rewrite (HP _ _ Ex), (IH ys').
Qed.

(** X9: in every program that the parser returns, a comment has the
    delimiters '(' ')', '[' ']' or ';' ';', and a word address has the
    type that the switch of [parse_address] gives its letter: an integer
    within the range of [int] for an integer letter, a finite double
    for a double letter.  A line number that is present is within the
    range of [int]; a line number that is absent is stored as -1. *)
Theorem parsed_chunks_are_typed (text : str) (p : gcode_program) :
  parse_gcode text = OK p ->
  forall b : block,
    In b (blocks p) ->
    (if has_line_number b then in_int_range (line_no b) = true
     else line_no b = (-1)%Z) /\
    forall c : chunk, In c (chunks b) -> typed_chunk c = true.
Proof.
  unfold parse_gcode. intros H b Hb.
  destruct (lex_gprog text) as [bs|e] eqn:E; [|discriminate].
  cbn [bind] in H. injection H as <-. cbn [blocks] in Hb.
  split.
  - pose proof (lex_gprog_wf _ _ E) as Hwf.
    rewrite forallb_forall in Hwf. specialize (Hwf b Hb).
    now apply wf_block_parts in Hwf as (_ & Hln & _).
  - rewrite lex_gprog_lines in E.
    assert (Hall : forallb (fun b => forallb typed_chunk (chunks b)) bs = true).
    { apply (traverse_forallb parse_line
               (fun b => forallb typed_chunk (chunks b))
               (filter nonblank (split_lines text))); [|exact E].
      intros line b' Hl. unfold parse_line in Hl.
      destruct (lex_block line); [|discriminate]. cbn [bind] in Hl.
      now apply parse_tokens_typed in Hl. }
    rewrite forallb_forall in Hall. specialize (Hall b Hb).
    rewrite forallb_forall in Hall. exact Hall.
Qed.

Lemma parsed_chunks_are_typed_witness :
  parse_gcode sample_text = OK sample_program /\
  (if has_line_number (nth 0 (blocks sample_program) (block_plain false []))
   then in_int_range
          (line_no (nth 0 (blocks sample_program) (block_plain false []))) = true
   else line_no (nth 0 (blocks sample_program) (block_plain false [])) = (-1)%Z) /\
  forall c : chunk,
    In c (chunks (nth 0 (blocks sample_program) (block_plain false []))) ->
    typed_chunk c = true.
Proof.
  split; [reflexivity|].
  apply (parsed_chunks_are_typed sample_text sample_program eq_refl).
  left. reflexivity.
Defined.

(** ** The program assembler *)

Lemma set_debug_text_copy (b : block) :
  wf_block b = true ->
  exists b', set_debug_text b = OK b' /\ block_copy b' = b.
Proof.
  intros Hwf. unfold set_debug_text, to_string.
  rewrite (block_print_text _ Hwf). cbn [bind].
  eexists. split; [reflexivity|].
  apply wf_block_parts in Hwf as (Hdbg & _).
  destruct b as [h n sl cs dt]. cbn in *. now subst dt.
Qed.

Lemma traverse_set_debug_text (bs : list block) :
  forallb wf_block bs = true ->
  exists bs', traverse set_debug_text bs = OK bs' /\ map block_copy bs' = bs.
Proof.
  induction bs as [|b bs IH]; intros H.
  - exists []. split; reflexivity.
  - cbn [forallb] in H. apply andb_true_iff in H as [Hb Hbs].
    destruct (set_debug_text_copy _ Hb) as (b' & Eb & Cb).
    destruct (IH Hbs) as (bs' & Ebs & Cbs).
    exists (b' :: bs'). cbn [traverse map]. rewrite Eb, Ebs, Cb, Cbs.
    split; reflexivity.
Qed.

(** X10: [parse_gcode_saving_block_text] returns what [parse_gcode]
    returns.  The debug text that it sets on each block is the
    rendering of the parsed block, and it does not reach the caller:
    the program is built by copying the blocks, and the copy
    constructor of [block] leaves [debug_text] out. *)
Theorem saving_block_text_saves_nothing (text : str) :
  parse_gcode_saving_block_text text = parse_gcode text.
Proof.
  unfold parse_gcode_saving_block_text, parse_gcode, make_program.
  destruct (lex_gprog text) as [bs|e] eqn:E; [|reflexivity].
  cbn [bind]. apply lex_gprog_wf in E.
  destruct (traverse_set_debug_text _ E) as (bs' & Ebs & Cbs).
  rewrite Ebs. cbn [bind]. now rewrite Cbs.
Qed.

Lemma traverse_app {A B : Type} (f : A -> result B) (l1 l2 : list A) :
  traverse f (l1 ++ l2) =
  (ys1 <- traverse f l1 ;; ys2 <- traverse f l2 ;; OK (ys1 ++ ys2)).
Proof.
  induction l1 as [|x l1 IH]; cbn [app traverse bind].
  - destruct (traverse f l2); reflexivity.
  - destruct (f x) as [y|e]; [|reflexivity]. cbn [bind]. rewrite IH.
    destruct (traverse f l1) as [ys1|e]; [|reflexivity]. cbn [bind].
    destruct (traverse f l2) as [ys2|e]; reflexivity.
Qed.

Lemma split_lines_nonempty (s : str) : split_lines s <> [].
Proof.
  induction s as [|c s IH]; [discriminate|]. cbn [split_lines].
  destruct (Ascii.eqb c newline); [discriminate|].
  destruct (split_lines s); discriminate.
Qed.

Lemma split_lines_join (t1 t2 : str) :
  split_lines (t1 ++ newline :: t2) = split_lines t1 ++ split_lines t2.
Proof.
  induction t1 as [|c t1 IH]; [reflexivity|].
  cbn [app split_lines]. rewrite IH.
  destruct (Ascii.eqb c newline); [reflexivity|].
  pose proof (split_lines_nonempty t1) as Hne.
  destruct (split_lines t1) as [|l ls]; [contradiction|reflexivity].
Qed.

(** X11: lines are parsed independently and in order: the parse of two
    texts joined by a newline is the parse of the first followed by the
    parse of the second, and fails where the first of the two fails.
    In particular a newline at the end of the text changes nothing. *)
Theorem lex_gprog_join (t1 t2 : str) :
  lex_gprog (t1 ++ newline :: t2) =
    (bs1 <- lex_gprog t1 ;; bs2 <- lex_gprog t2 ;; OK (bs1 ++ bs2)) /\
  lex_gprog (t1 ++ [newline]) = lex_gprog t1.
Proof.
  assert (H : forall a b, lex_gprog (a ++ newline :: b) =
                (bs1 <- lex_gprog a ;; bs2 <- lex_gprog b ;; OK (bs1 ++ bs2))).
  { intros a b. rewrite !lex_gprog_lines, split_lines_join, filter_app.
    apply traverse_app. }
  split; [apply H|].
  rewrite H. destruct (lex_gprog t1) as [bs1|e]; [|reflexivity].
  cbn. now rewrite app_nil_r.
Qed.

(** ** The failures of the parser *)

Lemma parse_chunk_error (t : str) (s : token_stream) (e : error) :
  t <> [] ->
  parse_chunk (t :: s) = Err e -> parse_failure e = true.
Proof.
  intros Ht. unfold parse_chunk.
  assert (Hstrip : exists text, strip_delimiters t = OK text).
  { unfold strip_delimiters, substr.
    destruct t as [|c t]; [contradiction|]. cbn [length].
    destruct (Z.of_nat (S (length t)) <? 1)%Z eqn:E; [|eauto].
    apply Z.ltb_lt in E. lia. }
  destruct Hstrip as (text & Hstrip).
  destruct (Ascii.eqb (front t) "["); [rewrite Hstrip; discriminate|].
  destruct (Ascii.eqb (front t) "("); [rewrite Hstrip; discriminate|].
  destruct (eqb_str t (chars "%")); [discriminate|].
  destruct (eqb_str t (chars ";")).
  { destruct (parse_line_comment_with_delimiter (chars ";") s). discriminate. }
  destruct s as [|nn s]; [intros H; injection H as <-; reflexivity|].
  cbn [next bind].
  destruct (negb (is_num_char (front nn))).
  - unfold parse_isolated_word.
    destruct (length t =? 1)%nat; [discriminate|].
    intros H. injection H as <-. reflexivity.
  - unfold parse_word_address.
    destruct (length t =? 1)%nat; [|intros H; injection H as <-; reflexivity].
    rewrite parse_address_classify.
    destruct (classify (front t)) as [[]|];
      [| |intros H; injection H as <-; reflexivity];
      cbn [parse_int parse_double].
    + destruct (stoi_error nn) as [-> | (i & ->)]; cbn [bind];
        [intros H; injection H as <-; reflexivity|discriminate].
    + destruct (stod_error nn) as [-> | (d & ->)]; cbn [bind];
        [intros H; injection H as <-; reflexivity|discriminate].
Qed.

Lemma good_token_nonempty (t : str) : good_token t = true -> t <> [].
Proof. destruct t; [discriminate|discriminate]. Qed.

Lemma parse_all_error (n : nat) :
  forall s acc e,
    length s <= n ->
    forallb good_token s = true ->
    parse_all s acc = Err e -> parse_failure e = true.
Proof.
  induction n as [|n IH]; intros s acc e Hlen Hs H.
  - destruct s; [discriminate|simpl in Hlen; lia].
  - destruct s as [|t s]; [discriminate|].
    rewrite parse_all_step in H. cbn [forallb] in Hs.
    apply andb_true_iff in Hs as [Ht Hs].
    destruct (parse_chunk (t :: s)) as [[ch s']|e0] eqn:E; cbn [bind] in H.
    + pose proof (parse_chunk_shorter _ _ _ E) as Hsh. cbn [length] in *.
      destruct (parse_chunk_wf _ _ _ _ Ht Hs E) as (_ & _ & Hs' & _).
      apply (IH s' (acc ++ [ch]) e); [lia|exact Hs'|exact H].
    + injection H as <-.
      apply (parse_chunk_error t s e0); [now apply good_token_nonempty|exact E].
Qed.

Lemma parse_tokens_error (toks : list str) (e : error) :
  forallb good_token toks = true ->
  parse_tokens toks = Err e -> parse_failure e = true.
Proof.
  intros Hgood. unfold parse_tokens.
  destruct toks as [|t1 s]; [discriminate|].
  cbn [parse_slash next bind].
  assert (Hrest : forall sl s1,
    forallb good_token s1 = true ->
    ('(line_no, s2) <- parse_line_number s1 ;;
     chunks <- parse_chunks (length s2) s2 [] ;;
     if fst line_no then OK (block_numbered (snd line_no) sl chunks)
     else OK (block_plain sl chunks)) = Err e -> parse_failure e = true).
  { intros sl s1 Hs1. unfold parse_line_number.
    destruct s1 as [|t s1]; [intros H; injection H as <-; reflexivity|].
    cbn [next bind tl]. cbn [forallb] in Hs1.
    apply andb_true_iff in Hs1 as [Ht Hs1].
    destruct (eqb_str t (chars "N")).
    - unfold parse_int.
      destruct s1 as [|nn s1]; [intros H; injection H as <-; reflexivity|].
      cbn [forallb] in Hs1. apply andb_true_iff in Hs1 as [_ Hs1].
      destruct (stoi_error nn) as [-> | (i & ->)]; cbn [bind];
        [intros H; injection H as <-; reflexivity|].
      fold (parse_all s1 []).
      destruct (parse_all s1 []) as [cs|e0] eqn:E; cbn [bind fst];
        [discriminate|].
      intros H. injection H as <-.
      now apply (parse_all_error (length s1) s1 [] e0).
    - cbn [bind]. fold (parse_all (t :: s1) []).
      destruct (parse_all (t :: s1) []) as [cs|e0] eqn:E; cbn [bind fst];
        [discriminate|].
      intros H. injection H as <-.
      apply (parse_all_error (length (t :: s1)) (t :: s1) [] e0);
        [lia| |exact E].
      cbn [forallb]. now rewrite Ht, Hs1. }
  cbn [forallb] in Hgood. pose proof Hgood as Hg.
  apply andb_true_iff in Hg as [Ht1 Hs].
  destruct (is_slash t1); cbn [tl]; apply Hrest; [exact Hs|].
  cbn [forallb]. now rewrite Ht1, Hs.
Qed.

Lemma split_lines_length (s l : str) :
  In l (split_lines s) -> length l <= length s.
Proof.
  revert l. induction s as [|c s IH]; intros l H.
  - destruct H as [<-|[]]. reflexivity.
  - cbn [split_lines] in H. cbn [length].
    destruct (Ascii.eqb c newline).
    + destruct H as [<-|H]; [simpl; lia|]. specialize (IH l H). lia.
    + destruct (split_lines s) as [|l0 ls] eqn:E.
      * destruct H as [<-|[]]. simpl. lia.
      * destruct H as [<-|H].
        -- specialize (IH l0 (or_introl eq_refl)). simpl. lia.
        -- specialize (IH l (or_intror H)). lia.
Qed.

Lemma traverse_error {A B : Type} (f : A -> result B) (l : list A) (e : error) :
  traverse f l = Err e -> exists x, In x l /\ f x = Err e.
Proof.
  induction l as [|x l IH]; [discriminate|]. cbn [traverse].
  destruct (f x) as [y|e0] eqn:Ex; cbn [bind].
  - destruct (traverse f l) as [ys|e1]; cbn [bind]; [discriminate|].
    intros H. injection H as <-.
    destruct (IH eq_refl) as (x' & Hin & Hx'). exists x'. split; [now right|exact Hx'].
  - intros H. injection H as <-. exists x. split; [now left|exact Ex].
Qed.

(** X12: on a text short enough for the [int] depth counter of the
    comment lexer, [parse_gcode] fails in one of five ways only: the
    lexer's assertion on a closing delimiter, an unknown address
    letter, a number refused by [stoi] or [stod], an assertion on the
    length of a word token, or a read past the last token of a line.
    It never reaches [substr] with a position beyond the token and
    never overflows the depth counter. *)
Theorem parse_gcode_failures (text : str) (e : error) :
  (Z.of_nat (length text) <= INT_MAX)%Z ->
  parse_gcode text = Err e ->
  e = LexError \/ parse_failure e = true.
Proof.
  intros Hmax. unfold parse_gcode.
  destruct (lex_gprog text) as [bs|e0] eqn:E; cbn [bind]; [discriminate|].
  intros H. injection H as <-.
  rewrite lex_gprog_lines in E.
  apply traverse_error in E as (line & Hin & Hline).
  apply filter_In in Hin as [Hin _].
  pose proof (split_lines_length _ _ Hin) as Hlen.
  pose proof (split_lines_no_newline text) as Hnl.
  rewrite forallb_forall in Hnl. specialize (Hnl line Hin).
  unfold parse_line in Hline.
  destruct (lex_block line) as [toks|e1] eqn:El; cbn [bind] in Hline.
  - right. apply (parse_tokens_error toks e0); [|exact Hline].
    now apply (lex_block_good line).
  - injection Hline as <-. left.
    rewrite lex_block_lex_all in El.
    destruct (lex_all_error (length line) line [] (le_n _)) as [He _]; [lia|].
    now apply He.
Qed.

Lemma parse_gcode_failures_witness :
  parse_gcode (chars "G1 X") = Err OutOfBounds /\
  (OutOfBounds = LexError \/ parse_failure OutOfBounds = true).
Proof.
  split; [reflexivity|].
  apply (parse_gcode_failures (chars "G1 X")).
  - vm_compute. discriminate.
  - reflexivity.
Defined.

Lemma parse_chunk_default_branch (t nn : str) (s : token_stream) :
  default_branch t = true ->
  parse_chunk (t :: nn :: s) =
    if (length t =? 1)%nat then
      if is_num_char (front nn) then
        match classify (front t) with
        | Some ADDRESS_TYPE_INTEGER =>
            i <- stoi nn ;; OK (make_word_int (front t) i, s)
        | Some ADDRESS_TYPE_DOUBLE =>
            d <- stod nn ;; OK (make_word_double (front t) d, s)
        | None => Err UnknownAddressLetter
        end
      else OK (make_isolated_word (front t), nn :: s)
    else Err ContractViolation.
Proof.
  unfold default_branch. intros H.
  apply andb_true_iff in H as [H H4]. apply andb_true_iff in H as [H H3].
  apply andb_true_iff in H as [H1 H2].
  apply negb_true_iff in H1, H2, H3, H4.
  unfold parse_chunk. rewrite H1, H2, H3, H4. cbn [next bind].
  unfold parse_isolated_word, parse_word_address.
  destruct (is_num_char (front nn)); cbn [negb];
    destruct (length t =? 1)%nat; try reflexivity.
  rewrite parse_address_classify.
  destruct (classify (front t)) as [[]|]; [| |reflexivity];
    cbn [parse_int parse_double].
  - destruct (stoi nn); reflexivity.
  - destruct (stod nn); reflexivity.
Qed.

(** X13: the last branch of [parse_chunk], followed through
    [parse_isolated_word], [parse_word_address], [parse_address],
    [parse_int] and [parse_double].  With a second token at hand, a
    one-character token that is no comment, '%' or ';' becomes an
    isolated word when the second token does not start with a numeric
    character, and leaves that token in the stream; otherwise the
    letter decides how the second token is converted.  A token of any
    other length fails the size assertion whatever follows it. *)
Theorem word_or_word_address (t nn : str) (s : token_stream) :
  default_branch t = true ->
  parse_chunk (t :: nn :: s) =
    if (length t =? 1)%nat then
      if is_num_char (front nn) then
        match classify (front t) with
        | Some ADDRESS_TYPE_INTEGER =>
            i <- stoi nn ;; OK (make_word_int (front t) i, s)
        | Some ADDRESS_TYPE_DOUBLE =>
            d <- stod nn ;; OK (make_word_double (front t) d, s)
        | None => Err UnknownAddressLetter
        end
      else OK (make_isolated_word (front t), nn :: s)
    else Err ContractViolation.
Proof. apply parse_chunk_default_branch. Qed.

Lemma word_or_word_address_witness :
  parse_chunk [chars "12"; chars "X"] = Err ContractViolation.
Proof.
  apply (word_or_word_address (chars "12") (chars "X") []). reflexivity.
Defined.

(** ** Equality of chunks *)

Lemma double_eqb_true (x y : double) :
  double_eqb x y = true ->
  x = y \/ exists s s', x = S754_zero s /\ y = S754_zero s'.
Proof.
  unfold double_eqb, SFeqb, SFcompare.
  destruct x as [s| s| |s m e], y as [s'| s'| |s' m' e'];
    try discriminate; try (destruct s; discriminate);
    try (destruct s'; discriminate).
  - intros _. right. eauto.
  - destruct s, s'; try discriminate; intros _; now left.
  - change (PosDef.Pos.compare_cont Eq m m') with (Pos.compare m m').
    destruct s, s'; try discriminate;
      destruct (Z.compare e e') eqn:Ee; try discriminate;
      destruct (Pos.compare m m') eqn:Em; try discriminate;
      intros _; left;
      apply Z.compare_eq in Ee; apply Pos.compare_eq in Em; now subst.
Qed.

Lemma double_eqb_sym (x y : double) : double_eqb x y = double_eqb y x.
Proof.
  unfold double_eqb, SFeqb, SFcompare.
  destruct x as [s| s| |s m e], y as [s'| s'| |s' m' e'];
    try reflexivity; try (destruct s; reflexivity);
    try (destruct s'; reflexivity).
  - destruct s, s'; reflexivity.
  - change (PosDef.Pos.compare_cont Eq m m') with (Pos.compare m m').
    change (PosDef.Pos.compare_cont Eq m' m) with (Pos.compare m' m).
    rewrite (Z.compare_antisym e e'), (Pos.compare_antisym m m').
    destruct s, s'; try reflexivity;
      destruct (Z.compare e e'); cbn [CompOpp]; try reflexivity;
      destruct (Pos.compare m m'); reflexivity.
Qed.

Lemma double_eqb_refl (x : double) :
  double_eqb x x = match x with S754_nan => false | _ => true end.
Proof.
  unfold double_eqb, SFeqb, SFcompare.
  destruct x as [s| s| |s m e]; try reflexivity.
  - destruct s; reflexivity.
  - change (PosDef.Pos.compare_cont Eq m m) with (Pos.compare m m).
    rewrite Z.compare_refl, Pos.compare_refl. destruct s; reflexivity.
Qed.

Lemma eqb_str_sym (a b : str) : eqb_str a b = eqb_str b a.
Proof.
  destruct (eqb_str a b) eqn:E1, (eqb_str b a) eqn:E2; try reflexivity.
  - apply eqb_str_eq in E1. subst b. now rewrite eqb_str_refl in E2.
  - apply eqb_str_eq in E2. subst b. now rewrite eqb_str_refl in E1.
Qed.

(** X14: equality of chunks whose addresses were built by
    [make_int_address] or [make_double_address].  [==] never fails an
    assertion on them and is symmetric; [!=] is its negation; two equal
    chunks are the same chunk, or two word addresses of one letter
    whose values are zeros of either sign; a chunk is equal to itself
    unless it is a word address whose value is a NaN. *)
Theorem chunk_equality (a b : chunk) :
  built_chunk a = true ->
  built_chunk b = true ->
  exists r : bool,
    chunk_eq a b = OK r /\
    chunk_eq b a = OK r /\
    chunk_ne a b = OK (negb r) /\
    (r = true -> a = b \/ zero_chunks a b = true) /\
    (a = b -> r = negb (nan_chunk a)).
Proof.
  unfold chunk_ne, chunk_eq.
  destruct a as [l1 r1 t1|w1 [[] [d1|i1]]| |c1],
           b as [l2 r2 t2|w2 [[] [d2|i2]]| |c2];
    try discriminate; intros _ _;
    cbn [chunk_equals chunk_tp equals_comment equals_word_address
         get_comment_text get_left_delim get_right_delim get_word
         get_address get_single_word bind];
    try (exists false; repeat split; try discriminate; reflexivity || fail).
  - (* two comments *)
    exists (eqb_str t1 t2 && Ascii.eqb l1 l2 && Ascii.eqb r1 r2).
    rewrite (eqb_str_sym t2 t1), (Ascii.eqb_sym l2 l1), (Ascii.eqb_sym r2 r1).
    repeat split.
    + intros H. apply andb_true_iff in H as [H Hr].
      apply andb_true_iff in H as [Ht Hl].
      apply eqb_str_eq in Ht. apply Ascii.eqb_eq in Hl, Hr.
      left. now subst.
    + intros H. injection H as <- <- <-.
      now rewrite eqb_str_refl, !Ascii.eqb_refl.
  - (* two integer addresses *)
    rewrite (Ascii.eqb_sym w2 w1).
    destruct (Ascii.eqb w1 w2) eqn:Ew; cbn [addr_equals tp ad_type
      address_type_eqb negb int_value val bind].
    + apply Ascii.eqb_eq in Ew. subst w2.
      exists (Z.eqb i2 i1). rewrite (Z.eqb_sym i1 i2). repeat split.
      * intros H. apply Z.eqb_eq in H. left. now subst.
      * intros H. injection H as <-. now rewrite Z.eqb_refl.
    + exists false. repeat split; [discriminate|].
      intros H. injection H as <- _. now rewrite Ascii.eqb_refl in Ew.
  - (* an integer and a double address *)
    rewrite (Ascii.eqb_sym w2 w1).
    destruct (Ascii.eqb w1 w2); cbn [addr_equals tp ad_type
      address_type_eqb negb bind];
      exists false; repeat split; discriminate.
  - rewrite (Ascii.eqb_sym w2 w1).
    destruct (Ascii.eqb w1 w2); cbn [addr_equals tp ad_type
      address_type_eqb negb bind];
      exists false; repeat split; discriminate.
  - (* two double addresses *)
    rewrite (Ascii.eqb_sym w2 w1).
    destruct (Ascii.eqb w1 w2) eqn:Ew; cbn [addr_equals tp ad_type
      address_type_eqb negb double_value val bind].
    + apply Ascii.eqb_eq in Ew. subst w2.
      exists (double_eqb d2 d1). rewrite (double_eqb_sym d1 d2). repeat split.
      * intros H. apply double_eqb_true in H as [->|(s & s' & -> & ->)].
        -- now left.
        -- right. cbn [zero_chunks]. apply Ascii.eqb_refl.
      * intros H. injection H as <-. rewrite double_eqb_refl.
        destruct d1; reflexivity.
    + exists false. repeat split; [discriminate|].
      intros H. injection H as <- _. now rewrite Ascii.eqb_refl in Ew.
  - (* two '%' *)
    exists true. repeat split. intros _. now left.
  - (* two isolated words *)
    exists (Ascii.eqb c1 c2). rewrite (Ascii.eqb_sym c2 c1). repeat split.
    + intros H. apply Ascii.eqb_eq in H. left. now subst.
    + intros H. injection H as <-. now rewrite Ascii.eqb_refl.
Qed.

Lemma chunk_equality_witness :
  exists r : bool,
    chunk_eq (make_word_double "X" (S754_zero false))
             (make_word_double "X" (S754_zero true)) = OK r /\
    chunk_eq (make_word_double "X" (S754_zero true))
             (make_word_double "X" (S754_zero false)) = OK r /\
    chunk_ne (make_word_double "X" (S754_zero false))
             (make_word_double "X" (S754_zero true)) = OK (negb r) /\
    (r = true ->
     make_word_double "X" (S754_zero false) =
       make_word_double "X" (S754_zero true) \/
     zero_chunks (make_word_double "X" (S754_zero false))
                 (make_word_double "X" (S754_zero true)) = true) /\
    (make_word_double "X" (S754_zero false) =
       make_word_double "X" (S754_zero true) ->
     r = negb (nan_chunk (make_word_double "X" (S754_zero false)))).
Proof.
  apply (chunk_equality (make_word_double "X" (S754_zero false))
                        (make_word_double "X" (S754_zero true)));
    reflexivity.
Defined.

(** ** The lines of a rendering *)

Lemma no_newline_rev (s : str) : no_newline (rev s) = no_newline s.
Proof.
  induction s as [|c s IH]; [reflexivity|].
  cbn [rev]. rewrite no_newline_app, IH. cbn [no_newline forallb].
  rewrite andb_true_r. apply andb_comm.
Qed.

Lemma no_newline_drop_zeros (s : str) :
  no_newline s = true -> no_newline (drop_zeros s) = true.
Proof.
  induction s as [|c s IH]; [reflexivity|]. intros H. cbn [drop_zeros].
  destruct (Ascii.eqb c "0"); [|exact H].
  cbn [no_newline forallb] in H. apply andb_true_iff in H as [_ H]. now apply IH.
Qed.

Lemma no_newline_with_fraction (ip frac : str) :
  no_newline ip = true -> no_newline frac = true ->
  no_newline (with_fraction ip frac) = true.
Proof.
  intros Hi Hf. unfold with_fraction.
  assert (Hs : no_newline (strip_trailing_zeros frac) = true).
  { unfold strip_trailing_zeros. rewrite no_newline_rev.
    apply no_newline_drop_zeros. now rewrite no_newline_rev. }
  destruct (strip_trailing_zeros frac) as [|c f]; [exact Hi|].
  rewrite no_newline_app, Hi. exact Hs.
Qed.

Lemma no_newline_zeros (n : nat) : no_newline (repeat "0"%char n) = true.
Proof. induction n as [|n IH]; [reflexivity|exact IH]. Qed.

Lemma print_int_no_newline (z : Z) : no_newline (print_int z) = true.
Proof. apply numeric_no_newline, print_int_num_chars. Qed.

Lemma print_g_no_newline (num den : Z) : no_newline (print_g num den) = true.
Proof.
  unfold print_g.
  destruct (if (round_scaled num den (5 - decimal_exponent num den 700 320)
                =? 1000000)%Z
            then (100000%Z, (decimal_exponent num den 700 320 + 1)%Z)
            else (round_scaled num den (5 - decimal_exponent num den 700 320),
                  decimal_exponent num den 700 320)) as [d x].
  pose proof (print_int_no_newline d) as Hd.
  destruct ((x <? -4)%Z || (6 <=? x)%Z).
  - rewrite no_newline_app. apply andb_true_iff. split.
    + apply no_newline_with_fraction;
        [now apply no_newline_firstn|now apply no_newline_skipn].
    + unfold print_exponent.
      pose proof (print_int_no_newline (Z.abs x)) as Ha.
      destruct (x <? 0)%Z, (Z.abs x <? 10)%Z; exact Ha.
  - destruct (0 <=? x)%Z.
    + apply no_newline_with_fraction;
        [now apply no_newline_firstn|now apply no_newline_skipn].
    + apply no_newline_with_fraction; [reflexivity|].
      now rewrite no_newline_app, no_newline_zeros.
Qed.

Lemma print_double_no_newline (d : double) : no_newline (print_double d) = true.
Proof.
  destruct d as [s|s| |s m e]; cbn [print_double].
  - destruct s; reflexivity.
  - destruct s; reflexivity.
  - reflexivity.
  - rewrite no_newline_app. apply andb_true_iff. split; [destruct s; reflexivity|].
    destruct (0 <=? e)%Z; apply print_g_no_newline.
Qed.

Lemma chunk_text_line (c : chunk) :
  wf_chunk c = true -> no_newline (chunk_text c) = true.
Proof.
  intros Hwf. destruct c as [l r text|w a| |w].
  - cbn [wf_chunk] in Hwf. apply andb_true_iff in Hwf as [Hn Hlr].
    cbn [chunk_text]. change (l :: text ++ [r]) with ([l] ++ text ++ [r]).
    rewrite !no_newline_app, Hn.
    apply orb_true_iff in Hlr as [Hlr|Hlr];
      [apply orb_true_iff in Hlr as [Hlr|Hlr]|];
      repeat (apply andb_true_iff in Hlr as [Hlr ?]);
      repeat match goal with
             | X : Ascii.eqb _ _ = true |- _ => apply Ascii.eqb_eq in X
             end; subst; reflexivity.
  - cbn [wf_chunk] in Hwf.
    assert (Hk : exists k, classify w = Some k).
    { unfold wf_addr in Hwf. destruct (classify w); [eauto|discriminate]. }
    destruct Hk as [k Hk].
    destruct (classified_facts _ _ Hk) as (_ & _ & Hw & _).
    cbn [chunk_text no_newline forallb]. rewrite Hw. cbn [negb andb].
    destruct a as [ty [d|i]]; cbn [addr_text val].
    + apply print_double_no_newline.
    + apply print_int_no_newline.
  - reflexivity.
  - cbn [wf_chunk] in Hwf. unfold word_char in Hwf.
    apply andb_true_iff in Hwf as [Hw _]. apply negb_true_iff in Hw.
    cbn [chunk_text no_newline forallb].
    pose proof (white_or_newline w) as F. rewrite Hw in F.
    destruct (Ascii.eqb w newline); [discriminate|reflexivity].
Qed.

Lemma chunks_text_line (cs : list chunk) :
  wf_chunks cs = true -> no_newline (chunks_text cs) = true.
Proof.
  induction cs as [|c cs IH]; [reflexivity|]. intros Hwf.
  apply wf_chunks_cons in Hwf as (Hc & _ & Hcs).
  cbn [chunks_text]. rewrite no_newline_app, (chunk_text_line _ Hc).
  cbn [no_newline forallb andb negb]. now apply IH.
Qed.

Lemma block_text_line (b : block) :
  wf_block b = true -> no_newline (block_text b) = true.
Proof.
  intros Hwf. apply wf_block_parts in Hwf as (_ & Hln & Hcs & _).
  unfold block_text. rewrite no_newline_app.
  rewrite (chunks_text_line _ Hcs), andb_true_r.
  destruct (has_line_no b); [|reflexivity].
  change ("N"%char :: print_int (line_no b) ++ [" "%char])
    with (["N"%char] ++ print_int (line_no b) ++ [" "%char]).
  now rewrite !no_newline_app, print_int_no_newline.
Qed.

Lemma split_lines_program_text (bs : list block) :
  forallb wf_block bs = true ->
  split_lines (program_text bs) = map block_text bs ++ [[]].
Proof.
  induction bs as [|b bs IH]; [reflexivity|]. cbn [forallb]. intros H.
  apply andb_true_iff in H as [Hb Hbs]. cbn [program_text map app].
  rewrite split_lines_app by (now apply block_text_line).
  now rewrite IH.
Qed.

Lemma traverse_block_print (bs : list block) :
  forallb wf_block bs = true ->
  traverse block_print bs = OK (map block_text bs).
Proof.
  induction bs as [|b bs IH]; [reflexivity|]. cbn [forallb]. intros H.
  apply andb_true_iff in H as [Hb Hbs]. cbn [traverse map].
  now rewrite (block_print_text _ Hb), (IH Hbs).
Qed.

(** X15: the rendering of a parsed program has one line for each
    block, in order, each line being what [block::print] writes for
    the block, and nothing after the last newline: no comment text,
    word or number that the parser stores contains a newline. *)
Theorem rendering_has_a_line_per_block (text : str) (p : gcode_program) :
  parse_gcode text = OK p ->
  exists (lines : list str) (rendered : str),
    traverse block_print (blocks p) = OK lines /\
    program_print p = OK rendered /\
    split_lines rendered = lines ++ [[]] /\
    length lines = num_blocks p.
Proof.
  unfold parse_gcode, program_print, num_blocks. intros H.
  destruct (lex_gprog text) as [bs|e] eqn:E; [|discriminate].
  cbn [bind] in H. injection H as <-. cbn [blocks].
  apply lex_gprog_wf in E.
  exists (map block_text bs), (program_text bs). repeat split.
  - now apply traverse_block_print.
  - now apply print_blocks_text.
  - now apply split_lines_program_text.
  - apply length_map.
Qed.

Lemma rendering_has_a_line_per_block_witness :
  exists (lines : list str) (rendered : str),
    traverse block_print (blocks sample_program) = OK lines /\
    program_print sample_program = OK rendered /\
    split_lines rendered = lines ++ [[]] /\
    length lines = num_blocks sample_program.
Proof.
  apply (rendering_has_a_line_per_block sample_text sample_program).
  vm_compute. reflexivity.
Defined.

Lemma print_chunks_end (cs : list chunk) (r : str) :
  print_chunks cs = OK r ->
  (cs = [] /\ r = []) \/ exists r', r = r' ++ [" "%char].
Proof.
  revert r. induction cs as [|c cs IH]; intros r H.
  - injection H as <-. now left.
  - right. cbn [print_chunks] in H.
    destruct (chunk_print c) as [t|e]; [|discriminate]. cbn [bind] in H.
    destruct (print_chunks cs) as [rest|e]; [|discriminate]. cbn [bind] in H.
    injection H as <-.
    destruct (IH rest eq_refl) as [[_ ->]|(r' & ->)].
    + now exists t.
    + exists (t ++ " "%char :: r'). now rewrite <- app_assoc.
Qed.

(** X16: what [block::print] writes for any block is empty exactly
    when the block has neither a line number nor a chunk; otherwise it
    ends with a space, because a space follows the line number and
    every chunk. *)
Theorem block_print_ends_with_space (b : block) (r : str) :
  block_print b = OK r ->
  (r = [] <-> has_line_number b = false /\ chunks b = []) /\
  (r <> [] -> exists r', r = r' ++ [" "%char]).
Proof.
  unfold block_print, line_number.
  destruct (has_line_number b); cbn [bind].
  - destruct (print_chunks (chunks b)) as [body|e] eqn:E; [|discriminate].
    cbn [bind]. intros H. injection H as <-. split.
    + split; [discriminate|intros [H _]; discriminate].
    + intros _. destruct (print_chunks_end _ _ E) as [[_ ->]|(r' & ->)].
      * exists ("N"%char :: print_int (line_no b)). now rewrite app_nil_r.
      * exists (("N"%char :: print_int (line_no b) ++ [" "%char]) ++ r').
        cbn [app]. f_equal. apply app_assoc.
  - destruct (print_chunks (chunks b)) as [body|e] eqn:E; [|discriminate].
    cbn [bind app]. intros H. injection H as <-.
    destruct (print_chunks_end _ _ E) as [[Hc ->]|(r' & ->)].
    + split; [tauto|]. intros H. contradiction.
    + split.
      * split.
        -- intros H. destruct r'; discriminate.
        -- intros [_ Hc]. rewrite Hc in E. injection E as E.
           destruct r'; discriminate.
      * intros _. now exists r'.
Qed.

Lemma block_print_ends_with_space_witness :
  (chars "N10 G1 " = [] <->
   has_line_number (block_numbered 10 true [make_word_int "G" 1]) = false /\
   chunks (block_numbered 10 true [make_word_int "G" 1]) = []) /\
  (chars "N10 G1 " <> [] -> exists r', chars "N10 G1 " = r' ++ [" "%char]).
Proof.
  apply (block_print_ends_with_space
           (block_numbered 10 true [make_word_int "G" 1])).
  vm_compute. reflexivity.
Defined.

(** ** Numbers that an integer letter reads *)

Lemma stoi_print_int_rest (z : Z) (rest : str) :
  in_int_range z = true ->
  match rest with c :: _ => isdigit c = false | [] => True end ->
  stoi (print_int z ++ rest) = OK z.
Proof.
  intros Hr Hrest.
  assert (Hread : forall p : positive,
    read_digits (uint_chars (Pos.to_uint p) ++ rest) 0 0 =
    (Z.pos p, length (uint_chars (Pos.to_uint p)), rest)).
  { intros p. rewrite read_digits_uint by exact Hrest.
    now rewrite uint_value_of_uint, DecimalPos.Unsigned.of_to. }
  unfold print_int, Z.to_int. destruct z as [|p|p].
  - cbn [Pos.to_uint uint_chars app]. unfold stoi.
    cbn [skip_space]. change (isspace "0") with false. cbv iota.
    unfold read_sign. change (Ascii.eqb "0" "-") with false.
    change (Ascii.eqb "0" "+") with false. cbv iota.
    cbn [read_digits]. change (isdigit "0") with true. cbv iota.
    rewrite read_digits_stop by exact Hrest. reflexivity.
  - destruct (uint_chars_to_uint p) as (c & s & E & Hc).
    unfold stoi. rewrite E. cbn [skip_space app].
    rewrite (isdigit_not_space _ Hc). unfold read_sign.
    assert (Hm : Ascii.eqb c "-" = false)
      by (destruct (Ascii.eqb c "-") eqn:X; [|reflexivity];
          apply Ascii.eqb_eq in X; subst c; discriminate).
    assert (Hpl : Ascii.eqb c "+" = false)
      by (destruct (Ascii.eqb c "+") eqn:X; [|reflexivity];
          apply Ascii.eqb_eq in X; subst c; discriminate).
    rewrite Hm, Hpl.
    change (c :: s ++ rest) with ((c :: s) ++ rest).
    rewrite <- E, Hread, E. cbn [length]. now rewrite Hr.
  - unfold stoi. cbn [skip_space app].
    change (isspace "-") with false. cbv iota.
    unfold read_sign. change (Ascii.eqb "-" "-") with true. cbv iota.
    destruct (uint_chars_to_uint p) as (c & s & E & Hc).
    rewrite Hread, E. cbn [length].
    change (- Z.pos p)%Z with (Z.neg p). now rewrite Hr.
Qed.

(** X17: an integer letter keeps the integer part of the number that
    follows it.  The lexer hands over the whole run of digits, '.' and
    '-' as one token, and [stoi] stops at the first character that is
    not a digit without complaint: G1.5 is read as G1, and so is
    G1-2. *)
Theorem integer_letter_truncates (w : ascii) (z : Z) (rest : str)
    (s : token_stream) :
  classify w = Some ADDRESS_TYPE_INTEGER ->
  in_int_range z = true ->
  match rest with c :: _ => isdigit c = false | [] => True end ->
  parse_chunk ([w] :: (print_int z ++ rest) :: s) = OK (make_word_int w z, s).
Proof.
  intros Hw Hz Hrest.
  destruct (classified_facts _ _ Hw) as (_ & Hm & _).
  assert (Hd : default_branch [w] = true).
  { unfold default_branch, mem_char in *.
    cbn [chars list_ascii_of_string existsb front hd eqb_str] in *.
    repeat (apply orb_false_iff in Hm as [? Hm]).
    repeat match goal with X : Ascii.eqb w _ = false |- _ => rewrite X; clear X end.
    reflexivity. }
  rewrite (parse_chunk_default_branch _ _ _ Hd). cbn [length Nat.eqb front hd].
  rewrite Hw.
  destruct (print_int_num_chars z) as (_ & c & t & E & Hc).
  assert (Hn : is_num_char (front (print_int z ++ rest)) = true)
    by (rewrite E; exact Hc).
  now rewrite Hn, (stoi_print_int_rest z rest Hz Hrest).
Qed.

Lemma integer_letter_truncates_witness :
  parse_chunk [chars "G"; chars "1.5"] = OK (make_word_int "G" 1, []).
Proof.
  apply (integer_letter_truncates "G" 1 (chars ".5") []); reflexivity.
Defined.
